(** * Kaal-AI-BOT: the live voice/vision session, its codecs and the chat

    A shallow embedding of
      - [services/geminiService.ts]: [decodeBase64], [encodeBase64],
        [decodePCM], [sendMessageStream], [generateSmartTitle], [refinePrompt];
      - [components/VoiceOverlay.tsx]: [parseLang], [cleanup], [connect] and the
        callbacks it registers ([onopen], [onaudioprocess], the frame timer,
        [onmessage], [source.onended], [onerror], [onclose]);
      - [App.tsx]: the session list, [handleSend] and the sidebar callbacks.

    JavaScript strings are lists of UTF-16 code units, a [Uint8Array] is a list
    of bytes, an [Int16Array] a list of integers in [-32768, 32767], and a
    [Float32Array] a list of rationals that are rounded to binary32 when they
    are stored.  A Number of the audio path (a duration, the playback
    cursor, the input level) is a rational that is rounded to binary64 after
    each operation.  The browser functions the code calls ([btoa], [atob],
    the typed-array conversions, [createBuffer], [close()]) are written out
    from their standards.  A component is a state machine: its React state
    and refs make up the state, each callback is a transition, and what it
    does to the page and to the remote session is recorded in a trace.  An
    async function is cut at its awaits: each part is a transition of its
    own, and other callbacks can come in between. *)

From Stdlib Require Import String Ascii.
From Stdlib.Strings Require Import Byte.
From Stdlib Require Import List Bool Arith ZArith NArith QArith Qround Qabs Qminmax Lia Lqa.
From Stdlib Require Import Sorted Permutation.
Import ListNotations.

Set Implicit Arguments.

(* ------------------------------------------------------------------ *)
(** ** JavaScript strings *)

Module JS.

Definition code_unit := N.
Definition jsstring := list code_unit.

(** A string literal of the source, as code units. *)
Definition lit (s : string) : jsstring :=
  map N_of_ascii (list_ascii_of_string s).

(** [\s] of a regular expression without the [u] flag: WhiteSpace and
    LineTerminator of ECMAScript. *)
Definition is_space (c : code_unit) : bool :=
  ((9 <=? c) && (c <=? 13) || (c =? 32) || (c =? 160) || (c =? 5760)
   || (8192 <=? c) && (c <=? 8202) || (c =? 8232) || (c =? 8233)
   || (c =? 8239) || (c =? 8287) || (c =? 12288) || (c =? 65279))%N.

(** [[A-Z]] *)
Definition is_upper (c : code_unit) : bool := ((65 <=? c) && (c <=? 90))%N.

Fixpoint skip_spaces (s : jsstring) : jsstring :=
  match s with
  | c :: r => if is_space c then skip_spaces r else s
  | [] => []
  end.

(** A non-empty string is truthy. *)
Definition truthy (s : jsstring) : bool :=
  match s with [] => false | _ => true end.

End JS.

(* ------------------------------------------------------------------ *)
(** ** [btoa] and [atob] (HTML standard, forgiving-base64) *)

Module Base64.
Import JS.
Local Open Scope N_scope.

Definition sextet_char (i : N) : code_unit :=
  if i <? 26 then i + 65
  else if i <? 52 then i + 71
  else if i <? 62 then i - 4
  else if i =? 62 then 43 else 47.

Definition char_sextet (c : code_unit) : option N :=
  if (65 <=? c) && (c <=? 90) then Some (c - 65)
  else if (97 <=? c) && (c <=? 122) then Some (c - 71)
  else if (48 <=? c) && (c <=? 57) then Some (c + 4)
  else if c =? 43 then Some 62
  else if c =? 47 then Some 63
  else None.

Definition pad : code_unit := 61.

(** Three octets give four characters; one or two left over are padded. *)
Fixpoint encode_octets (l : list N) : jsstring :=
  match l with
  | a :: b :: c :: rest =>
      sextet_char (a / 4) :: sextet_char ((a mod 4) * 16 + b / 16)
      :: sextet_char ((b mod 16) * 4 + c / 64) :: sextet_char (c mod 64)
      :: encode_octets rest
  | [a; b] =>
      [sextet_char (a / 4); sextet_char ((a mod 4) * 16 + b / 16);
       sextet_char ((b mod 16) * 4); pad]
  | [a] => [sextet_char (a / 4); sextet_char ((a mod 4) * 16); pad; pad]
  | [] => []
  end.

(** [btoa] throws InvalidCharacterError on a code unit above U+00FF. *)
Definition btoa (s : jsstring) : option jsstring :=
  if forallb (fun c => c <=? 255) s then Some (encode_octets s) else None.

Definition is_ascii_whitespace (c : code_unit) : bool :=
  (c =? 9) || (c =? 10) || (c =? 12) || (c =? 13) || (c =? 32).

(** When the length is a multiple of four, one or two trailing [=] go. *)
Definition strip_padding (d : jsstring) : jsstring :=
  if N.of_nat (length d) mod 4 =? 0 then
    match rev d with
    | p1 :: p2 :: r =>
        if p1 =? pad then if p2 =? pad then rev r else rev (p2 :: r) else d
    | [p1] => if p1 =? pad then [] else d
    | [] => d
    end
  else d.

Fixpoint sextets (d : jsstring) : option (list N) :=
  match d with
  | [] => Some []
  | c :: r =>
      match char_sextet c, sextets r with
      | Some x, Some xs => Some (x :: xs)
      | _, _ => None
      end
  end.

(** Four sextets give three octets; of two left over the last four bits are
    dropped, of three the last two. *)
Fixpoint decode_sextets (l : list N) : list N :=
  match l with
  | a :: b :: c :: d :: rest =>
      (a * 4 + b / 16) :: ((b mod 16) * 16 + c / 4) :: ((c mod 4) * 64 + d)
      :: decode_sextets rest
  | [a; b; c] => [a * 4 + b / 16; (b mod 16) * 16 + c / 4]
  | [a; b] => [a * 4 + b / 16]
  | _ => []
  end.

(** [atob] throws InvalidCharacterError where this returns [None]. *)
Definition atob (s : jsstring) : option jsstring :=
  let d := strip_padding (filter (fun c => negb (is_ascii_whitespace c)) s) in
  if N.of_nat (length d) mod 4 =? 1 then None
  else option_map decode_sextets (sextets d).

End Base64.

(* ------------------------------------------------------------------ *)
(** ** Typed arrays: binary32 stores and 16-bit integers *)

Module TypedArray.
Local Open Scope Q_scope.

(** A finite number is the rational it denotes; a rational of magnitude
    [2^128] or more stands for an infinity of binary32.  NaN is not
    represented. *)

(** [2^e] *)
Definition pow2 (e : Z) : Q :=
  if (0 <=? e)%Z then inject_Z (2 ^ e) else 1 # Z.to_pos (2 ^ (- e)).

(** The exponent of the binade of a non-zero [x]:
    [2^(ilog2 x) <= |x| < 2^(ilog2 x + 1)]. *)
Definition ilog2 (x : Q) : Z :=
  let a := Qabs x in
  if Qle_bool 1 a then Z.log2 (Qfloor a) else (- Z.log2_up (Qceiling (/ a)))%Z.

(** Nearest integer, ties to even. *)
Definition round_half_even (x : Q) : Z :=
  let f := Qfloor x in
  match Qcompare (x - inject_Z f) (1 # 2) with
  | Lt => f
  | Gt => (f + 1)%Z
  | Eq => if Z.even f then f else (f + 1)%Z
  end.

(** A store into a [Float32Array]: round to 24 significant bits, with the
    gradual underflow of binary32. *)
Definition fround (x : Q) : Q :=
  if Qeq_bool x 0 then 0
  else
    let e := Z.max (ilog2 x - 23) (-149) in
    inject_Z (round_half_even (x / pow2 e)) * pow2 e.

Definition is_infinite (x : Q) : bool := Qle_bool (pow2 128) (Qabs x).

(** *** Numbers

    A Number is a binary64: the result of an addition, product or quotient
    is rounded to 53 significant bits, with the gradual underflow of
    binary64.  Where only finite values are at stake a Number is the
    rational it denotes, and a rational of magnitude [2^1024] or more
    stands for an infinity. *)
Definition double (x : Q) : Q :=
  if Qeq_bool x 0 then 0
  else
    let e := Z.max (ilog2 x - 52) (-1074) in
    inject_Z (round_half_even (x / pow2 e)) * pow2 e.

(** The Numbers that the level meter computes: none is negative. *)
Inductive Number :=
| Finite (q : Q)
| PositiveInfinity
| NaN.

(** The Number that a rational result, zero or more, rounds to. *)
Definition number (x : Q) : Number :=
  if Qle_bool (pow2 1024) (double x) then PositiveInfinity else Finite (double x).

(** [v * v] for an element [v] of a [Float32Array] *)
Definition square (v : Q) : Number :=
  if is_infinite v then PositiveInfinity else number (v * v).

(** [a + b] *)
Definition add (a b : Number) : Number :=
  match a, b with
  | NaN, _ | _, NaN => NaN
  | Finite x, Finite y => number (x + y)
  | _, _ => PositiveInfinity
  end.

(** [a / n] for a length [n], which is an integer below [2^53] *)
Definition divide (a : Number) (n : nat) : Number :=
  match a with
  | NaN => NaN
  | PositiveInfinity => PositiveInfinity
  | Finite x =>
      match n with
      | O => if Qeq_bool x 0 then NaN else PositiveInfinity
      | S _ => number (x / inject_Z (Z.of_nat n))
      end
  end.

(** The square root of a positive binary64, rounded to the nearest
    binary64: [m] is the integer part of the root in units of the last
    place [u], and the root is compared with [m + 1/2]. *)
Definition sqrt64 (x : Q) : Q :=
  if Qle_bool x 0 then 0
  else
    let u := pow2 (ilog2 x / 2 - 52) in
    let t := x / (u * u) in
    let m := Z.sqrt (Qfloor t) in
    match Qcompare t (inject_Z (m * m + m) + (1 # 4)) with
    | Lt => inject_Z m * u
    | Gt => inject_Z (m + 1) * u
    | Eq => inject_Z (if Z.even m then m else m + 1) * u
    end.

(** [Math.sqrt(a)] *)
Definition sqrt (a : Number) : Number :=
  match a with
  | Finite x => Finite (sqrt64 x)
  | other => other
  end.

Definition truncate (x : Q) : Z := Z.quot (Qnum x) (Zpos (Qden x)).

(** The signed reading of a 16-bit pattern. *)
Definition signed16 (u : Z) : Z :=
  let k := (u mod 65536)%Z in
  if (k <? 32768)%Z then k else (k - 65536)%Z.

(** ToInt16 of ECMAScript: infinities give 0, the rest is truncated and
    wraps modulo [2^16]. *)
Definition toInt16 (x : Q) : Z :=
  if is_infinite x then 0%Z else signed16 (truncate x).

(** Storing a number in a [Uint8Array] keeps it modulo 256. *)
Definition toUint8 (n : N) : byte :=
  match Byte.of_N (n mod 256) with Some b => b | None => x00 end.

(** [new Uint8Array(int16Array.buffer)]: two bytes a sample, low byte
    first (the byte order of the platforms that browsers run on). *)
Definition int16_bytes (k : Z) : list byte :=
  let u := Z.to_N (k mod 65536) in
  [toUint8 (u mod 256); toUint8 (u / 256)].

Definition bytes_of_int16s (l : list Z) : list byte := flat_map int16_bytes l.

(** [new Int16Array(uint8Array.buffer)]: a RangeError when the byte length
    is odd. *)
Fixpoint int16s_of_bytes (l : list byte) : option (list Z) :=
  match l with
  | [] => Some []
  | lo :: hi :: r =>
      option_map
        (cons (signed16 (Z.of_N (Byte.to_N lo) + 256 * Z.of_N (Byte.to_N hi))))
        (int16s_of_bytes r)
  | [_] => None
  end.

End TypedArray.

(* ------------------------------------------------------------------ *)
(** ** services/geminiService.ts *)

Module GeminiService.
Import JS Base64 TypedArray.
Local Open Scope Q_scope.

(** [decodeBase64]: the char codes of [atob(base64)]. *)
Definition decodeBase64 (base64 : jsstring) : option (list byte) :=
  option_map (map toUint8) (atob base64).

(** [encodeBase64]: [btoa] of the string of [String.fromCharCode(bytes[i])]. *)
Definition encodeBase64 (bytes : list byte) : option jsstring :=
  btoa (map Byte.to_N bytes).

Record AudioBuffer := {
  numberOfChannels : nat;
  frames : nat;                      (* [buffer.length] *)
  sampleRate : positive;
  channelData : list (list Q)
}.

(** [buffer.duration], in seconds: the Number [length / sampleRate]. *)
Definition duration (b : AudioBuffer) : Q :=
  double (Z.of_nat (frames b) # sampleRate b).

(** [ctx.createBuffer(numChannels, frameCount, sampleRate)] throws
    NotSupportedError for no channel, no frame, and for a channel count or a
    rate outside what the browser supports.  The bounds here are the ones
    that every browser has, up to 32 channels and the rates from 8000 to
    96000; a browser may accept more.  The one call of this code, with one
    channel at 24000, is inside them. *)
Definition createBuffer_supports (numChannels frameCount : nat)
    (sampleRate : positive) : bool :=
  ((1 <=? numChannels) && (numChannels <=? 32) && (1 <=? frameCount))%nat
  && ((8000 <=? sampleRate) && (sampleRate <=? 96000))%positive.

(** [decodePCM].  [createBuffer] takes the frame count as an integer, so
    that a fractional [frameCount] is cut. *)
Definition decodePCM (data : list byte) (sampleRate : positive)
    (numChannels : nat) : option AudioBuffer :=
  match int16s_of_bytes data with
  | None => None
  | Some dataInt16 =>
      let frameCount := (List.length dataInt16 / numChannels)%nat in
      if negb (createBuffer_supports numChannels frameCount sampleRate) then None
      else
        Some {| numberOfChannels := numChannels;
                frames := frameCount;
                sampleRate := sampleRate;
                channelData :=
                  map (fun channel =>
                         map (fun i =>
                                fround
                                  (nth (i * numChannels + channel) dataInt16 0%Z
                                   # 32768))
                             (seq 0 frameCount))
                      (seq 0 numChannels) |}
  end.

End GeminiService.

(* ------------------------------------------------------------------ *)
(** ** components/VoiceOverlay.tsx *)

Module VoiceOverlay.
Import JS Base64 TypedArray GeminiService.
Local Open Scope Q_scope.

Inductive Status := connecting | listening | speaking | error.
Inductive Mode := voice | vision.

Definition SessionId := N.          (* a [crypto.randomUUID()] *)
Definition AudioContextId := nat.
Definition MediaStreamId := nat.

(** An [AudioBufferSourceNode] that was started: its identity, the session
    whose handler created it, the duration of its buffer and the [when] of
    [source.start(when)]. *)
Record Source := {
  src_id : nat;
  src_session : SessionId;
  src_duration : Q;
  src_when : Q
}.

(** What the component does to the browser and to the remote session. *)
Inductive Effect :=
| ClearInterval (timer : positive)
| SetInterval (timer : positive) (ms : N)
| TrackStop (stream : MediaStreamId)
| SourceStart (s : Source)
| SourceStop (s : Source)
| ContextClose (ctx : AudioContextId)
| SendAudio (session : SessionId) (data mimeType : jsstring)
| ToBlob (session : SessionId) (width height : N) (type : jsstring) (quality : Q)
| SendImage (session : SessionId) (data mimeType : jsstring).

(** The React state of the component, its refs, and the effects so far
    (latest first).  [sources] is the [Set] in insertion order; [created]
    counts the source nodes created and names the next one.  [gainNodeRef],
    which nothing reads but [source.connect], is left out. *)
Record State := {
  status : Status;
  isConnected : bool;
  inputLevel : Number;
  inputTranscript : jsstring;
  outputTranscript : jsstring;
  detectedLang : jsstring;
  inputContext : option AudioContextId;     (* audioContextsRef.current.input *)
  outputContext : option AudioContextId;    (* audioContextsRef.current.output *)
  sources : list Source;                    (* sourcesRef *)
  nextStartTime : Q;                        (* nextStartTimeRef *)
  activeSessionId : option SessionId;       (* activeSessionIdRef *)
  mediaStream : option MediaStreamId;       (* mediaStreamRef *)
  frameInterval : option positive;          (* frameIntervalRef *)
  created : nat;
  trace : list Effect
}.

Definition initial : State :=
  {| status := connecting; isConnected := false; inputLevel := Finite 0;
     inputTranscript := []; outputTranscript := []; detectedLang := lit "AUTO";
     inputContext := None; outputContext := None; sources := [];
     nextStartTime := 0; activeSessionId := None; mediaStream := None;
     frameInterval := None; created := 0; trace := [] |}.

Definition setStatus (v : Status) (st : State) : State :=
  {| status := v; isConnected := isConnected st; inputLevel := inputLevel st;
     inputTranscript := inputTranscript st; outputTranscript := outputTranscript st;
     detectedLang := detectedLang st; inputContext := inputContext st;
     outputContext := outputContext st; sources := sources st;
     nextStartTime := nextStartTime st; activeSessionId := activeSessionId st;
     mediaStream := mediaStream st; frameInterval := frameInterval st;
     created := created st; trace := trace st |}.

Definition setIsConnected (v : bool) (st : State) : State :=
  {| status := status st; isConnected := v; inputLevel := inputLevel st;
     inputTranscript := inputTranscript st; outputTranscript := outputTranscript st;
     detectedLang := detectedLang st; inputContext := inputContext st;
     outputContext := outputContext st; sources := sources st;
     nextStartTime := nextStartTime st; activeSessionId := activeSessionId st;
     mediaStream := mediaStream st; frameInterval := frameInterval st;
     created := created st; trace := trace st |}.

Definition setInputLevel (v : Number) (st : State) : State :=
  {| status := status st; isConnected := isConnected st; inputLevel := v;
     inputTranscript := inputTranscript st; outputTranscript := outputTranscript st;
     detectedLang := detectedLang st; inputContext := inputContext st;
     outputContext := outputContext st; sources := sources st;
     nextStartTime := nextStartTime st; activeSessionId := activeSessionId st;
     mediaStream := mediaStream st; frameInterval := frameInterval st;
     created := created st; trace := trace st |}.

Definition setInputTranscript (f : jsstring -> jsstring) (st : State) : State :=
  {| status := status st; isConnected := isConnected st; inputLevel := inputLevel st;
     inputTranscript := f (inputTranscript st); outputTranscript := outputTranscript st;
     detectedLang := detectedLang st; inputContext := inputContext st;
     outputContext := outputContext st; sources := sources st;
     nextStartTime := nextStartTime st; activeSessionId := activeSessionId st;
     mediaStream := mediaStream st; frameInterval := frameInterval st;
     created := created st; trace := trace st |}.

Definition setOutputTranscript (f : jsstring -> jsstring) (st : State) : State :=
  {| status := status st; isConnected := isConnected st; inputLevel := inputLevel st;
     inputTranscript := inputTranscript st; outputTranscript := f (outputTranscript st);
     detectedLang := detectedLang st; inputContext := inputContext st;
     outputContext := outputContext st; sources := sources st;
     nextStartTime := nextStartTime st; activeSessionId := activeSessionId st;
     mediaStream := mediaStream st; frameInterval := frameInterval st;
     created := created st; trace := trace st |}.

Definition setDetectedLang (v : jsstring) (st : State) : State :=
  {| status := status st; isConnected := isConnected st; inputLevel := inputLevel st;
     inputTranscript := inputTranscript st; outputTranscript := outputTranscript st;
     detectedLang := v; inputContext := inputContext st;
     outputContext := outputContext st; sources := sources st;
     nextStartTime := nextStartTime st; activeSessionId := activeSessionId st;
     mediaStream := mediaStream st; frameInterval := frameInterval st;
     created := created st; trace := trace st |}.

Definition setAudioContexts (i o : option AudioContextId) (st : State) : State :=
  {| status := status st; isConnected := isConnected st; inputLevel := inputLevel st;
     inputTranscript := inputTranscript st; outputTranscript := outputTranscript st;
     detectedLang := detectedLang st; inputContext := i;
     outputContext := o; sources := sources st;
     nextStartTime := nextStartTime st; activeSessionId := activeSessionId st;
     mediaStream := mediaStream st; frameInterval := frameInterval st;
     created := created st; trace := trace st |}.

Definition setSources (v : list Source) (st : State) : State :=
  {| status := status st; isConnected := isConnected st; inputLevel := inputLevel st;
     inputTranscript := inputTranscript st; outputTranscript := outputTranscript st;
     detectedLang := detectedLang st; inputContext := inputContext st;
     outputContext := outputContext st; sources := v;
     nextStartTime := nextStartTime st; activeSessionId := activeSessionId st;
     mediaStream := mediaStream st; frameInterval := frameInterval st;
     created := created st; trace := trace st |}.

Definition setNextStartTime (v : Q) (st : State) : State :=
  {| status := status st; isConnected := isConnected st; inputLevel := inputLevel st;
     inputTranscript := inputTranscript st; outputTranscript := outputTranscript st;
     detectedLang := detectedLang st; inputContext := inputContext st;
     outputContext := outputContext st; sources := sources st;
     nextStartTime := v; activeSessionId := activeSessionId st;
     mediaStream := mediaStream st; frameInterval := frameInterval st;
     created := created st; trace := trace st |}.

Definition setActiveSessionId (v : option SessionId) (st : State) : State :=
  {| status := status st; isConnected := isConnected st; inputLevel := inputLevel st;
     inputTranscript := inputTranscript st; outputTranscript := outputTranscript st;
     detectedLang := detectedLang st; inputContext := inputContext st;
     outputContext := outputContext st; sources := sources st;
     nextStartTime := nextStartTime st; activeSessionId := v;
     mediaStream := mediaStream st; frameInterval := frameInterval st;
     created := created st; trace := trace st |}.

Definition setMediaStream (v : option MediaStreamId) (st : State) : State :=
  {| status := status st; isConnected := isConnected st; inputLevel := inputLevel st;
     inputTranscript := inputTranscript st; outputTranscript := outputTranscript st;
     detectedLang := detectedLang st; inputContext := inputContext st;
     outputContext := outputContext st; sources := sources st;
     nextStartTime := nextStartTime st; activeSessionId := activeSessionId st;
     mediaStream := v; frameInterval := frameInterval st;
     created := created st; trace := trace st |}.

Definition setFrameInterval (v : option positive) (st : State) : State :=
  {| status := status st; isConnected := isConnected st; inputLevel := inputLevel st;
     inputTranscript := inputTranscript st; outputTranscript := outputTranscript st;
     detectedLang := detectedLang st; inputContext := inputContext st;
     outputContext := outputContext st; sources := sources st;
     nextStartTime := nextStartTime st; activeSessionId := activeSessionId st;
     mediaStream := mediaStream st; frameInterval := v;
     created := created st; trace := trace st |}.

(** A fresh source node. *)
Definition setCreated (v : nat) (st : State) : State :=
  {| status := status st; isConnected := isConnected st; inputLevel := inputLevel st;
     inputTranscript := inputTranscript st; outputTranscript := outputTranscript st;
     detectedLang := detectedLang st; inputContext := inputContext st;
     outputContext := outputContext st; sources := sources st;
     nextStartTime := nextStartTime st; activeSessionId := activeSessionId st;
     mediaStream := mediaStream st; frameInterval := frameInterval st;
     created := v; trace := trace st |}.

Definition emit (e : Effect) (st : State) : State :=
  {| status := status st; isConnected := isConnected st; inputLevel := inputLevel st;
     inputTranscript := inputTranscript st; outputTranscript := outputTranscript st;
     detectedLang := detectedLang st; inputContext := inputContext st;
     outputContext := outputContext st; sources := sources st;
     nextStartTime := nextStartTime st; activeSessionId := activeSessionId st;
     mediaStream := mediaStream st; frameInterval := frameInterval st;
     created := created st; trace := e :: trace st |}.

(** [activeSessionIdRef.current !== sessionId] *)
Definition superseded (sessionId : SessionId) (st : State) : bool :=
  match activeSessionId st with
  | Some a => negb (a =? sessionId)%N
  | None => true
  end.

(** *** parseLang *)

(** [text.match(/^\[([A-Z]{2})\]/)]: the captured code, and what follows the
    tag. *)
Definition match_tag (text : jsstring) : option (jsstring * jsstring) :=
  match text with
  | o :: a :: b :: c :: rest =>
      if ((o =? 91)%N && is_upper a && is_upper b && (c =? 93)%N)%bool
      then Some ([a; b], rest) else None
  | _ => None
  end.

(** [text.replace(/^\[[A-Z]{2}\]\s*/, '')] *)
Definition strip_tag (text : jsstring) : jsstring :=
  match match_tag text with
  | Some (_, rest) => skip_spaces rest
  | None => text
  end.

Definition parseLang (text : jsstring) (st : State) : jsstring * State :=
  match match_tag text with
  | Some (code, _) => (strip_tag text, setDetectedLang code st)
  | None => (text, st)
  end.

(** *** cleanup

    [cleanup] is an async function.  It runs up to its first [await], and
    goes on in a later task, when the promise it waits for is resolved;
    other callbacks may run in between.  [close()] on a context on which it
    was called before returns a rejected promise: the [await] throws in the
    same task, and the call of [cleanup] ends there, rejected. *)

Definition stop_all (st : State) : State :=
  fold_left (fun acc s => emit (SourceStop s) acc) (sources st) st.

(** [close()] was called on the context. *)
Definition closed (c : AudioContextId) (st : State) : bool :=
  existsb (fun e => match e with
                    | ContextClose c' => (c' =? c)%nat
                    | _ => false
                    end)
          (trace st).

Inductive Wait := InputClose | OutputClose.

(** Where a call of [cleanup] stands at the end of a step. *)
Inductive Progress :=
| Returned                    (* it has run to its end *)
| Thrown                      (* it has thrown, its promise is rejected *)
| Waiting (on : Wait).        (* it waits in an [await] *)

(** Lines 48 to 55, which run at once. *)
Definition cleanup_sync (st : State) : State :=
  let st := setActiveSessionId None st in
  let st := match frameInterval st with
            | Some t => emit (ClearInterval t) st
            | None => st
            end in
  let st := match mediaStream st with
            | Some m => setMediaStream None (emit (TrackStop m) st)
            | None => st
            end in
  setSources [] (stop_all st).

(** Lines 58 and 59. *)
Definition cleanup_end (st : State) : State :=
  setIsConnected false (setAudioContexts None None st).

(** From line 57 on: what runs when [input.close()] is resolved, or at
    once when there is no input context. *)
Definition cleanup_output (st : State) : State * Progress :=
  match outputContext st with
  | Some c =>
      (emit (ContextClose c) st, if closed c st then Thrown else Waiting OutputClose)
  | None => (cleanup_end st, Returned)
  end.

(** From line 56 on. *)
Definition cleanup_input (st : State) : State * Progress :=
  match inputContext st with
  | Some c =>
      (emit (ContextClose c) st, if closed c st then Thrown else Waiting InputClose)
  | None => cleanup_output st
  end.

(** The call of [cleanup], up to its first [await]. *)
Definition cleanup_begin (st : State) : State * Progress :=
  cleanup_input (cleanup_sync st).

(** A call of [cleanup] during which nothing else runs: each promise it
    waits for is resolved before any other callback comes.  The result is
    the state when the call has settled, and whether it has returned. *)
Definition cleanup_settle (st : State) : State * bool :=
  match cleanup_begin st with
  | (st, Waiting InputClose) =>
      match cleanup_output st with
      | (st, Waiting _) => (cleanup_end st, true)
      | (st, Returned) => (st, true)
      | (st, Thrown) => (st, false)
      end
  | (st, Waiting OutputClose) => (cleanup_end st, true)
  | (st, Returned) => (st, true)
  | (st, Thrown) => (st, false)
  end.

Definition cleanup (st : State) : State := fst (cleanup_settle st).

(** *** connect

    [connect] waits for [cleanup] (line 63), for the two calls of
    [resume()] (lines 73 and 74) and for [getUserMedia] (line 81); it does
    not go on when [cleanup] is rejected, as line 63 is outside the [try]
    block. *)

(** Lines 64 to 73, when [cleanup] is resolved: the fresh token and the
    status; [constructed] is false when one of the constructors throws,
    which lands in the [catch] block. *)
Definition connect_token (sessionId : SessionId) (constructed : bool)
    (st : State) : State :=
  let st := setActiveSessionId (Some sessionId) st in
  let st := setStatus connecting st in
  if constructed then st else setStatus error st.

(** The [catch] block (line 195), for a rejected [resume()]. *)
Definition connect_failed (st : State) : State := setStatus error st.

(** Lines 76 to 88, when both calls of [resume()] are resolved: the two
    contexts are stored, whatever the token is by then. *)
Definition connect_contexts (inputCtx outputCtx : AudioContextId)
    (st : State) : State :=
  setAudioContexts (Some inputCtx) (Some outputCtx) st.

(** A call of [connect] during which nothing else runs, up to its wait for
    [getUserMedia]: the teardown, the fresh token and the two audio
    contexts. *)
Definition connect (sessionId : SessionId) (inputCtx outputCtx : AudioContextId)
    (st : State) : State :=
  match cleanup_settle st with
  | (st, true) =>
      connect_contexts inputCtx outputCtx (connect_token sessionId true st)
  | (st, false) => st
  end.

(** [connect] after [getUserMedia]: a rejection lands in the [catch]; a
    stream that arrives for a superseded session is stopped. *)
Definition connect_resume (sessionId : SessionId) (stream : option MediaStreamId)
    (st : State) : State :=
  match stream with
  | None => setStatus error st
  | Some m =>
      if superseded sessionId st then emit (TrackStop m) st
      else setMediaStream (Some m) st
  end.

(** *** The callbacks registered by [connect]

    Each closure holds the [sessionId] and the [mode] of the [connect] that
    made it. *)

(** [onopen]; [timer] is what [setInterval] returns. *)
Definition onopen (sessionId : SessionId) (mode : Mode) (timer : positive)
    (st : State) : State :=
  if superseded sessionId st then st
  else
    let st := setStatus listening (setIsConnected true st) in
    match mode with
    | vision => setFrameInterval (Some timer) (emit (SetInterval timer 500) st)
    | voice => st
    end.

(** [new Uint8Array(new Int16Array(inputData.map(v => v * 32767)).buffer)]:
    the products are stored in a [Float32Array] before they are converted. *)
Definition pcm16 (inputData : list Q) : list byte :=
  bytes_of_int16s (map toInt16 (map (fun v => fround (v * 32767)) inputData)).

(** Lines 118 to 120: the root of the mean of the squares, each operation
    rounded as a Number; [NaN] for an empty frame. *)
Definition rms (inputData : list Q) : Number :=
  let sum := fold_left (fun sum v => add sum (square v)) inputData (Finite 0) in
  sqrt (divide sum (length inputData)).

(** [scriptProcessor.onaudioprocess] *)
Definition onaudioprocess (sessionId : SessionId) (inputData : list Q)
    (st : State) : State :=
  if superseded sessionId st then st
  else
    let st := setInputLevel (rms inputData) st in
    match encodeBase64 (pcm16 inputData) with
    | Some data => emit (SendAudio sessionId data (lit "audio/pcm;rate=16000")) st
    | None => st
    end.

(** What the timer callback finds in the page: the [readyState] of the video
    element, when it is mounted (in vision mode). *)
Record Page := {
  video : option N           (* videoRef.current?.readyState *)
}.

(** [canvasRef.current]: whether the canvas gives a 2d context.  The
    component renders no canvas element, and nothing assigns the ref: it
    is [null] at every tick. *)
Definition canvasRef : option bool := None.

(** The callback of [setInterval(..., 500)]: it draws the frame on a
    320 x 240 canvas and asks for its JPEG encoding. *)
Definition frame_tick (sessionId : SessionId) (page : Page) (st : State) : State :=
  if superseded sessionId st then st
  else
    match video page, canvasRef with
    | Some readyState, Some ctx =>
        if (ctx && (2 <=? readyState)%N)%bool
        then emit (ToBlob sessionId 320 240 (lit "image/jpeg") (1 # 2)) st
        else st
    | _, _ => st
    end.

(** The callback of [canvas.toBlob], once the blob is read as base64. *)
Definition frame_encoded (sessionId : SessionId) (blob : option jsstring)
    (st : State) : State :=
  match blob with
  | Some data => emit (SendImage sessionId data (lit "image/jpeg")) st
  | None => st
  end.

Record LiveServerMessage := {
  inputTranscription : option jsstring;    (* serverContent?.inputTranscription.text *)
  outputTranscription : option jsstring;   (* serverContent?.outputTranscription.text *)
  turnComplete : bool;
  audioBase64 : option jsstring; (* serverContent?.modelTurn?.parts[0]?.inlineData?.data *)
  interrupted : bool
}.

(** The end of [onmessage]. *)
Definition on_interrupted (msg : LiveServerMessage) (st : State) : State :=
  if interrupted msg
  then setStatus listening (setNextStartTime 0 (setSources [] (stop_all st)))
  else st.

(** The buffer of an audio chunk; [None] where [atob], [new Int16Array] or
    [createBuffer] throws. *)
Definition chunk_buffer (audio : jsstring) : option AudioBuffer :=
  match decodeBase64 audio with
  | Some data => decodePCM data 24000 1
  | None => None
  end.

(** The transcript part of [onmessage]. *)
Definition on_transcripts (msg : LiveServerMessage) (st : State) : State :=
  let st := match inputTranscription msg with
            | Some text =>
                let (cleaned, st) := parseLang text st in
                setInputTranscript (fun t => t ++ cleaned) st
            | None => st
            end in
  let st := match outputTranscription msg with
            | Some text =>
                let (cleaned, st) := parseLang text st in
                setOutputTranscript (fun t => t ++ cleaned) st
            | None => st
            end in
  if turnComplete msg
  then setOutputTranscript (fun _ => []) (setInputTranscript (fun _ => []) st)
  else st.

(** The audio part of [onmessage]; [now] is [outputCtx.currentTime].  When
    the decoding throws, the handler stops there.  The cursor moves by an
    addition of Numbers. *)
Definition on_audio (sessionId : SessionId) (now : Q) (msg : LiveServerMessage)
    (st : State) : State :=
  match audioBase64 msg with
  | Some audio =>
      if truthy audio then
        let st := setStatus speaking st in
        let st := setNextStartTime (Qmax (nextStartTime st) now) st in
        match chunk_buffer audio with
        | None => st
        | Some buffer =>
            let source := {| src_id := created st; src_session := sessionId;
                             src_duration := duration buffer;
                             src_when := nextStartTime st |} in
            let st := setCreated (S (created st)) st in
            let st := emit (SourceStart source) st in
            let st :=
              setNextStartTime (double (nextStartTime st + duration buffer)) st in
            let st := setSources (sources st ++ [source]) st in
            on_interrupted msg st
        end
      else on_interrupted msg st
  | None => on_interrupted msg st
  end.

(** [onmessage].  Each message of the stream is delivered in a task of its
    own, and [decodePCM] has settled when it is awaited: the continuation
    runs in the microtasks of the same task, before any other callback, so
    the handler is one step. *)
Definition onmessage (sessionId : SessionId) (now : Q) (msg : LiveServerMessage)
    (st : State) : State :=
  if superseded sessionId st then st
  else on_audio sessionId now msg (on_transcripts msg st).

(** [source.onended] *)
Definition onended (source : Source) (st : State) : State :=
  let st := setSources
              (filter (fun s => negb (src_id s =? src_id source)%nat) (sources st))
              st in
  match sources st with
  | [] => setStatus listening st
  | _ => st
  end.

Definition onerror (st : State) : State := setStatus error st.

Definition onclose (st : State) : State := setIsConnected false st.

(** *** The component as a machine

    A step is what runs in one task.  [Connect] and [Cleanup] are the calls
    during which nothing else runs; the other events of [connect] and
    [cleanup] are their parts, one for each stretch between two [await]s,
    which may come with anything in between.  [CleanupBegin] is a call of
    [cleanup], by the teardown of the effect or by [connect] at line 63. *)

Inductive Event :=
| Connect (sessionId : SessionId) (inputCtx outputCtx : AudioContextId)
| ConnectResume (sessionId : SessionId) (stream : option MediaStreamId)
| Cleanup
| CleanupBegin
| CleanupInputClosed
| CleanupOutputClosed
| ConnectToken (sessionId : SessionId) (constructed : bool)
| ConnectFailed (sessionId : SessionId)
| ConnectContexts (sessionId : SessionId) (inputCtx outputCtx : AudioContextId)
| OnOpen (sessionId : SessionId) (mode : Mode) (timer : positive)
| OnAudioProcess (sessionId : SessionId) (inputData : list Q)
| FrameTick (sessionId : SessionId) (page : Page)
| FrameEncoded (sessionId : SessionId) (blob : option jsstring)
| OnMessage (sessionId : SessionId) (now : Q) (msg : LiveServerMessage)
| OnEnded (source : Source)
| OnError (sessionId : SessionId)
| OnClose (sessionId : SessionId).

Definition step (st : State) (e : Event) : State :=
  match e with
  | Connect sessionId i o => connect sessionId i o st
  | ConnectResume sessionId stream => connect_resume sessionId stream st
  | Cleanup => cleanup st
  | CleanupBegin => fst (cleanup_begin st)
  | CleanupInputClosed => fst (cleanup_output st)
  | CleanupOutputClosed => cleanup_end st
  | ConnectToken sessionId constructed => connect_token sessionId constructed st
  | ConnectFailed _ => connect_failed st
  | ConnectContexts _ i o => connect_contexts i o st
  | OnOpen sessionId mode timer => onopen sessionId mode timer st
  | OnAudioProcess sessionId inputData => onaudioprocess sessionId inputData st
  | FrameTick sessionId page => frame_tick sessionId page st
  | FrameEncoded sessionId blob => frame_encoded sessionId blob st
  | OnMessage sessionId now msg => onmessage sessionId now msg st
  | OnEnded source => onended source st
  | OnError _ => onerror st
  | OnClose _ => onclose st
  end.

Definition run (events : list Event) (st : State) : State :=
  fold_left step events st.

End VoiceOverlay.

(* ------------------------------------------------------------------ *)
(** ** Notions used to state and prove the properties *)

Module Base64Aux.
Import JS Base64.
Local Open Scope N_scope.

(** The sextets of a list of octets, without the characters. *)
Fixpoint six (l : list N) : list N :=
  match l with
  | a :: b :: c :: rest =>
      a / 4 :: (a mod 4) * 16 + b / 16 :: (b mod 16) * 4 + c / 64 :: c mod 64
      :: six rest
  | [a; b] => [a / 4; (a mod 4) * 16 + b / 16; (b mod 16) * 4]
  | [a] => [a / 4; (a mod 4) * 16]
  | [] => []
  end.

Definition padding (l : list N) : list N :=
  match (length l mod 3)%nat with
  | 1%nat => [pad; pad]
  | 2%nat => [pad]
  | _ => []
  end.

End Base64Aux.

Module VoiceOverlayAux.
Import JS Base64 TypedArray GeminiService VoiceOverlay.
Local Open Scope Q_scope.

(** A text that begins with [[], two letters of [A-Z] and []]. *)
Definition tagged (text : jsstring) : Prop :=
  exists a b rest,
    is_upper a = true /\ is_upper b = true /\
    text = 91%N :: a :: b :: 93%N :: rest.

Definition no_message : LiveServerMessage :=
  {| inputTranscription := None; outputTranscription := None;
     turnComplete := false; audioBase64 := None; interrupted := false |}.

Definition input_delta (text : jsstring) : LiveServerMessage :=
  {| inputTranscription := Some text; outputTranscription := None;
     turnComplete := false; audioBase64 := None; interrupted := false |}.

Definition output_delta (text : jsstring) : LiveServerMessage :=
  {| inputTranscription := None; outputTranscription := Some text;
     turnComplete := false; audioBase64 := None; interrupted := false |}.

Definition audio_chunk (audio : jsstring) : LiveServerMessage :=
  {| inputTranscription := None; outputTranscription := None;
     turnComplete := false; audioBase64 := Some audio; interrupted := false |}.

Definition interruption : LiveServerMessage :=
  {| inputTranscription := None; outputTranscription := None;
     turnComplete := false; audioBase64 := None; interrupted := true |}.

(** A session in its listening state: [connect], the stream, [onopen]. *)
Definition live : State :=
  run [Connect 1%N 1%nat 2%nat; ConnectResume 1%N (Some 1%nat); OnOpen 1%N vision 1%positive]
      initial.

(** The duration of the buffer that a message's audio decodes to. *)
Definition chunk_duration (msg : LiveServerMessage) : option Q :=
  match audioBase64 msg with
  | Some audio =>
      if truthy audio then option_map duration (chunk_buffer audio) else None
  | None => None
  end.

(** A message that carries a playable chunk and no interruption. *)
Definition plays (msg : LiveServerMessage) : Prop :=
  interrupted msg = false /\ exists d, chunk_duration msg = Some d.

(** The sources started so far, oldest first. *)
Definition started_in (tr : list Effect) : list Source :=
  rev (flat_map (fun e => match e with SourceStart s => [s] | _ => [] end) tr).

Definition started (st : State) : list Source := started_in (trace st).

(** The messages of one session, each with the output clock at which its
    handler runs. *)
Definition deliver (sessionId : SessionId) (chunks : list (Q * LiveServerMessage))
    (st : State) : State :=
  fold_left (fun acc c => onmessage sessionId (fst c) (snd c) acc) chunks st.

(** The starts that a cursor at [next] gives to a sequence of chunks. *)
Fixpoint plan (sessionId : SessionId) (id : nat) (next : Q)
    (chunks : list (Q * LiveServerMessage)) : list Source :=
  match chunks with
  | [] => []
  | (now, msg) :: rest =>
      match chunk_duration msg with
      | Some d =>
          {| src_id := id; src_session := sessionId; src_duration := d;
             src_when := Qmax next now |}
          :: plan sessionId (S id) (double (Qmax next now + d)) rest
      | None => plan sessionId id next rest
      end
  end.

(** The fields of the state that scheduling reads and writes. *)
Definition same_playback (st st' : State) : Prop :=
  trace st' = trace st /\ nextStartTime st' = nextStartTime st /\
  created st' = created st /\ activeSessionId st' = activeSessionId st /\
  sources st' = sources st /\ status st' = status st.


(** The refs and the flag that make up a session. *)
Definition session_state (st : State) :=
  (activeSessionId st, mediaStream st, sources st, inputContext st,
   outputContext st, isConnected st).

(** The audio part of the message makes the handler throw. *)
Definition audio_throws (msg : LiveServerMessage) : bool :=
  match audioBase64 msg with
  | Some audio =>
      truthy audio && match chunk_buffer audio with None => true | Some _ => false end
  | None => false
  end.

(** A message without a playable payload: transcript deltas and the
    turn-complete marker only. *)
Definition text_only (msg : LiveServerMessage) : bool :=
  match audioBase64 msg with Some audio => negb (truthy audio) | None => true end
  && negb (interrupted msg).

(** The browser fires [ended] only on a source that was started, and calls
    back from [toBlob] only where the encoding was asked for.  The parts of
    [cleanup] and [connect] may come at any time: that covers every order
    in which the calls that wait can go on. *)
Definition admissible (st : State) (e : Event) : Prop :=
  match e with
  | OnEnded s => In s (started st)
  | FrameEncoded sessionId _ =>
      exists width height type quality,
        In (ToBlob sessionId width height type quality) (trace st)
  | _ => True
  end.

(** The states of the component, with the events that led there (latest
    first). *)
Inductive reaches : list Event -> State -> Prop :=
| reaches_initial : reaches [] initial
| reaches_step evs st e :
    reaches evs st -> admissible st e -> reaches (e :: evs) (step st e).

(** What [cleanup] does to the browser before its first [await], without
    the call of [close()], latest first. *)
Definition teardown_effects (st : State) : list Effect :=
  rev (map SourceStop (sources st))
  ++ match mediaStream st with Some m => [TrackStop m] | None => [] end
  ++ match frameInterval st with Some t => [ClearInterval t] | None => [] end.

(** What a call of [cleanup] during which nothing else runs does to the
    browser, when it can close its contexts. *)
Definition cleanup_effects (st : State) : list Effect :=
  match outputContext st with Some c => [ContextClose c] | None => [] end
  ++ match inputContext st with Some c => [ContextClose c] | None => [] end
  ++ teardown_effects st.

(** The contexts of the refs are two and [close()] was called on neither:
    no call of [cleanup] waits or has thrown with them in place. *)
Definition contexts_open (st : State) : Prop :=
  (forall c, inputContext st = Some c -> closed c st = false) /\
  (forall c, outputContext st = Some c -> closed c st = false) /\
  (forall i o, inputContext st = Some i -> outputContext st = Some o -> i <> o).

(** The effects of the frame sampler: the request of an encoding and the
    frame that is sent. *)
Definition frame_effect (e : Effect) : bool :=
  match e with
  | ToBlob _ _ _ _ _ | SendImage _ _ _ => true
  | _ => false
  end.

(** No frame was asked for or sent. *)
Definition frameless (st : State) : Prop :=
  forall e, In e (trace st) -> frame_effect e = false.

(** The parts of [cleanup] and [connect] up to the wait for
    [getUserMedia]. *)
Definition session_event (e : Event) : bool :=
  match e with
  | Connect _ _ _ | Cleanup | CleanupBegin | CleanupInputClosed
  | CleanupOutputClosed | ConnectToken _ _ | ConnectFailed _
  | ConnectContexts _ _ _ => true
  | _ => false
  end.


(** Every source that was started is still in the set, or was stopped, or
    has ended; the sources are told apart by their identity. *)
Definition accounted (evs : list Event) (st : State) : Prop :=
  (forall s, In s (started st) -> (src_id s < created st)%nat) /\
  (forall s s', In s (started st) -> In s' (started st) ->
                src_id s = src_id s' -> s = s') /\
  (forall s, In s (started st) ->
             In s (sources st) \/ In (SourceStop s) (trace st) \/ In (OnEnded s) evs).


(** Two samples of silence: a buffer of 2 frames at 24000 a second. *)
Definition silence : LiveServerMessage := audio_chunk (lit "AAAAAA==").

(** The events that lead to [live], latest first, and then to a session
    that plays one chunk. *)
Definition live_events : list Event :=
  [OnOpen 1%N vision 1%positive; ConnectResume 1%N (Some 1%nat);
   Connect 1%N 1%nat 2%nat].

Definition playing_events : list Event := OnMessage 1%N 0 silence :: live_events.

Definition playing : State := step live (OnMessage 1%N 0 silence).

(** A second call of [cleanup] lands while the first waits for
    [input.close()], as when the effect is torn down and run again in one
    commit; then the first call goes on to its end. *)
Definition overlapped : State :=
  run [CleanupBegin; CleanupBegin; CleanupInputClosed; CleanupOutputClosed] playing.


(** A second [connect] on top of [live], up to its [onopen]. *)
Definition reconnected : State :=
  run [Connect 2%N 3%nat 4%nat; ConnectResume 2%N (Some 2%nat);
       OnOpen 2%N vision 2%positive] live.

(** The source that [playing] has started. *)
Definition first_source : Source :=
  {| src_id := 0; src_session := 1%N; src_duration := double (2 # 24000);
     src_when := 0 |}.

(** The video element with data to show (HAVE_ENOUGH_DATA), and with its
    metadata only. *)
Definition ready_page : Page := {| video := Some 4%N |}.

Definition loading_page : Page := {| video := Some 1%N |}.


(** [playing] after a stream error. *)
Definition errored : State := step playing (OnError 1%N).


(** Three chunks: the second is handled while the first still plays, the
    third after an idle gap. *)
Definition three_chunks : list (Q * LiveServerMessage) :=
  [(0, silence); (1 # 100000, silence); (1, silence)].


(** One sample of silence, a buffer of one frame, and seven such chunks
    that arrive before the clock has moved. *)
Definition one_sample : LiveServerMessage := audio_chunk (lit "AAA=").

Definition seven_chunks : list (Q * LiveServerMessage) := repeat (0, one_sample) 7.

(** A capture frame sent as [onaudioprocess] sends it and decoded as
    [onmessage] decodes a chunk. *)
Definition through_wire (inputData : list Q) (rate : positive) : option AudioBuffer :=
  match encodeBase64 (pcm16 inputData) with
  | Some data =>
      match decodeBase64 data with
      | Some bytes => decodePCM bytes rate 1
      | None => None
      end
  | None => None
  end.

(** A frame with a sample that is a binary32 number just above 3/4. *)
Definition sample_frame : list Q := [49153 # 65536; 1; -1; 0; 1 # 2].

End VoiceOverlayAux.

(* ------------------------------------------------------------------ *)
(** ** Notions for the invariants of the session *)

Module SessionAux.
Import JS Base64 TypedArray GeminiService VoiceOverlay VoiceOverlayAux.
Local Open Scope Q_scope.

(** The callbacks that compare the token, with the token they hold. *)
Definition guarded (e : Event) : option SessionId :=
  match e with
  | OnOpen sessionId _ _ => Some sessionId
  | OnAudioProcess sessionId _ => Some sessionId
  | FrameTick sessionId _ => Some sessionId
  | OnMessage sessionId _ _ => Some sessionId
  | _ => None
  end.

(** A guarded callback of a session that is not the active one. *)
Definition stale (st : State) (e : Event) : bool :=
  match guarded e with
  | Some sessionId => superseded sessionId st
  | None => false
  end.

(** What [detectedLang] can hold. *)
Definition language_code (s : jsstring) : Prop :=
  s = lit "AUTO" \/
  exists a b, is_upper a = true /\ is_upper b = true /\ s = [a; b].

(** [s'] starts when [s] is over, or later, as the cursor has it: the end
    of [s] is the binary64 sum of its start and its duration.  In exact
    terms [s'] may start before the end of [s], by the rounding error of
    that sum at most. *)
Definition follows (s s' : Source) : Prop :=
  double (src_when s + src_duration s) <= src_when s' /\
  src_when s + src_duration s - src_when s'
  <= (src_when s + src_duration s) * pow2 (-53).

(** The cursor is a binary64 number that is not negative; the sources of the
    set lie one after the other on the output clock, and before the
    cursor; each lasts half a frame of 24 kHz or more. *)
Definition sequenced (st : State) : Prop :=
  0 <= nextStartTime st /\
  double (nextStartTime st) == nextStartTime st /\
  StronglySorted follows (sources st) /\
  Forall (fun s => 0 <= src_when s /\ 1 # 48000 <= src_duration s /\
                   double (src_when s + src_duration s) <= nextStartTime st)
         (sources st).

(** [currentTime] is a Number: the clock that a message handler reads is a
    binary64 value. *)
Definition clock_reading (e : Event) : Prop :=
  match e with
  | OnMessage _ now _ => double now == now
  | _ => True
  end.

(** Without a session token no stream is held and no source is in the
    set. *)
Definition released (st : State) : Prop :=
  activeSessionId st = None -> mediaStream st = None /\ sources st = [].



(** The overlay is closed while [connect] waits for [resume()]; [connect]
    then stores its contexts. *)
Definition abandoned : State :=
  run [CleanupBegin; ConnectToken 1%N true; CleanupBegin;
       ConnectContexts 1%N 1%nat 2%nat] initial.

(** A later session that plays: the clock of its message is a binary64
    value. *)
Definition replaying_events : list Event :=
  OnMessage 1%N (1 # 1024) silence :: playing_events.

(** The handles of the set are started sources that were not stopped, each
    once. *)
Definition handles_live (st : State) : Prop :=
  NoDup (map src_id (sources st)) /\
  forall s, In s (sources st) ->
            In s (started st) /\ ~ In (SourceStop s) (trace st).

(** A frame with samples beyond [-1, 1]. *)
Definition loud_frame : list Q := [3 # 2; -5; 1 # 3].

(** A message with everything in it. *)
Definition closing_message : LiveServerMessage :=
  {| inputTranscription := Some (lit "[EN] hello");
     outputTranscription := Some (lit "hi");
     turnComplete := true; audioBase64 := Some (lit "AAAAAA==");
     interrupted := true |}.

(** [stop()] was only called on sources that exist. *)
Definition stops_created (st : State) : Prop :=
  forall s, In (SourceStop s) (trace st) -> (src_id s < created st)%nat.

(** The [ended] events of a list of sources, in order. *)
Definition all_ended (ended : list Source) (st : State) : State :=
  fold_left (fun acc s => onended s acc) ended st.

End SessionAux.

(* ------------------------------------------------------------------ *)
(** ** Sample data for the codecs *)

Module CodecAux.
Import JS Base64 TypedArray GeminiService.
Local Open Scope Q_scope.

(** Four 16-bit samples, two for each of two channels. *)
Definition stereo_bytes : list byte := [x01; x00; xff; xff; x00; x80; xff; x7f].

Definition stereo_buffer : AudioBuffer :=
  {| numberOfChannels := 2; frames := 2; sampleRate := 24000;
     channelData := [[fround (1 # 32768); fround (-32768 # 32768)];
                     [fround (-1 # 32768); fround (32767 # 32768)]] |}.

End CodecAux.

(* ------------------------------------------------------------------ *)
(** ** types.ts and the chat functions of services/geminiService.ts *)

Module JSText.
Import JS.

(** [String.prototype.trim]: it strips WhiteSpace and LineTerminator, the
    code units of [\s], from both ends. *)
Definition trim (s : jsstring) : jsstring :=
  rev (skip_spaces (rev (skip_spaces s))).

(** [Array.prototype.join] *)
Fixpoint join (sep : jsstring) (l : list jsstring) : jsstring :=
  match l with
  | [] => []
  | [x] => x
  | x :: r => x ++ sep ++ join sep r
  end.

(** [s.slice(0, n)] *)
Definition slice0 (n : nat) (s : jsstring) : jsstring := firstn n s.

(** [s.replace(...)] with the global pattern of [generateSmartTitle]: every
    double quote (34) and asterisk (42) is removed. *)
Definition strip_marks (s : jsstring) : jsstring :=
  filter (fun c => negb ((c =? 34) || (c =? 42))%N) s.

(** A pattern of lower-case ASCII letters under the flag [i]: a code unit
    matches a letter when it is that letter in either case.  The flag folds
    no code unit above 127 onto an ASCII letter. *)
Definition lower (c : code_unit) : code_unit :=
  if ((65 <=? c) && (c <=? 90))%N then (c + 32)%N else c.

Fixpoint starts_with_ci (p s : jsstring) : bool :=
  match p, s with
  | [], _ => true
  | _ :: _, [] => false
  | a :: p', c :: s' => (lower c =? a)%N && starts_with_ci p' s'
  end.

(** [/p/i.test(s)] *)
Fixpoint test_ci (p s : jsstring) : bool :=
  starts_with_ci p s
  || match s with
     | [] => false
     | _ :: r => test_ci p r
     end.

End JSText.

Module Types.
Import JS.

Definition Id := N.                 (* a [crypto.randomUUID()] *)

Inductive Role := USER | MODEL | SYSTEM.

Record Attachment := {
  mimeType : jsstring;
  data : jsstring;                  (* base64 *)
  url : jsstring;
  name : jsstring
}.

(** [title] and [uri] come from the grounding chunks of the response, where
    they may be missing. *)
Record GroundingSource := {
  title : option jsstring;
  uri : option jsstring
}.

(** The fields of [Message] that the code reads or writes; [suggestions],
    [sentiment] and [logicCheck] are never set.  A missing [isError] is
    [false]. *)
Record Message := {
  id : Id;
  role : Role;
  text : jsstring;
  attachments : option (list Attachment);
  generatedImage : option jsstring;
  generatedVideo : option jsstring;
  sources : option (list GroundingSource);
  timestamp : N;
  isError : bool
}.

Inductive GeminiTone := natural | professional | creative | sarcastic | turbo.

(** The fields of [ChatSession] that the code reads or writes; [tone],
    [groundingEnabled] and [thinkingEnabled] are never set. *)
Record ChatSession := {
  session_id : Id;
  session_title : jsstring;
  messages : list Message;
  updatedAt : N
}.

End Types.

Module GeminiChat.
Import JS JSText Types.

(** *** sendMessageStream: the request *)

Inductive Part :=
| InlineData (mimeType data : jsstring)
| Text (text : jsstring).

Record Content := {
  content_role : jsstring;
  parts : list Part
}.

(** [[...(attachments || []).map(...), { text }]] *)
Definition parts_of (atts : option (list Attachment)) (t : jsstring) : list Part :=
  map (fun a => InlineData (mimeType a) (data a))
      (match atts with Some l => l | None => [] end)
  ++ [Text t].

Definition contents (chatHistory : list Message) (currentMessage : jsstring)
    (atts : option (list Attachment)) : list Content :=
  map (fun msg =>
         {| content_role := match role msg with
                            | USER => lit "user"
                            | _ => lit "model"
                            end;
            parts := parts_of (attachments msg) (text msg) |})
      chatHistory
  ++ [{| content_role := lit "user"; parts := parts_of atts currentMessage |}].

(** *** sendMessageStream: the loop over the stream *)

Record Web := {
  web_title : option jsstring;
  web_uri : option jsstring
}.

Record GroundingChunk := { web : option Web }.

Record GroundingMetadata := { groundingChunks : option (list GroundingChunk) }.

Record Candidate := { groundingMetadata : option GroundingMetadata }.

Record Chunk := {
  chunk_text : option jsstring;           (* chunk.text *)
  candidates : option (list Candidate)
}.

(** What the generator yields. *)
Record Yield := {
  yield_text : jsstring;
  yield_sources : option (list GroundingSource)
}.

Definition key_eqb (a b : option jsstring) : bool :=
  match a, b with
  | Some x, Some y => if list_eq_dec N.eq_dec x y then true else false
  | None, None => true
  | _, _ => false
  end.

(** A [Map<string, GroundingSource>] in insertion order: [set] on a key that
    is present replaces the value where it is. *)
Fixpoint map_set (k : option jsstring) (v : GroundingSource)
    (m : list (option jsstring * GroundingSource))
    : list (option jsstring * GroundingSource) :=
  match m with
  | [] => [(k, v)]
  | (k', v') :: r => if key_eqb k k' then (k, v) :: r else (k', v') :: map_set k v r
  end.

(** The grounding chunks of the first candidate that [forEach] visits. *)
Definition visited (chunk : Chunk) : list GroundingChunk :=
  match candidates chunk with
  | Some (c :: _) =>
      match groundingMetadata c with
      | Some gm => match groundingChunks gm with Some l => l | None => [] end
      | None => []
      end
  | _ => []
  end.

(** [if (gc.web) sourcesMap.set(gc.web.uri, { title: gc.web.title, uri: gc.web.uri })] *)
Definition record_source (m : list (option jsstring * GroundingSource))
    (gc : GroundingChunk) : list (option jsstring * GroundingSource) :=
  match web gc with
  | Some w => map_set (web_uri w) {| title := web_title w; uri := web_uri w |} m
  | None => m
  end.

(** [chunk.text], or the empty string when it is missing *)
Definition text_of (chunk : Chunk) : jsstring :=
  match chunk_text chunk with Some t => t | None => [] end.

(** The body of [for await (const chunk of stream)], from the accumulated
    text and map on; one yield for each chunk.  When the stream throws, the
    generator rethrows after the yields made so far. *)
Fixpoint stream_loop (fullText : jsstring)
    (sourcesMap : list (option jsstring * GroundingSource))
    (stream : list Chunk) : list Yield :=
  match stream with
  | [] => []
  | chunk :: rest =>
      let fullText := fullText ++ text_of chunk in
      let sourcesMap := fold_left record_source (visited chunk) sourcesMap in
      {| yield_text := fullText;
         yield_sources := match sourcesMap with
                          | [] => None
                          | _ => Some (map snd sourcesMap)
                          end |}
      :: stream_loop fullText sourcesMap rest
  end.

Definition sendMessageStream (stream : list Chunk) : list Yield :=
  stream_loop [] [] stream.

(** *** refinePrompt and generateSmartTitle

    Both make their client first, outside the [try] block; what follows is
    the function from there on.  [response] is [None] when
    [generateContent] rejects, and holds [response.text] otherwise. *)

Definition refinePrompt (prompt : jsstring) (response : option (option jsstring))
    : jsstring :=
  match response with
  | Some (Some t) => if truthy (trim t) then trim t else prompt
  | _ => prompt
  end.

(** The text that [generateSmartTitle] sends. *)
Definition title_request (history : list Message) : jsstring :=
  lit "Short, professional, 2-4 word title for this conversation log: "
  ++ slice0 500 (join (lit " ") (map text history)).

Definition generateSmartTitle (response : option (option jsstring)) : jsstring :=
  match response with
  | None => lit "Neural Log"
  | Some None => lit "Interface Session"
  | Some (Some t) =>
      if truthy (trim (strip_marks t)) then trim (strip_marks t)
      else lit "Interface Session"
  end.

End GeminiChat.

Module GeminiChatAux.
Import JS JSText Types GeminiChat.

(** The web entries that the loop records for a chunk, in order. *)
Definition webs_of (chunk : Chunk) : list Web :=
  flat_map (fun gc => match web gc with Some w => [w] | None => [] end)
           (visited chunk).

Definition seen (stream : list Chunk) : list Web := flat_map webs_of stream.

Definition source_of (w : Web) : GroundingSource :=
  {| title := web_title w; uri := web_uri w |}.

(** The map holds one entry for each address that was seen, made from a web
    entry with that address. *)
Definition records (m : list (option jsstring * GroundingSource)) (webs : list Web)
    : Prop :=
  NoDup (map fst m) /\
  (forall k v, In (k, v) m -> uri v = k /\ exists w, In w webs /\ v = source_of w) /\
  (forall w, In w webs -> In (web_uri w) (map fst m)).

(** A stream of three chunks in which an address comes twice. *)
Definition sample_stream : list Chunk :=
  let w1 := {| web_title := Some (lit "First"); web_uri := Some (lit "https://a.example") |} in
  let w2 := {| web_title := Some (lit "Second"); web_uri := Some (lit "https://b.example") |} in
  let w3 := {| web_title := Some (lit "Again"); web_uri := Some (lit "https://a.example") |} in
  let grounded ws :=
    Some [{| groundingMetadata :=
               Some {| groundingChunks :=
                         Some (map (fun w => {| web := Some w |}) ws) |} |}] in
  [{| chunk_text := Some (lit "Hel"); candidates := grounded [w1] |};
   {| chunk_text := None; candidates := None |};
   {| chunk_text := Some (lit "lo"); candidates := grounded [w2; w3] |}].

Definition sample_yield : Yield :=
  nth 2 (sendMessageStream sample_stream)
      {| yield_text := []; yield_sources := None |}.

End GeminiChatAux.

(* ------------------------------------------------------------------ *)
(** ** App.tsx, and the session list as components/Sidebar.tsx sorts it

    The state of [App] that [handleSend] and the callbacks of the sidebar
    read or write, with two records of what has happened: the runs of
    [handleSend] that have started, and the calls of the Gemini service.  A
    transition is what one task of the event loop does: an event handler up
    to its first [await], or the code between two [await]s. *)

Module App.
Import JS JSText Types GeminiChat.

Inductive CloudStatus := idle | syncing | verified.

Inductive Engine := Video | Image | Chat.

(** The constants of one run of [handleSend]: [activeSessionId] and
    [aiMsgId], the branch it took, and what its closure holds of the render
    that made it. *)
Record Call := {
  activeSessionId : Id;
  aiMsgId : Id;
  engine : Engine;
  wants_title : bool;             (* currentSession?.messages.length === 1 *)
  title_history : list Message    (* sessions.find(...)?.messages || [] *)
}.

Inductive Request :=
| GenerateVideo (prompt : jsstring)
| GenerateImage (prompt : jsstring)
| SendMessageStream (chatHistory : list Message) (currentMessage : jsstring)
    (tone : GeminiTone) (grounding thinking : bool) (atts : list Attachment)
| GenerateSmartTitle (history : list Message).

Record State := {
  sessions : list ChatSession;
  currentSessionId : option Id;
  isSidebarOpen : bool;
  isGenerating : bool;
  tone : GeminiTone;
  isGrounding : bool;
  isThinking : bool;
  cloudStatus : CloudStatus;
  started : list Call;            (* latest first *)
  requests : list Request         (* latest first *)
}.

Definition initial : State :=
  {| sessions := []; currentSessionId := None; isSidebarOpen := false;
     isGenerating := false; tone := turbo; isGrounding := true;
     isThinking := false; cloudStatus := verified; started := []; requests := [] |}.

Definition setSessions (f : list ChatSession -> list ChatSession) (st : State) : State :=
  {| sessions := f (sessions st); currentSessionId := currentSessionId st;
     isSidebarOpen := isSidebarOpen st; isGenerating := isGenerating st;
     tone := tone st; isGrounding := isGrounding st; isThinking := isThinking st;
     cloudStatus := cloudStatus st; started := started st; requests := requests st |}.

Definition setCurrentSessionId (i : option Id) (st : State) : State :=
  {| sessions := sessions st; currentSessionId := i;
     isSidebarOpen := isSidebarOpen st; isGenerating := isGenerating st;
     tone := tone st; isGrounding := isGrounding st; isThinking := isThinking st;
     cloudStatus := cloudStatus st; started := started st; requests := requests st |}.

Definition setIsSidebarOpen (b : bool) (st : State) : State :=
  {| sessions := sessions st; currentSessionId := currentSessionId st;
     isSidebarOpen := b; isGenerating := isGenerating st;
     tone := tone st; isGrounding := isGrounding st; isThinking := isThinking st;
     cloudStatus := cloudStatus st; started := started st; requests := requests st |}.

Definition setIsGenerating (b : bool) (st : State) : State :=
  {| sessions := sessions st; currentSessionId := currentSessionId st;
     isSidebarOpen := isSidebarOpen st; isGenerating := b;
     tone := tone st; isGrounding := isGrounding st; isThinking := isThinking st;
     cloudStatus := cloudStatus st; started := started st; requests := requests st |}.

Definition setTone (t : GeminiTone) (st : State) : State :=
  {| sessions := sessions st; currentSessionId := currentSessionId st;
     isSidebarOpen := isSidebarOpen st; isGenerating := isGenerating st;
     tone := t; isGrounding := isGrounding st; isThinking := isThinking st;
     cloudStatus := cloudStatus st; started := started st; requests := requests st |}.

Definition setIsGrounding (b : bool) (st : State) : State :=
  {| sessions := sessions st; currentSessionId := currentSessionId st;
     isSidebarOpen := isSidebarOpen st; isGenerating := isGenerating st;
     tone := tone st; isGrounding := b; isThinking := isThinking st;
     cloudStatus := cloudStatus st; started := started st; requests := requests st |}.

Definition setIsThinking (b : bool) (st : State) : State :=
  {| sessions := sessions st; currentSessionId := currentSessionId st;
     isSidebarOpen := isSidebarOpen st; isGenerating := isGenerating st;
     tone := tone st; isGrounding := isGrounding st; isThinking := b;
     cloudStatus := cloudStatus st; started := started st; requests := requests st |}.

Definition setCloudStatus (c : CloudStatus) (st : State) : State :=
  {| sessions := sessions st; currentSessionId := currentSessionId st;
     isSidebarOpen := isSidebarOpen st; isGenerating := isGenerating st;
     tone := tone st; isGrounding := isGrounding st; isThinking := isThinking st;
     cloudStatus := c; started := started st; requests := requests st |}.

Definition start (c : Call) (st : State) : State :=
  {| sessions := sessions st; currentSessionId := currentSessionId st;
     isSidebarOpen := isSidebarOpen st; isGenerating := isGenerating st;
     tone := tone st; isGrounding := isGrounding st; isThinking := isThinking st;
     cloudStatus := cloudStatus st; started := c :: started st;
     requests := requests st |}.

Definition request (r : Request) (st : State) : State :=
  {| sessions := sessions st; currentSessionId := currentSessionId st;
     isSidebarOpen := isSidebarOpen st; isGenerating := isGenerating st;
     tone := tone st; isGrounding := isGrounding st; isThinking := isThinking st;
     cloudStatus := cloudStatus st; started := started st;
     requests := r :: requests st |}.

(** *** The mount effect

    [saved] is the array that [JSON.parse] makes of the stored item; [None]
    when there is no item or it does not parse. *)
Definition mount (saved : option (list ChatSession)) : State :=
  match saved with
  | Some parsed =>
      let st := setSessions (fun _ => parsed) initial in
      match parsed with
      | first :: _ => setCurrentSessionId (Some (session_id first)) st
      | [] => st
      end
  | None => initial
  end.

(** [sessions.find(s => s.id === i)]; no session has the id [null]. *)
Definition find_session (i : option Id) (l : list ChatSession) : option ChatSession :=
  match i with
  | Some i => find (fun s => (session_id s =? i)%N) l
  | None => None
  end.

Definition currentSession (st : State) : option ChatSession :=
  find_session (currentSessionId st) (sessions st).

(** *** The updaters of [setSessions] *)

(** [prev.map(s => s.id === i ? f(s) : s)] *)
Definition update_session (i : Id) (f : ChatSession -> ChatSession)
    (prev : list ChatSession) : list ChatSession :=
  map (fun s => if (session_id s =? i)%N then f s else s) prev.

Definition with_messages (l : list Message) (s : ChatSession) : ChatSession :=
  {| session_id := session_id s; session_title := session_title s;
     messages := l; updatedAt := updatedAt s |}.

(** [{ ...s, messages: s.messages.map(m => m.id === j ? g(m) : m) }] in the
    session [i] *)
Definition update_message (i j : Id) (g : Message -> Message)
    (prev : list ChatSession) : list ChatSession :=
  update_session i
    (fun s => with_messages
                (map (fun m => if (id m =? j)%N then g m else m) (messages s)) s)
    prev.

(** [{ ...m, text: t }] *)
Definition with_text (t : jsstring) (m : Message) : Message :=
  {| id := id m; role := role m; text := t; attachments := attachments m;
     generatedImage := generatedImage m; generatedVideo := generatedVideo m;
     sources := sources m; timestamp := timestamp m; isError := isError m |}.

(** *** handleSend up to its first await

    The identifiers and the times that one run draws. *)
Record Drawn := {
  session_uuid : Id;              (* drawn when no session is current *)
  user_uuid : Id;
  ai_uuid : Id;
  session_now : N;
  user_now : N;
  update_now : N;
  ai_now : N
}.

Definition isVideo (text : jsstring) : bool := test_ci (lit "video") text.

Definition isImage (text : jsstring) (atts : list Attachment) : bool :=
  (test_ci (lit "draw") text || test_ci (lit "image") text
   || test_ci (lit "picture") text)
  && (length atts =? 0)%nat.

Definition call_of (text : jsstring) (atts : list Attachment) (r : Drawn)
    (st : State) : Call :=
  let activeSessionId :=
    match currentSessionId st with Some i => i | None => session_uuid r end in
  {| activeSessionId := activeSessionId;
     aiMsgId := ai_uuid r;
     engine := if isVideo text then Video
               else if isImage text atts then Image else Chat;
     wants_title := match currentSession st with
                    | Some s => (length (messages s) =? 1)%nat
                    | None => false
                    end;
     title_history := match find_session (Some activeSessionId) (sessions st) with
                      | Some s => messages s
                      | None => []
                      end |}.

Definition handleSend (text : jsstring) (atts : list Attachment) (r : Drawn)
    (st0 : State) : State :=
  let c := call_of text atts r st0 in
  let st := setCloudStatus syncing st0 in
  let st :=
    match currentSessionId st0 with
    | Some _ => st
    | None =>
        let newSession :=
          {| session_id := session_uuid r; session_title := lit "Temporal Node";
             messages := []; updatedAt := session_now r |} in
        setCurrentSessionId (Some (session_id newSession))
          (setSessions (cons newSession) st)
    end in
  let userMsg :=
    {| id := user_uuid r; role := USER; text := text; attachments := Some atts;
       generatedImage := None; generatedVideo := None; sources := None;
       timestamp := user_now r; isError := false |} in
  let st :=
    setSessions
      (update_session (activeSessionId c)
         (fun s => {| session_id := session_id s; session_title := session_title s;
                      messages := messages s ++ [userMsg];
                      updatedAt := update_now r |}))
      st in
  let st := setIsGenerating true st in
  let aiMsg :=
    {| id := aiMsgId c; role := MODEL; text := lit "Scanning Neural Pathways...";
       attachments := None; generatedImage := None; generatedVideo := None;
       sources := None; timestamp := ai_now r; isError := false |} in
  let st :=
    setSessions
      (update_session (activeSessionId c)
         (fun s => with_messages (messages s ++ [aiMsg]) s))
      st in
  let st :=
    match engine c with
    | Video =>
        request (GenerateVideo text)
          (setSessions
             (update_message (activeSessionId c) (aiMsgId c)
                (with_text (lit "Initiating VEO-3.1 Synthesis Engine...")))
             st)
    | Image =>
        request (GenerateImage text)
          (setSessions
             (update_message (activeSessionId c) (aiMsgId c)
                (with_text (lit "Synthesizing Neural Visual...")))
             st)
    | Chat =>
        request
          (SendMessageStream
             (match currentSession st0 with Some s => messages s | None => [] end)
             text (tone st0) (isGrounding st0) (isThinking st0) atts)
          st
    end in
  start c st.

(** *** handleSend after an await *)

(** The end of the [try] block and the [finally] block. *)
Definition finish (c : Call) (st : State) : State :=
  let st :=
    if wants_title c then request (GenerateSmartTitle (title_history c)) st
    else st in
  setIsGenerating false (setCloudStatus verified st).

Definition video_done (c : Call) (videoUrl : jsstring) (st : State) : State :=
  finish c
    (setSessions
       (update_message (activeSessionId c) (aiMsgId c)
          (fun m =>
             {| id := id m; role := role m; text := lit "Synthesis Complete.";
                attachments := attachments m; generatedImage := generatedImage m;
                generatedVideo := Some videoUrl; sources := sources m;
                timestamp := timestamp m; isError := isError m |}))
       st).

Definition image_done (c : Call) (imageUrl : jsstring) (st : State) : State :=
  finish c
    (setSessions
       (update_message (activeSessionId c) (aiMsgId c)
          (fun m =>
             {| id := id m; role := role m; text := lit "Visual Link Established.";
                attachments := attachments m; generatedImage := Some imageUrl;
                generatedVideo := generatedVideo m; sources := sources m;
                timestamp := timestamp m; isError := isError m |}))
       st).

(** The body of [for await (const chunk of stream)] *)
Definition stream_yield (c : Call) (chunk : Yield) (st : State) : State :=
  setSessions
    (update_message (activeSessionId c) (aiMsgId c)
       (fun m =>
          {| id := id m; role := role m; text := yield_text chunk;
             attachments := attachments m; generatedImage := generatedImage m;
             generatedVideo := generatedVideo m; sources := yield_sources chunk;
             timestamp := timestamp m; isError := isError m |}))
    st.

Definition stream_done (c : Call) (st : State) : State := finish c st.

(** The [catch] block and the [finally] block; [message] is [err.message]
    as the template prints it. *)
Definition failed (c : Call) (message : jsstring) (st : State) : State :=
  setIsGenerating false
    (setCloudStatus idle
       (setSessions
          (update_message (activeSessionId c) (aiMsgId c)
             (fun m =>
                {| id := id m; role := role m;
                   text := lit "Neural Exception: " ++ message;
                   attachments := attachments m;
                   generatedImage := generatedImage m;
                   generatedVideo := generatedVideo m; sources := sources m;
                   timestamp := timestamp m; isError := true |}))
          st)).

(** The callback of [generateSmartTitle(...).then] *)
Definition title_done (c : Call) (title : jsstring) (st : State) : State :=
  setSessions
    (update_session (activeSessionId c)
       (fun s => {| session_id := session_id s; session_title := title;
                    messages := messages s; updatedAt := updatedAt s |}))
    st.

(** *** The callbacks of the sidebar *)

Definition onNewChat (i : Id) (now : N) (st : State) : State :=
  setIsSidebarOpen false
    (setCurrentSessionId (Some i)
       (setSessions
          (cons {| session_id := i; session_title := lit "Temporal Node";
                   messages := []; updatedAt := now |})
          st)).

Definition onSelectChat (i : Id) (st : State) : State :=
  setIsSidebarOpen false (setCurrentSessionId (Some i) st).

Definition onDeleteChat (i : Id) (st : State) : State :=
  let st' := setSessions (filter (fun s => negb (session_id s =? i)%N)) st in
  match currentSessionId st with
  | Some j => if (j =? i)%N then setCurrentSessionId None st' else st'
  | None => st'
  end.

(** *** The sidebar sorts the array of the state where it is

    [sessions.sort((a, b) => b.updatedAt - a.updatedAt)]: the latest first,
    and sessions of one time in the order they had. *)
Fixpoint insert_session (s : ChatSession) (l : list ChatSession) : list ChatSession :=
  match l with
  | [] => [s]
  | x :: r =>
      if (updatedAt s <? updatedAt x)%N then x :: insert_session s r else s :: l
  end.

Definition sort_sessions (l : list ChatSession) : list ChatSession :=
  fold_right insert_session [] l.

Definition render_sidebar (st : State) : State := setSessions sort_sessions st.

(** *** Events *)

Inductive Event :=
| Send (text : jsstring) (atts : list Attachment) (r : Drawn)
| VideoDone (c : Call) (videoUrl : jsstring)
| ImageDone (c : Call) (imageUrl : jsstring)
| StreamYield (c : Call) (chunk : Yield)
| StreamDone (c : Call)
| Failed (c : Call) (message : jsstring)
| TitleDone (c : Call) (title : jsstring)
| NewChat (i : Id) (now : N)
| SelectChat (i : Id)
| DeleteChat (i : Id)
| RenderSidebar
| ToggleSidebar
| SetTone (t : GeminiTone)
| ToggleGrounding
| ToggleThinking
| Stop.

Definition step (st : State) (e : Event) : State :=
  match e with
  | Send text atts r => handleSend text atts r st
  | VideoDone c videoUrl => video_done c videoUrl st
  | ImageDone c imageUrl => image_done c imageUrl st
  | StreamYield c chunk => stream_yield c chunk st
  | StreamDone c => stream_done c st
  | Failed c message => failed c message st
  | TitleDone c title => title_done c title st
  | NewChat i now => onNewChat i now st
  | SelectChat i => onSelectChat i st
  | DeleteChat i => onDeleteChat i st
  | RenderSidebar => render_sidebar st
  | ToggleSidebar => setIsSidebarOpen (negb (isSidebarOpen st)) st
  | SetTone t => setTone t st
  | ToggleGrounding => setIsGrounding (negb (isGrounding st)) st
  | ToggleThinking => setIsThinking (negb (isThinking st)) st
  | Stop => setIsGenerating false st
  end.

Definition run (st : State) (evs : list Event) : State := fold_left step evs st.

End App.

Module AppAux.
Import JS JSText Types GeminiChat App.

(** Every identifier of the state. *)
Definition ids (l : list ChatSession) : list Id :=
  map session_id l ++ flat_map (fun s => map id (messages s)) l.

(** [crypto.randomUUID] draws identifiers that are new and differ. *)
Definition fresh (r : Drawn) (st : State) : Prop :=
  ~ In (session_uuid r) (ids (sessions st)) /\
  ~ In (user_uuid r) (ids (sessions st)) /\
  ~ In (ai_uuid r) (ids (sessions st)) /\
  session_uuid r <> user_uuid r /\ session_uuid r <> ai_uuid r /\
  user_uuid r <> ai_uuid r.

(** The events that can come in a state: identifiers that are drawn are
    new; the sidebar offers the sessions of the list; a run of [handleSend]
    goes on only if it has started, in the branch that it took, and its
    title arrives only if it asked for one. *)
Definition admissible (st : State) (e : Event) : Prop :=
  match e with
  | Send _ _ r => fresh r st
  | VideoDone c _ => In c (started st) /\ engine c = Video
  | ImageDone c _ => In c (started st) /\ engine c = Image
  | StreamYield c _ | StreamDone c => In c (started st) /\ engine c = Chat
  | Failed c _ => In c (started st)
  | TitleDone c _ => In c (started st) /\ wants_title c = true
  | NewChat i _ => ~ In i (ids (sessions st))
  | SelectChat i | DeleteChat i => In i (map session_id (sessions st))
  | _ => True
  end.

(** The states of the application after the mount effect has read
    [saved]. *)
Inductive reaches (saved : option (list ChatSession)) : State -> Prop :=
| reaches_mount : reaches saved (mount saved)
| reaches_step st e :
    reaches saved st -> admissible st e -> reaches saved (step st e).

Definition stored (saved : option (list ChatSession)) : list ChatSession :=
  match saved with Some parsed => parsed | None => [] end.

(** No two sessions share an identifier, and no two messages of a
    session. *)
Definition unique (l : list ChatSession) : Prop :=
  NoDup (map session_id l) /\
  Forall (fun s => NoDup (map id (messages s))) l.

(** The event is what a run of [handleSend] does to its reply after an
    await. *)
Definition reply_of (e : Event) : option Call :=
  match e with
  | VideoDone c _ | ImageDone c _ | StreamYield c _ | StreamDone c | Failed c _ =>
      Some c
  | _ => None
  end.

(** The message at place [j] of the session at place [i]. *)
Definition message_at (st : State) (i j : nat) : option Message :=
  match nth_error (sessions st) i with
  | Some s => nth_error (messages s) j
  | None => None
  end.

(** The function leaves the identifier, the role, the attachments and the
    time of a message as they are. *)
Definition keeps (g : Message -> Message) : Prop :=
  forall m, id (g m) = id m /\ role (g m) = role m /\
            attachments (g m) = attachments m /\ timestamp (g m) = timestamp m.

(** The current session, if there is one, is in the list. *)
Definition listed (st : State) : Prop :=
  forall i, currentSessionId st = Some i -> In i (map session_id (sessions st)).

(** Every session holds an even number of messages. *)
Definition paired (l : list ChatSession) : Prop :=
  Forall (fun s => Nat.even (length (messages s)) = true) l.

(** The title of the session is the one it was made with, or the one it
    had in the store. *)
Definition original (saved : option (list ChatSession)) (s : ChatSession) : Prop :=
  session_title s = lit "Temporal Node" \/
  exists s0, In s0 (stored saved) /\ session_id s0 = session_id s /\
             session_title s0 = session_title s.

(** A run of events, each admissible where it comes. *)
Fixpoint admissible_run (st : State) (evs : list Event) : Prop :=
  match evs with
  | [] => True
  | e :: rest => admissible st e /\ admissible_run (step st e) rest
  end.

(** What [handleSend] adds to the active session, when the identifiers it
    draws are new. *)
Definition newSession (r : Drawn) : ChatSession :=
  {| session_id := session_uuid r; session_title := lit "Temporal Node";
     messages := []; updatedAt := session_now r |}.

Definition userMsg (text : jsstring) (atts : list Attachment) (r : Drawn) : Message :=
  {| id := user_uuid r; role := USER; text := text; attachments := Some atts;
     generatedImage := None; generatedVideo := None; sources := None;
     timestamp := user_now r; isError := false |}.

Definition announced (e : Engine) : jsstring :=
  match e with
  | Video => lit "Initiating VEO-3.1 Synthesis Engine..."
  | Image => lit "Synthesizing Neural Visual..."
  | Chat => lit "Scanning Neural Pathways..."
  end.

Definition aiMsg (e : Engine) (r : Drawn) : Message :=
  {| id := ai_uuid r; role := MODEL; text := announced e; attachments := None;
     generatedImage := None; generatedVideo := None; sources := None;
     timestamp := ai_now r; isError := false |}.

Definition sent (text : jsstring) (atts : list Attachment) (r : Drawn) (st : State)
    : list ChatSession :=
  let c := call_of text atts r st in
  update_session (activeSessionId c)
    (fun s => {| session_id := session_id s; session_title := session_title s;
                 messages := messages s ++ [userMsg text atts r; aiMsg (engine c) r];
                 updatedAt := update_now r |})
    (match currentSessionId st with
     | Some _ => sessions st
     | None => newSession r :: sessions st
     end).

Definition before (st : State) : list Message :=
  match currentSession st with Some s => messages s | None => [] end.

Definition asked (text : jsstring) (atts : list Attachment) (r : Drawn) (st : State)
    : Request :=
  match engine (call_of text atts r st) with
  | Video => GenerateVideo text
  | Image => GenerateImage text
  | Chat =>
      SendMessageStream (before st) text (tone st) (isGrounding st) (isThinking st)
        atts
  end.

(** Sample data: two runs of [handleSend] from an empty store. *)
Definition first_draw : Drawn :=
  {| session_uuid := 1%N; user_uuid := 2%N; ai_uuid := 3%N;
     session_now := 1000%N; user_now := 1001%N; update_now := 1002%N;
     ai_now := 1003%N |}.

Definition second_draw : Drawn :=
  {| session_uuid := 4%N; user_uuid := 5%N; ai_uuid := 6%N;
     session_now := 2000%N; user_now := 2001%N; update_now := 2002%N;
     ai_now := 2003%N |}.

Definition first_call : Call := call_of (lit "hello") [] first_draw (mount None).

Definition hello : Yield := {| yield_text := lit "Hi"; yield_sources := None |}.

Definition first_reply : list Event :=
  [Send (lit "hello") [] first_draw; StreamYield first_call hello;
   StreamDone first_call].

End AppAux.

(* ================================================================== *)
(** * Properties *)

Unset Implicit Arguments.

Ltac Zify.zify_post_hook ::= Z.to_euclidean_division_equations.

(** Lists taken three elements at a time. *)
Lemma list_ind3 (A : Type) (P : list A -> Prop) :
  P [] -> (forall a, P [a]) -> (forall a b, P [a; b]) ->
  (forall a b c l, P l -> P (a :: b :: c :: l)) ->
  forall l, P l.
Proof.
  intros H0 H1 H2 H3 l.
  assert (H : P l /\ (forall a, P (a :: l)) /\ (forall a b, P (a :: b :: l))).
  { induction l as [|x l [IH0 [IH1 IH2]]]; [now auto|].
    split; [apply IH1|]. split; [intro; apply IH2|]. intros; now apply H3. }
  apply H.
Qed.

(** Lists taken two elements at a time. *)
Lemma list_ind2 (A : Type) (P : list A -> Prop) :
  P [] -> (forall a, P [a]) -> (forall a b l, P l -> P (a :: b :: l)) ->
  forall l, P l.
Proof.
  intros H0 H1 H2 l.
  assert (H : P l /\ forall a, P (a :: l)).
  { induction l as [|x l [IH0 IH1]]; [now auto|].
    split; [apply IH1|]. intros; now apply H2. }
  apply H.
Qed.

Module Base64Facts.
Import JS Base64 TypedArray GeminiService Base64Aux.
Local Open Scope N_scope.

Lemma below_64 (P : N -> bool) :
  forallb P (map N.of_nat (seq 0 64)) = true -> forall i, i < 64 -> P i = true.
Proof.
  intros H i Hi. rewrite forallb_forall in H. apply H.
  rewrite <- (N2Nat.id i). apply in_map, in_seq. lia.
Qed.

Lemma char_sextet_char i : i < 64 -> char_sextet (sextet_char i) = Some i.
Proof.
  intro Hi.
  pose proof (below_64
    (fun i => match char_sextet (sextet_char i) with
              | Some j => j =? i | None => false end) eq_refl i Hi) as H.
  cbv beta in H. destruct (char_sextet (sextet_char i)); [|discriminate].
  apply N.eqb_eq in H. now subst.
Qed.

Lemma sextet_char_not_pad i : i < 64 -> (sextet_char i =? pad) = false.
Proof.
  intro Hi.
  apply negb_true_iff.
  exact (below_64 (fun i => negb (sextet_char i =? pad)) eq_refl i Hi).
Qed.

Lemma sextet_char_not_space i :
  i < 64 -> is_ascii_whitespace (sextet_char i) = false.
Proof.
  intro Hi.
  apply negb_true_iff.
  exact (below_64 (fun i => negb (is_ascii_whitespace (sextet_char i))) eq_refl i Hi).
Qed.

Lemma mod3_step n : (S (S (S n)) mod 3 = n mod 3)%nat.
Proof.
  change (S (S (S n))) with (3 + n)%nat. rewrite Nat.add_comm.
  exact (Nat.Div0.mod_add n 1 3).
Qed.

Lemma mod4_step n : N.of_nat (S (S (S (S n)))) mod 4 = N.of_nat n mod 4.
Proof. lia. Qed.

Lemma encode_octets_six l :
  encode_octets l = map sextet_char (six l) ++ padding l.
Proof.
  induction l as [|a|a b|a b c l IH] using list_ind3; try reflexivity.
  cbn [encode_octets six map app]. rewrite IH. unfold padding.
  cbn [length]. now rewrite mod3_step.
Qed.

Lemma six_bound l :
  Forall (fun a => a < 256) l -> Forall (fun x => x < 64) (six l).
Proof.
  induction l as [|a|a b|a b c l IH] using list_ind3; intro H; cbn [six].
  - constructor.
  - inversion_clear H. repeat constructor; lia.
  - inversion_clear H as [|? ? Ha H']. inversion_clear H'.
    repeat constructor; lia.
  - inversion_clear H as [|? ? Ha H']. inversion_clear H' as [|? ? Hb H''].
    inversion_clear H'' as [|? ? Hc Hl].
    repeat (constructor; [lia|]). now apply IH.
Qed.

Lemma decode_six l :
  Forall (fun a => a < 256) l -> decode_sextets (six l) = l.
Proof.
  induction l as [|a|a b|a b c l IH] using list_ind3; intro H.
  - reflexivity.
  - inversion_clear H. cbn. f_equal. lia.
  - inversion_clear H as [|? ? Ha H']. inversion_clear H'.
    cbn. f_equal; [lia|]. f_equal. lia.
  - inversion_clear H as [|? ? Ha H']. inversion_clear H' as [|? ? Hb H''].
    inversion_clear H'' as [|? ? Hc Hl].
    cbn [six decode_sextets]. rewrite (IH Hl).
    f_equal; [lia|]. f_equal; [lia|]. f_equal. lia.
Qed.

Lemma sextets_chars xs :
  Forall (fun x => x < 64) xs -> sextets (map sextet_char xs) = Some xs.
Proof.
  induction 1 as [|x xs Hx _ IH]; [reflexivity|].
  cbn [map sextets]. now rewrite (char_sextet_char x Hx), IH.
Qed.

Lemma length_six l : N.of_nat (length (six l)) mod 4 <> 1.
Proof.
  induction l as [|a|a b|a b c l IH] using list_ind3;
    try (cbn; discriminate).
  cbn [six length]. now rewrite mod4_step.
Qed.

Lemma length_encode_octets l : N.of_nat (length (encode_octets l)) mod 4 = 0.
Proof.
  induction l as [|a|a b|a b c l IH] using list_ind3; try reflexivity.
  cbn [encode_octets length]. now rewrite mod4_step.
Qed.

Lemma padding_cases l : padding l = [] \/ padding l = [pad] \/ padding l = [pad; pad].
Proof.
  unfold padding. destruct (length l mod 3)%nat as [|[|[|n]]]; auto.
Qed.

Lemma filter_encode_octets l :
  Forall (fun a => a < 256) l ->
  filter (fun c => negb (is_ascii_whitespace c)) (encode_octets l) = encode_octets l.
Proof.
  intro H. rewrite encode_octets_six. rewrite filter_app. f_equal.
  - apply six_bound in H. induction H as [|x xs Hx _ IH]; [reflexivity|].
    cbn [map filter]. now rewrite (sextet_char_not_space x Hx), IH.
  - destruct (padding_cases l) as [-> | [-> | ->]]; reflexivity.
Qed.

(** The last character before the padding is not [=]. *)
Lemma last_char_not_pad xs :
  Forall (fun x => x < 64) xs ->
  match rev (map sextet_char xs) with
  | c :: _ => (c =? pad) = false
  | [] => True
  end.
Proof.
  intro H. rewrite <- map_rev. apply Forall_rev in H.
  destruct H as [|x r Hx _]; [exact I|]. cbn [map].
  now apply sextet_char_not_pad.
Qed.

Lemma strip_padding_encode l :
  Forall (fun a => a < 256) l ->
  strip_padding (encode_octets l) = map sextet_char (six l).
Proof.
  intro H. unfold strip_padding. rewrite length_encode_octets. cbn [N.eqb].
  rewrite encode_octets_six.
  pose proof (last_char_not_pad (six l) (six_bound l H)) as Hlast.
  set (body := map sextet_char (six l)) in *.
  rewrite rev_app_distr.
  destruct (padding_cases l) as [-> | [-> | ->]]; cbn [rev app].
  - rewrite app_nil_r. destruct (rev body) as [|p1 [|p2 r]] eqn:E.
    + reflexivity.
    + now rewrite Hlast.
    + now rewrite Hlast.
  - destruct (rev body) as [|p2 r] eqn:E.
    + cbn. apply (f_equal (@rev _)) in E. rewrite rev_involutive in E.
      now rewrite E.
    + cbn [N.eqb pad Pos.eqb]. rewrite Hlast.
      change (rev r ++ [p2]) with (rev (p2 :: r)). rewrite <- E.
      now rewrite rev_involutive.
  - cbn. now rewrite rev_involutive.
Qed.

Lemma atob_encode_octets l :
  Forall (fun a => a < 256) l -> atob (encode_octets l) = Some l.
Proof.
  intro H. unfold atob. rewrite (filter_encode_octets l H), (strip_padding_encode l H).
  rewrite length_map.
  destruct (N.eqb_spec (N.of_nat (length (six l)) mod 4) 1) as [E|_].
  - now apply length_six in E.
  - rewrite (sextets_chars (six l) (six_bound l H)). cbn [option_map].
    now rewrite (decode_six l H).
Qed.

Lemma btoa_octets l :
  Forall (fun a => a < 256) l -> btoa l = Some (encode_octets l).
Proof.
  intro H. unfold btoa.
  replace (forallb (fun c => c <=? 255) l) with true; [reflexivity|].
  symmetry. apply forallb_forall. rewrite Forall_forall in H.
  intros x Hx. apply N.leb_le. specialize (H x Hx). lia.
Qed.

Lemma toUint8_to_N b : toUint8 (Byte.to_N b) = b.
Proof.
  unfold toUint8. pose proof (Byte.to_N_bounded b) as Hb.
  rewrite N.mod_small by lia. now rewrite Byte.of_to_N.
Qed.

Lemma bytes_are_octets (bytes : list byte) :
  Forall (fun a => a < 256) (map Byte.to_N bytes).
Proof.
  apply Forall_forall. intros x Hx. apply in_map_iff in Hx.
  destruct Hx as [b [<- _]]. pose proof (Byte.to_N_bounded b). lia.
Qed.

Lemma encodeBase64_total bytes :
  encodeBase64 bytes = Some (encode_octets (map Byte.to_N bytes)).
Proof. apply btoa_octets, bytes_are_octets. Qed.

Lemma decodeBase64_encode_octets bytes :
  decodeBase64 (encode_octets (map Byte.to_N bytes)) = Some bytes.
Proof.
  unfold decodeBase64. rewrite (atob_encode_octets _ (bytes_are_octets bytes)).
  cbn [option_map]. f_equal. rewrite map_map.
  rewrite <- (map_id bytes) at 2. apply map_ext. intros; apply toUint8_to_N.
Qed.

(** C9: [decodeBase64(encodeBase64(b))] is a byte array of the length of [b]
    with the elements of [b], for every byte array [b]; [encodeBase64] does
    not throw. *)
Theorem decodeBase64_encodeBase64 (b : list byte) :
  exists s : jsstring,
    encodeBase64 b = Some s /\
    exists b' : list byte,
      decodeBase64 s = Some b' /\
      length b' = length b /\
      forall i, nth_error b' i = nth_error b i.
Proof.
  exists (encode_octets (map Byte.to_N b)). split; [apply encodeBase64_total|].
  exists b. split; [apply decodeBase64_encode_octets|]. now split.
Qed.

End Base64Facts.

Module TypedArrayFacts.
Import JS Base64 TypedArray GeminiService.
Local Open Scope Q_scope.

(** *** Rounding to an integer *)

Lemma round_half_even_floor x : (Qfloor x <= round_half_even x)%Z.
Proof.
  unfold round_half_even.
  destruct (Qcompare (x - inject_Z (Qfloor x)) (1 # 2));
    [destruct (Z.even (Qfloor x))|..]; lia.
Qed.

Lemma floor_lt_ceiling x :
  inject_Z (Qfloor x) < x -> (Qfloor x + 1 <= Qceiling x)%Z.
Proof.
  intro H. pose proof (Qle_ceiling x) as Hc.
  assert (Hlt : inject_Z (Qfloor x) < inject_Z (Qceiling x))
    by (eapply Qlt_le_trans; eassumption).
  rewrite <- Zlt_Qlt in Hlt. lia.
Qed.

Lemma round_half_even_ceiling x : (round_half_even x <= Qceiling x)%Z.
Proof.
  pose proof (Qle_floor_ceiling x) as Hfc. rewrite <- Zle_Qle in Hfc.
  unfold round_half_even.
  destruct (Qcompare (x - inject_Z (Qfloor x)) (1 # 2)) eqn:E.
  - destruct (Z.even (Qfloor x)); [exact Hfc|].
    apply floor_lt_ceiling. rewrite <- Qeq_alt in E. lra.
  - exact Hfc.
  - apply floor_lt_ceiling. rewrite <- Qgt_alt in E. lra.
Qed.

Lemma round_half_even_Z n : round_half_even (inject_Z n) = n.
Proof.
  unfold round_half_even. rewrite Qfloor_Z.
  replace (Qcompare (inject_Z n - inject_Z n) (1 # 2)) with Lt; [reflexivity|].
  symmetry. rewrite <- Qlt_alt. lra.
Qed.

Lemma round_half_even_comp x y : x == y -> round_half_even x = round_half_even y.
Proof.
  intro E. unfold round_half_even. rewrite (Qfloor_comp x y E).
  replace (Qcompare (x - inject_Z (Qfloor y)) (1 # 2))
    with (Qcompare (y - inject_Z (Qfloor y)) (1 # 2)); [reflexivity|].
  apply Qcompare_comp; [now rewrite E|reflexivity].
Qed.

(** A rounding to a multiple of [1/P] stays between the integers around
    [x]. *)
Lemma scaled_round_between x (P : positive) :
  let R := round_half_even (x * inject_Z (Zpos P)) in
  inject_Z (Qfloor x) <= inject_Z R * (1 # P) /\
  inject_Z R * (1 # P) <= inject_Z (Qceiling x).
Proof.
  intro R.
  assert (HP : 0 <= inject_Z (Zpos P)) by (rewrite <- (Zle_Qle 0); lia).
  assert (Hlo : (Qfloor x * Zpos P <= R)%Z).
  { etransitivity; [|apply round_half_even_floor].
    rewrite <- (Qfloor_Z (Qfloor x * Zpos P)). apply Qfloor_resp_le.
    rewrite inject_Z_mult. apply Qmult_le_compat_r; [apply Qfloor_le|exact HP]. }
  assert (Hhi : (R <= Qceiling x * Zpos P)%Z).
  { etransitivity; [apply round_half_even_ceiling|].
    rewrite <- (Qceiling_Z (Qceiling x * Zpos P)). apply Qceiling_resp_le.
    rewrite inject_Z_mult. apply Qmult_le_compat_r; [apply Qle_ceiling|exact HP]. }
  unfold Qle. cbn. split; lia.
Qed.

(** *** Stores into a [Float32Array] *)

Lemma ilog2_unit x : Qabs x <= 1 -> (ilog2 x <= 0)%Z.
Proof.
  intro H. unfold ilog2. destruct (Qle_bool 1 (Qabs x)) eqn:E.
  - apply Qle_bool_iff in E.
    assert (E1 : Qabs x == 1) by (apply Qle_antisym; assumption).
    rewrite (Qfloor_comp _ _ E1). reflexivity.
  - pose proof (Z.log2_up_nonneg (Qceiling (/ Qabs x))). lia.
Qed.

Lemma ilog2_int16 x : Qabs x <= 32768 -> (ilog2 x <= 15)%Z.
Proof.
  intro H. unfold ilog2. destruct (Qle_bool 1 (Qabs x)) eqn:E.
  - change 15%Z with (Z.log2 32768). apply Z.log2_le_mono.
    rewrite <- (Qfloor_Z 32768). now apply Qfloor_resp_le.
  - pose proof (Z.log2_up_nonneg (Qceiling (/ Qabs x))). lia.
Qed.

(** Below [2^24] the exponent of the last place is negative, and the store
    rounds to a multiple of [1/P]. *)
Lemma fround_scaled x :
  Qeq_bool x 0 = false -> (ilog2 x <= 15)%Z ->
  exists P : positive,
    (256 <= Zpos P)%Z /\
    fround x = inject_Z (round_half_even (x * inject_Z (Zpos P))) * (1 # P).
Proof.
  intros Hx Hl. unfold fround. rewrite Hx.
  set (e := Z.max (ilog2 x - 23) (-149)).
  assert (He : (e <= -8)%Z) by (unfold e; lia).
  assert (He' : (-149 <= e)%Z) by (unfold e; lia).
  unfold pow2. replace (0 <=? e)%Z with false by (symmetry; apply Z.leb_gt; lia).
  exists (Z.to_pos (2 ^ (- e))). split; [|reflexivity].
  assert (Hp : (2 ^ 8 <= 2 ^ (- e))%Z) by (apply Z.pow_le_mono_r; lia).
  change (2 ^ 8)%Z with 256%Z in Hp. rewrite Z2Pos.id; lia.
Qed.

Lemma fround_between x :
  Qabs x <= 32768 ->
  inject_Z (Qfloor x) <= fround x /\ fround x <= inject_Z (Qceiling x).
Proof.
  intro H. destruct (Qeq_bool x 0) eqn:Hx.
  - unfold fround. rewrite Hx. apply Qeq_bool_eq in Hx.
    rewrite (Qfloor_comp _ _ Hx), (Qceiling_comp _ _ Hx). split; discriminate.
  - destruct (fround_scaled x Hx (ilog2_int16 x H)) as [P [_ ->]].
    apply scaled_round_between.
Qed.

(** The quotient of a 16-bit integer by 32768 is a binary32 number: the
    store keeps it. *)
Lemma fround_int16 k : (-32768 <= k <= 32768)%Z -> fround (k # 32768) == k # 32768.
Proof.
  intro Hk. destruct (Qeq_bool (k # 32768) 0) eqn:Hx.
  - unfold fround. rewrite Hx. apply Qeq_bool_eq in Hx. now rewrite Hx.
  - assert (Hl : (ilog2 (k # 32768) <= 0)%Z).
    { apply ilog2_unit, Qabs_Qle_condition. unfold Qle. cbn. lia. }
    unfold fround. rewrite Hx.
    set (e := Z.max (ilog2 (k # 32768) - 23) (-149)).
    assert (He : (-149 <= e <= -23)%Z) by (unfold e; lia).
    unfold pow2. replace (0 <=? e)%Z with false by (symmetry; apply Z.leb_gt; lia).
    set (m := (- e - 15)%Z).
    assert (Hm : (0 <= m)%Z) by (unfold m; lia).
    assert (Hpow : (2 ^ (- e) = 32768 * 2 ^ m)%Z).
    { replace (- e)%Z with (15 + m)%Z by (unfold m; lia).
      rewrite Z.pow_add_r by lia. reflexivity. }
    assert (Hpos : (0 < 2 ^ m)%Z) by (apply Z.pow_pos_nonneg; lia).
    assert (HP : Zpos (Z.to_pos (2 ^ (- e))) = (32768 * 2 ^ m)%Z)
      by (rewrite Z2Pos.id; lia).
    set (P := Z.to_pos (2 ^ (- e))) in *.
    assert (Hint : (k # 32768) / (1 # P) == inject_Z (k * 2 ^ m)).
    { unfold Qeq, Qdiv, Qmult, Qinv, inject_Z. cbn. rewrite HP. ring. }
    rewrite (round_half_even_comp _ _ Hint), round_half_even_Z.
    unfold Qeq, Qmult, inject_Z. cbn. rewrite HP. ring.
Qed.

(** *** Conversion to 16-bit integers *)

Lemma truncate_between y : (Qfloor y <= truncate y <= Qceiling y)%Z.
Proof.
  pose proof (Qle_floor_ceiling y) as Hfc. rewrite <- Zle_Qle in Hfc.
  destruct y as [n d]. unfold truncate, Qceiling, Qfloor in *.
  cbn [Qnum Qden Qopp] in *.
  destruct (Z.le_gt_cases 0 n) as [Hn|Hn].
  - rewrite Z.quot_div_nonneg by lia. lia.
  - replace (n ÷ Z.pos d)%Z with (- (- n / Z.pos d))%Z; [lia|].
    rewrite <- Z.quot_div_nonneg by lia.
    rewrite Z.quot_opp_l by lia. lia.
Qed.

Lemma signed16_small k : (-32768 <= k <= 32767)%Z -> signed16 k = k.
Proof.
  intro H. unfold signed16. destruct (Z.ltb_spec (k mod 65536) 32768); lia.
Qed.

(** A sample in [-1, 1] is converted without wrap-around to an integer less
    than one away from its product by 32767. *)
Lemma toInt16_scaled v :
  -1 <= v -> v <= 1 ->
  let k := toInt16 (fround (v * 32767)) in
  (-32767 <= k <= 32767)%Z /\ Qabs (v * 32767 - inject_Z k) < 1.
Proof.
  intros Hlo Hhi k. set (x := v * 32767) in *.
  assert (Hx : Qabs x <= 32768) by (apply Qabs_Qle_condition; unfold x; split; lra).
  destruct (fround_between x Hx) as [Hf Hc]. set (y := fround x) in *.
  assert (Hfx : (-32767 <= Qfloor x)%Z).
  { rewrite <- (Qfloor_Z (-32767)). apply Qfloor_resp_le.
    unfold x, inject_Z. lra. }
  assert (Hcx : (Qceiling x <= 32767)%Z).
  { rewrite <- (Qceiling_Z 32767). apply Qceiling_resp_le.
    unfold x, inject_Z. lra. }
  assert (Hfy : (Qfloor x <= Qfloor y)%Z).
  { rewrite <- (Qfloor_Z (Qfloor x)). now apply Qfloor_resp_le. }
  assert (Hcy : (Qceiling y <= Qceiling x)%Z).
  { rewrite <- (Qceiling_Z (Qceiling x)). now apply Qceiling_resp_le. }
  pose proof (truncate_between y) as Ht.
  assert (Hinf : is_infinite y = false).
  { unfold is_infinite. destruct (Qle_bool (pow2 128) (Qabs y)) eqn:E; [|reflexivity].
    apply Qle_bool_iff in E. exfalso.
    assert (Hy : Qabs y <= 32767).
    { apply Qabs_Qle_condition. rewrite Zle_Qle in Hfx, Hcx.
      change (inject_Z (-32767)) with (-32767 # 1) in Hfx.
      change (inject_Z 32767) with (32767 # 1) in Hcx. split; lra. }
    assert (Hbig : 32767 < pow2 128) by reflexivity. lra. }
  assert (Hk : k = truncate y).
  { unfold k, toInt16. fold x. fold y. rewrite Hinf. apply signed16_small. lia. }
  rewrite Hk. split; [lia|].
  apply Qabs_Qlt_condition.
  pose proof (Qlt_floor x) as H1. pose proof (Qceiling_lt x) as H2.
  rewrite inject_Z_plus in H1. unfold Zminus in H2. rewrite inject_Z_plus in H2.
  assert (H3 : inject_Z (Qfloor x) <= inject_Z (truncate y))
    by (rewrite <- Zle_Qle; lia).
  assert (H4 : inject_Z (truncate y) <= inject_Z (Qceiling x))
    by (rewrite <- Zle_Qle; lia).
  change (inject_Z 1) with 1 in H1. change (inject_Z (- (1))%Z) with (-1 # 1) in H2.
  split; lra.
Qed.

(** *** The bytes of an [Int16Array] *)

Lemma to_N_toUint8 n : Byte.to_N (toUint8 n) = (n mod 256)%N.
Proof.
  unfold toUint8. destruct (Byte.of_N (n mod 256)) as [b|] eqn:E.
  - now apply Byte.to_of_N.
  - apply Byte.of_N_None_iff in E. lia.
Qed.

Lemma int16s_of_int16_bytes k rest :
  int16s_of_bytes (int16_bytes k ++ rest)
  = option_map (cons (signed16 k)) (int16s_of_bytes rest).
Proof.
  unfold int16_bytes. cbn [app int16s_of_bytes]. rewrite !to_N_toUint8.
  f_equal. f_equal. unfold signed16.
  replace ((Z.of_N ((Z.to_N (k mod 65536) mod 256) mod 256)
            + 256 * Z.of_N ((Z.to_N (k mod 65536) / 256) mod 256)) mod 65536)%Z
    with (k mod 65536)%Z; [reflexivity|].
  lia.
Qed.

Lemma int16s_of_bytes_of_int16s l :
  int16s_of_bytes (bytes_of_int16s l) = Some (map signed16 l).
Proof.
  induction l as [|k l IH]; [reflexivity|].
  unfold bytes_of_int16s in *. cbn [flat_map map].
  now rewrite int16s_of_int16_bytes, IH.
Qed.

(** *** decodePCM *)

Lemma map_nth_seq (A B : Type) (f : A -> B) (d : A) l :
  map (fun i => f (nth i l d)) (seq 0 (length l)) = map f l.
Proof.
  induction l as [|a l IH]; [reflexivity|].
  cbn [length seq map nth]. f_equal.
  rewrite <- seq_shift, map_map. exact IH.
Qed.

(** One channel: the buffer holds the samples, each divided by 32768. *)
Lemma decodePCM_mono data samples rate :
  (8000 <= rate)%positive -> (rate <= 96000)%positive ->
  int16s_of_bytes data = Some samples -> samples <> [] ->
  decodePCM data rate 1
  = Some {| numberOfChannels := 1; frames := length samples; sampleRate := rate;
            channelData := [map (fun k => fround (k # 32768)) samples] |}.
Proof.
  intros Hlo Hhi E Hne. unfold decodePCM. rewrite E, Nat.div_1_r.
  replace (createBuffer_supports 1 (length samples) rate) with true.
  - cbn [negb]. f_equal. f_equal. cbn [seq map]. f_equal.
    rewrite <- (map_nth_seq Z Q (fun k => fround (k # 32768)) 0%Z samples).
    apply map_ext. intro i. now rewrite Nat.mul_1_r, Nat.add_0_r.
  - symmetry. unfold createBuffer_supports.
    apply Pos.leb_le in Hlo, Hhi. rewrite Hlo, Hhi.
    destruct samples; [now destruct Hne|reflexivity].
Qed.

End TypedArrayFacts.

(* ------------------------------------------------------------------ *)
(** ** Numbers: rounding to binary64 *)

Module NumberFacts.
Import JS Base64 TypedArray GeminiService.
Import TypedArrayFacts.
Local Open Scope Q_scope.

(** *** Powers of two *)

Lemma pow2_frac e n :
  (0 <= n)%Z -> (0 <= e + n)%Z ->
  pow2 e * inject_Z (2 ^ n) == inject_Z (2 ^ (e + n)).
Proof.
  intros Hn He. unfold pow2. destruct (Z.leb_spec 0 e) as [H|H].
  - rewrite <- inject_Z_mult. rewrite Z.pow_add_r by lia. reflexivity.
  - assert (Hp : (0 < 2 ^ (- e))%Z) by (apply Z.pow_pos_nonneg; lia).
    assert (E : (2 ^ n = 2 ^ (e + n) * 2 ^ (- e))%Z).
    { rewrite <- Z.pow_add_r by lia. f_equal. lia. }
    unfold Qeq, Qmult, inject_Z. cbn [Qnum Qden].
    rewrite Pos.mul_1_r, Z2Pos.id by exact Hp. lia.
Qed.

Lemma pow2_pos e : 0 < pow2 e.
Proof.
  unfold pow2. destruct (Z.leb_spec 0 e) as [H|H].
  - rewrite <- (Zlt_Qlt 0). apply Z.pow_pos_nonneg; lia.
  - reflexivity.
Qed.

Lemma inject_pow_pos n : (0 <= n)%Z -> 0 < inject_Z (2 ^ n).
Proof. intro H. rewrite <- (Zlt_Qlt 0). apply Z.pow_pos_nonneg; lia. Qed.

Lemma pow2_add a b : pow2 (a + b) == pow2 a * pow2 b.
Proof.
  set (n := (Z.abs a + Z.abs b)%Z).
  assert (Hn : (0 <= n)%Z) by (unfold n; lia).
  pose proof (pow2_frac a n Hn ltac:(unfold n; lia)) as Ha.
  pose proof (pow2_frac b n Hn ltac:(unfold n; lia)) as Hb.
  pose proof (pow2_frac (a + b) (n + n) ltac:(lia) ltac:(unfold n; lia)) as Hab.
  pose proof (inject_pow_pos n Hn) as Hp.
  assert (Hnn : inject_Z (2 ^ n) * inject_Z (2 ^ n) == inject_Z (2 ^ (n + n))).
  { rewrite <- inject_Z_mult, <- Z.pow_add_r by lia. reflexivity. }
  assert (Hs : inject_Z (2 ^ (a + n)) * inject_Z (2 ^ (b + n))
               == inject_Z (2 ^ (a + b + (n + n)))).
  { rewrite <- inject_Z_mult, <- Z.pow_add_r by (unfold n; lia).
    now replace (a + n + (b + n))%Z with (a + b + (n + n))%Z by lia. }
  assert (E : pow2 (a + b) * (inject_Z (2 ^ n) * inject_Z (2 ^ n))
              == pow2 a * pow2 b * (inject_Z (2 ^ n) * inject_Z (2 ^ n))).
  { rewrite Hnn at 1. rewrite Hab, <- Hs, <- Ha, <- Hb. ring. }
  apply Qmult_inj_r in E; [exact E|].
  intro H0. apply (Qlt_irrefl 0). rewrite <- H0 at 2.
  apply Qmult_lt_0_compat; exact Hp.
Qed.

Lemma pow2_0 : pow2 0 == 1.
Proof. reflexivity. Qed.

Lemma pow2_le a b : (a <= b)%Z -> pow2 a <= pow2 b.
Proof.
  intro H. replace b with (a + (b - a))%Z by lia. rewrite pow2_add.
  rewrite <- (Qmult_1_r (pow2 a)) at 1.
  apply Qmult_le_l; [apply pow2_pos|].
  unfold pow2. rewrite (proj2 (Z.leb_le 0 (b - a)) ltac:(lia)).
  rewrite <- (Zle_Qle 1). pose proof (Z.pow_pos_nonneg 2 (b - a)). lia.
Qed.

Lemma pow2_lt a b : (a < b)%Z -> pow2 a < pow2 b.
Proof.
  intro H. replace b with (a + (b - a))%Z by lia. rewrite pow2_add.
  rewrite <- (Qmult_1_r (pow2 a)) at 1.
  apply Qmult_lt_l; [apply pow2_pos|].
  unfold pow2. rewrite (proj2 (Z.leb_le 0 (b - a)) ltac:(lia)).
  rewrite <- (Zlt_Qlt 1). apply Z.pow_gt_1; lia.
Qed.

Lemma pow2_lt_inv a b : pow2 a < pow2 b -> (a < b)%Z.
Proof.
  intro H. destruct (Z.lt_ge_cases a b) as [|Hge]; [assumption|].
  exfalso. apply pow2_le in Hge. exact (Qlt_not_le _ _ H Hge).
Qed.

Lemma pow2_succ e : pow2 (e + 1) == 2 * pow2 e.
Proof. rewrite pow2_add. change (pow2 1) with 2. ring. Qed.

Lemma pow2_le_inv a b : pow2 a <= pow2 b -> (a <= b)%Z.
Proof.
  intro H. destruct (Z.le_gt_cases a b) as [|Hgt]; [assumption|].
  exfalso. apply pow2_lt in Hgt. exact (Qlt_not_le _ _ Hgt H).
Qed.

(** *** The binade of a number *)

Lemma ilog2_comp x y : x == y -> ilog2 x = ilog2 y.
Proof.
  intro E. unfold ilog2.
  assert (Ea : Qabs x == Qabs y) by now rewrite E.
  replace (Qle_bool 1 (Qabs y)) with (Qle_bool 1 (Qabs x)).
  - destruct (Qle_bool 1 (Qabs x)).
    + now rewrite (Qfloor_comp _ _ Ea).
    + assert (Ei : / Qabs x == / Qabs y) by now rewrite Ea.
      now rewrite (Qceiling_comp _ _ Ei).
  - destruct (Qle_bool 1 (Qabs x)) eqn:H1, (Qle_bool 1 (Qabs y)) eqn:H2;
      try reflexivity.
    + apply Qle_bool_iff in H1. rewrite Ea in H1. apply Qle_bool_iff in H1.
      congruence.
    + apply Qle_bool_iff in H2. rewrite <- Ea in H2. apply Qle_bool_iff in H2.
      congruence.
Qed.

Lemma Qabs_pos_neq x : ~ x == 0 -> 0 < Qabs x.
Proof.
  intro H. destruct (Qlt_le_dec 0 (Qabs x)) as [|Hle]; [assumption|].
  exfalso. apply H. apply Qabs_Qle_condition in Hle.
  destruct Hle as [H1 H2]. apply Qle_antisym; [exact H2|exact H1].
Qed.

Lemma ilog2_spec x :
  ~ x == 0 -> pow2 (ilog2 x) <= Qabs x /\ Qabs x < pow2 (ilog2 x + 1).
Proof.
  intro Hx. pose proof (Qabs_pos_neq x Hx) as Ha. unfold ilog2.
  set (a := Qabs x) in *. destruct (Qle_bool 1 a) eqn:E.
  - apply Qle_bool_iff in E.
    assert (Hf : (1 <= Qfloor a)%Z).
    { rewrite <- (Qfloor_Z 1). now apply Qfloor_resp_le. }
    destruct (Z.log2_spec (Qfloor a) ltac:(lia)) as [H1 H2].
    pose proof (Z.log2_nonneg (Qfloor a)) as Hl.
    unfold pow2.
    assert (Hl1 : (0 <= Z.log2 (Qfloor a) + 1)%Z) by lia.
    rewrite (proj2 (Z.leb_le 0 _) Hl), (proj2 (Z.leb_le 0 _) Hl1).
    split.
    + apply Qle_trans with (inject_Z (Qfloor a)); [|apply Qfloor_le].
      now rewrite <- Zle_Qle.
    + apply Qlt_le_trans with (inject_Z (Qfloor a + 1)); [apply Qlt_floor|].
      rewrite <- Zle_Qle. unfold Z.succ in H2. lia.
  - assert (E1 : a < 1).
    { apply Qnot_le_lt. intro H. apply Qle_bool_iff in H. congruence. }
    set (c := Qceiling (/ a)). set (L := Z.log2_up c).
    assert (Hinv : 1 < / a).
    { rewrite <- (Qmult_1_l (/ a)). apply Qlt_shift_div_l; [exact Ha|].
      now rewrite Qmult_1_l. }
    assert (Hc : (1 < c)%Z).
    { rewrite Zlt_Qlt. eapply Qlt_le_trans; [exact Hinv|apply Qle_ceiling]. }
    destruct (Z.log2_up_spec c Hc) as [H1 H2]. fold L in H1, H2.
    assert (HL : (1 <= L)%Z).
    { destruct (Z.le_gt_cases 1 L) as [|Hlt]; [assumption|].
      exfalso. assert (L0 : (L <= 0)%Z) by lia.
      pose proof (Z.pow_le_mono_r 2 L 0 ltac:(lia) L0). change (2 ^ 0)%Z with 1%Z in *. lia. }
    split.
    + pose proof (pow2_frac (- L) L ltac:(lia) ltac:(lia)) as Hp.
      replace (- L + L)%Z with 0%Z in Hp by lia. change (inject_Z (2 ^ 0)) with 1 in Hp.
      assert (HX : 0 < inject_Z (2 ^ L)) by (apply inject_pow_pos; lia).
      apply (Qmult_le_r _ _ (inject_Z (2 ^ L)) HX). rewrite Hp.
      assert (H3 : / a <= inject_Z (2 ^ L)).
      { eapply Qle_trans; [apply Qle_ceiling|]. fold c. now rewrite <- Zle_Qle. }
      setoid_replace 1 with (a * / a) by (field; intro H0; rewrite H0 in Ha; discriminate).
      apply Qmult_le_l; assumption.
    + pose proof (pow2_frac (- L + 1) (L - 1) ltac:(lia) ltac:(lia)) as Hp.
      replace (- L + 1 + (L - 1))%Z with 0%Z in Hp by lia.
      change (inject_Z (2 ^ 0)) with 1 in Hp.
      assert (HY : 0 < inject_Z (2 ^ (L - 1))) by (apply inject_pow_pos; lia).
      apply (Qmult_lt_r _ _ (inject_Z (2 ^ (L - 1))) HY). rewrite Hp.
      assert (H3 : inject_Z (2 ^ (L - 1)) < / a).
      { apply Qle_lt_trans with (inject_Z (c - 1)).
        - rewrite <- Zle_Qle. unfold Z.pred in H1.
          replace (L + -1)%Z with (L - 1)%Z in H1 by lia. lia.
        - apply Qceiling_lt. }
      setoid_replace 1 with (a * / a) by (field; intro H0; rewrite H0 in Ha; discriminate).
      apply Qmult_lt_l; assumption.
Qed.

Lemma ilog2_lt x n : ~ x == 0 -> Qabs x < pow2 n -> (ilog2 x < n)%Z.
Proof.
  intros Hx H. destruct (ilog2_spec x Hx) as [H1 _].
  apply pow2_lt_inv. eapply Qle_lt_trans; eassumption.
Qed.

Lemma ilog2_ge x n : ~ x == 0 -> pow2 n <= Qabs x -> (n <= ilog2 x)%Z.
Proof.
  intros Hx H. destruct (ilog2_spec x Hx) as [_ H2].
  assert (Hlt : (n < ilog2 x + 1)%Z)
    by (apply pow2_lt_inv; eapply Qle_lt_trans; eassumption).
  lia.
Qed.

(** *** Rounding *)

Lemma round_near y : Qabs (inject_Z (round_half_even y) - y) <= 1 # 2.
Proof.
  pose proof (Qfloor_le y) as H1. pose proof (Qlt_floor y) as H2.
  rewrite inject_Z_plus in H2. change (inject_Z 1) with 1 in H2.
  apply Qabs_Qle_condition. unfold round_half_even.
  destruct (Qcompare (y - inject_Z (Qfloor y)) (1 # 2)) eqn:E.
  - rewrite <- Qeq_alt in E. destruct (Z.even (Qfloor y)).
    + split; lra.
    + rewrite inject_Z_plus. change (inject_Z 1) with 1. split; lra.
  - rewrite <- Qlt_alt in E. split; lra.
  - rewrite <- Qgt_alt in E. rewrite inject_Z_plus. change (inject_Z 1) with 1.
    split; lra.
Qed.

Lemma round_ge_int k y : inject_Z k <= y -> (k <= round_half_even y)%Z.
Proof.
  intro H. etransitivity; [|apply round_half_even_floor].
  rewrite <- (Qfloor_Z k). now apply Qfloor_resp_le.
Qed.

Lemma round_le_int k y : y <= inject_Z k -> (round_half_even y <= k)%Z.
Proof.
  intro H. etransitivity; [apply round_half_even_ceiling|].
  rewrite <- (Qceiling_Z k). now apply Qceiling_resp_le.
Qed.

(** *** Numbers *)

Lemma pow2_neq e : ~ pow2 e == 0.
Proof. intro H. pose proof (pow2_pos e) as Hp. rewrite H in Hp. discriminate. Qed.

Lemma double_form x :
  ~ x == 0 ->
  double x
  = inject_Z (round_half_even (x / pow2 (Z.max (ilog2 x - 52) (-1074))))
    * pow2 (Z.max (ilog2 x - 52) (-1074)).
Proof.
  intro H. unfold double. destruct (Qeq_bool x 0) eqn:E; [|reflexivity].
  apply Qeq_bool_eq in E. contradiction.
Qed.

Lemma double_zero x : x == 0 -> double x = 0.
Proof. intro H. unfold double. now rewrite (Qeq_eq_bool _ _ H). Qed.

Lemma double_comp x y : x == y -> double x == double y.
Proof.
  intro E. destruct (Qeq_dec x 0) as [H|H].
  - rewrite (double_zero x H), (double_zero y); [reflexivity|now rewrite <- E].
  - assert (Hy : ~ y == 0) by now rewrite <- E.
    rewrite (double_form x H), (double_form y Hy), (ilog2_comp x y E).
    set (e := Z.max (ilog2 y - 52) (-1074)).
    assert (Ed : x / pow2 e == y / pow2 e) by now rewrite E.
    now rewrite (round_half_even_comp _ _ Ed).
Qed.

(** A Number in the normal range is within half a unit in the last place
    of what it rounds. *)
Lemma double_error x :
  pow2 (-1022) <= Qabs x -> Qabs (double x - x) <= Qabs x * pow2 (-53).
Proof.
  intro H.
  assert (Hx : ~ x == 0).
  { intro E. rewrite E in H. pose proof (pow2_pos (-1022)) as Hp.
    change (Qabs 0) with 0 in H. exact (Qlt_not_le _ _ Hp H). }
  rewrite (double_form x Hx).
  pose proof (ilog2_ge x (-1022) Hx H) as Hl.
  rewrite Z.max_l by lia. set (e := (ilog2 x - 52)%Z).
  set (y := x / pow2 e).
  assert (Hy : y * pow2 e == x) by (unfold y; field; apply pow2_neq).
  assert (Hd : inject_Z (round_half_even y) * pow2 e - x
               == (inject_Z (round_half_even y) - y) * pow2 e)
    by (rewrite <- Hy at 1; ring).
  pose proof (pow2_pos e) as Hpe.
  rewrite Hd, Qabs_Qmult, (Qabs_pos (pow2 e)) by (apply Qlt_le_weak; exact Hpe).
  apply Qle_trans with ((1 # 2) * pow2 e).
  { apply Qmult_le_compat_r; [apply round_near|apply Qlt_le_weak; exact Hpe]. }
  destruct (ilog2_spec x Hx) as [H1 _].
  apply Qle_trans with (pow2 (ilog2 x) * pow2 (-53)).
  - rewrite <- pow2_add. replace (ilog2 x + -53)%Z with (e - 1)%Z by (unfold e; lia).
    pose proof (pow2_succ (e - 1)) as Hs.
    replace (e - 1 + 1)%Z with e in Hs by lia. rewrite Hs.
    setoid_replace ((1 # 2) * (2 * pow2 (e - 1))) with (pow2 (e - 1)) by ring.
    apply Qle_refl.
  - apply Qmult_le_compat_r; [exact H1|apply Qlt_le_weak, pow2_pos].
Qed.

Lemma double_nonneg x : 0 <= x -> 0 <= double x.
Proof.
  intro H. destruct (Qeq_dec x 0) as [E|E].
  - rewrite (double_zero x E). apply Qle_refl.
  - rewrite (double_form x E). set (e := Z.max (ilog2 x - 52) (-1074)).
    apply Qmult_le_0_compat; [|apply Qlt_le_weak, pow2_pos].
    rewrite <- (Zle_Qle 0). apply round_ge_int.
    change (inject_Z 0) with 0. apply Qle_shift_div_l; [apply pow2_pos|].
    now rewrite Qmult_0_l.
Qed.

(** A multiple of a power of two that is at most the unit in its last
    place is a Number. *)
Lemma representable_scaled z k e :
  z == inject_Z k * pow2 e ->
  (Z.max (ilog2 z - 52) (-1074) <= e)%Z ->
  double z == z.
Proof.
  intros Hz He. destruct (Qeq_dec z 0) as [E|E].
  - rewrite (double_zero z E). now rewrite E.
  - rewrite (double_form z E). set (ez := Z.max (ilog2 z - 52) (-1074)) in *.
    assert (Hm : z / pow2 ez == inject_Z (k * 2 ^ (e - ez))).
    { assert (Hp : pow2 (e - ez) = inject_Z (2 ^ (e - ez))).
      { unfold pow2. now rewrite (proj2 (Z.leb_le 0 (e - ez)) ltac:(lia)). }
      rewrite inject_Z_mult, <- Hp, Hz.
      replace e with (ez + (e - ez))%Z at 1 by lia.
      rewrite pow2_add. field. apply pow2_neq. }
    rewrite (round_half_even_comp _ _ Hm), round_half_even_Z, <- Hm.
    field. apply pow2_neq.
Qed.

Lemma pow2_int n : (0 <= n)%Z -> pow2 n = inject_Z (2 ^ n).
Proof. intro H. unfold pow2. now rewrite (proj2 (Z.leb_le 0 n) H). Qed.

Lemma div_pow2_le x y e : x <= y -> x / pow2 e <= y / pow2 e.
Proof.
  intro H. apply Qmult_le_compat_r; [exact H|].
  apply Qlt_le_weak, Qinv_lt_0_compat, pow2_pos.
Qed.

Lemma div_pow2_lt x y e : x < y -> x / pow2 e < y / pow2 e.
Proof.
  intro H. apply Qmult_lt_compat_r; [|exact H].
  apply Qinv_lt_0_compat, pow2_pos.
Qed.

Lemma pow2_div a b : pow2 a / pow2 b == pow2 (a - b).
Proof.
  replace a with (a - b + b)%Z at 1 by lia. rewrite pow2_add.
  field. apply pow2_neq.
Qed.

(** The result of a rounding is a Number. *)
Lemma double_idem x : 0 <= x -> double (double x) == double x.
Proof.
  intro H0. destruct (Qeq_dec x 0) as [E|E].
  - rewrite (double_zero x E). reflexivity.
  - assert (Hpos : 0 < x).
    { apply Qnot_le_lt. intro Hle. apply E. now apply Qle_antisym. }
    destruct (Qeq_dec (double x) 0) as [Ez|Ez].
    + rewrite (double_zero _ Ez). now rewrite Ez.
    + pose proof (double_nonneg x H0) as Hz0.
      assert (Hza : Qabs (double x) == double x) by now apply Qabs_pos.
      assert (Hxa : Qabs x == x) by now apply Qabs_pos.
      revert Ez Hz0 Hza. rewrite (double_form x E).
      set (e := Z.max (ilog2 x - 52) (-1074)).
      set (k := round_half_even (x / pow2 e)). intros Ez Hz0 Hza.
      destruct (ilog2_spec x E) as [_ Hup]. rewrite Hxa in Hup.
      assert (Hk : (k <= 2 ^ 53)%Z).
      { apply round_le_int. rewrite <- (pow2_int 53) by lia.
        apply Qlt_le_weak. apply Qlt_le_trans with (pow2 (ilog2 x + 1) / pow2 e).
        - now apply div_pow2_lt.
        - rewrite pow2_div. apply pow2_le. unfold e. lia. }
      destruct (Z.eq_dec k (2 ^ 53)) as [Ek|Ek].
      * apply (representable_scaled _ (2 ^ 52) (e + 1)).
        -- rewrite Ek, pow2_succ, <- !pow2_int by lia.
           setoid_replace (pow2 52 * (2 * pow2 e)) with (pow2 (52 + 1) * pow2 e)
             by (rewrite (pow2_succ 52); ring).
           reflexivity.
        -- assert (Hl : (ilog2 (inject_Z k * pow2 e) < 54 + e)%Z).
           { apply ilog2_lt; [exact Ez|]. rewrite Hza, Ek, <- pow2_int by lia.
             rewrite <- pow2_add. apply pow2_lt. lia. }
           unfold e in *. lia.
      * apply (representable_scaled _ k e); [reflexivity|].
        assert (Hl : (ilog2 (inject_Z k * pow2 e) < 53 + e)%Z).
        { apply ilog2_lt; [exact Ez|]. rewrite Hza, (pow2_add 53 e).
          apply Qmult_lt_compat_r; [apply pow2_pos|].
          rewrite pow2_int by lia. rewrite <- Zlt_Qlt. lia. }
        unfold e in *. lia.
Qed.

(** A sum of a Number and something that is not negative does not round
    below the Number. *)
Lemma double_ge w d :
  double w == w -> 0 <= w -> 0 <= d -> w <= double (w + d).
Proof.
  intros Hrep Hw Hd. destruct (Qeq_dec w 0) as [E|E].
  - rewrite E at 1. apply double_nonneg. lra.
  - assert (Hwpos : 0 < w).
    { apply Qnot_le_lt. intro Hle. apply E. now apply Qle_antisym. }
    set (x := w + d). assert (Hx : w <= x) by (unfold x; lra).
    assert (Ex : ~ x == 0) by (intro H; rewrite H in Hx; lra).
    assert (Hwa : Qabs w == w) by now apply Qabs_pos.
    assert (Hxa : Qabs x == x) by (apply Qabs_pos; lra).
    destruct (ilog2_spec w E) as [Hw1 Hw2]. rewrite Hwa in Hw1, Hw2.
    assert (Hl : (ilog2 w <= ilog2 x)%Z).
    { apply ilog2_ge; [exact Ex|]. rewrite Hxa. lra. }
    rewrite (double_form w E) in Hrep. rewrite (double_form x Ex).
    set (ew := Z.max (ilog2 w - 52) (-1074)) in *.
    set (ex := Z.max (ilog2 x - 52) (-1074)).
    set (kw := round_half_even (w / pow2 ew)) in *.
    destruct (Z.eq_dec ew ex) as [Ee|Ee].
    + rewrite <- Ee. rewrite <- Hrep at 1.
      apply Qmult_le_compat_r; [|apply Qlt_le_weak, pow2_pos].
      rewrite <- Zle_Qle. apply round_ge_int.
      apply Qle_trans with (w / pow2 ew); [|now apply div_pow2_le].
      rewrite <- Hrep at 1. apply Qle_shift_div_l; [apply pow2_pos|apply Qle_refl].
    + assert (Hlt : (ilog2 w < ilog2 x)%Z) by (unfold ew, ex in *; lia).
      assert (Hex : ex = (ilog2 x - 52)%Z) by (unfold ew, ex in *; lia).
      apply Qle_trans with (pow2 (ilog2 x)).
      * apply Qlt_le_weak. eapply Qlt_le_trans; [exact Hw2|]. apply pow2_le. lia.
      * destruct (ilog2_spec x Ex) as [Hx1 _]. rewrite Hxa in Hx1.
        setoid_replace (pow2 (ilog2 x)) with (inject_Z (2 ^ 52) * pow2 ex)
          by (rewrite <- pow2_int, <- pow2_add by lia; rewrite Hex;
              now replace (52 + (ilog2 x - 52))%Z with (ilog2 x) by lia).
        apply Qmult_le_compat_r; [|apply Qlt_le_weak, pow2_pos].
        rewrite <- Zle_Qle. apply round_ge_int.
        rewrite <- pow2_int by lia.
        apply Qle_trans with (pow2 (ilog2 x) / pow2 ex); [|now apply div_pow2_le].
        rewrite pow2_div. apply pow2_le. lia.
Qed.

Lemma double_pos x : pow2 (-1022) <= x -> 0 < double x.
Proof.
  intro H. pose proof (pow2_pos (-1022)) as Hp.
  assert (Hx : 0 < x) by (eapply Qlt_le_trans; eassumption).
  assert (Ha : Qabs x == x) by (apply Qabs_pos; lra).
  pose proof (double_error x) as He. rewrite Ha in He. specialize (He H).
  apply Qabs_Qle_condition in He. destruct He as [He _].
  assert (Hs : x * pow2 (-53) < x).
  { rewrite <- (Qmult_1_r x) at 2. apply Qmult_lt_l; [exact Hx|]. reflexivity. }
  lra.
Qed.

End NumberFacts.

Module VoiceOverlayFacts.
Import JS Base64 TypedArray GeminiService VoiceOverlay VoiceOverlayAux.
Import Base64Facts TypedArrayFacts NumberFacts.
Local Open Scope Q_scope.

(** *** parseLang *)

Lemma skip_spaces_split s :
  exists ws, s = ws ++ skip_spaces s /\ forallb is_space ws = true.
Proof.
  induction s as [|c r [ws [E H]]]; [now exists []|].
  cbn [skip_spaces]. destruct (is_space c) eqn:Hc.
  - exists (c :: ws). cbn [app forallb]. rewrite Hc, H. now rewrite <- E.
  - now exists [].
Qed.

Lemma skip_spaces_head s :
  match skip_spaces s with c :: _ => is_space c = false | [] => True end.
Proof.
  induction s as [|c r IH]; [exact I|].
  cbn [skip_spaces]. destruct (is_space c) eqn:Hc; [exact IH|exact Hc].
Qed.

Lemma parseLang_tag a b rest st :
  is_upper a = true -> is_upper b = true ->
  parseLang (91%N :: a :: b :: 93%N :: rest) st
  = (skip_spaces rest, setDetectedLang [a; b] st).
Proof.
  intros Ha Hb. unfold parseLang, strip_tag, match_tag.
  now rewrite Ha, Hb.
Qed.

Lemma match_tag_tagged text code rest :
  match_tag text = Some (code, rest) -> tagged text.
Proof.
  unfold match_tag. destruct text as [|o [|a [|b [|c r]]]]; try discriminate.
  destruct (N.eqb_spec o 91); [|discriminate]; cbn [andb].
  destruct (is_upper a) eqn:Ha; [|discriminate]; cbn [andb].
  destruct (is_upper b) eqn:Hb; [|discriminate]; cbn [andb].
  destruct (N.eqb_spec c 93); [|discriminate].
  intros _. subst. now exists a, b, r.
Qed.

(** C10: a transcript delta that does not begin with an opening square
    bracket, exactly two letters of A-Z and a closing square bracket comes
    back from [parseLang] unchanged, and the detected language (with the
    rest of the state) is left as it was. *)
Theorem parseLang_untagged text st :
  ~ tagged text -> parseLang text st = (text, st).
Proof.
  intro H. unfold parseLang.
  destruct (match_tag text) as [[code rest]|] eqn:E; [|reflexivity].
  exfalso. apply H. eapply match_tag_tagged; eassumption.
Qed.

Ltac not_tagged :=
  let a := fresh in let b := fresh in let r := fresh in
  let Ha := fresh in let Hb := fresh in let E := fresh in
  intros [a [b [r [Ha [Hb E]]]]]; inversion E; subst; discriminate.

Lemma parseLang_untagged_witness :
  parseLang (lit "[fr] salut") initial = (lit "[fr] salut", initial) /\
  parseLang (lit "[FRA] salut") initial = (lit "[FRA] salut", initial) /\
  parseLang (lit " [FR] salut") initial = (lit " [FR] salut", initial).
Proof.
  split; [|split].
  - apply (parseLang_untagged (lit "[fr] salut") initial). not_tagged.
  - apply (parseLang_untagged (lit "[FRA] salut") initial). not_tagged.
  - apply (parseLang_untagged (lit " [FR] salut") initial). not_tagged.
Defined.

(** C6: for a transcript delta that begins with a code of two letters of A-Z
    in square brackets, [parseLang] records the code as the detected
    language (whatever it was) and returns the remainder without the tag and
    without the whitespace that follows it; [onmessage] appends that to the
    transcript of the delta's direction.  "[FR] Bonjour" gives FR and
    appends "Bonjour". *)
Theorem parseLang_tagged a b rest st :
  is_upper a = true -> is_upper b = true ->
  let text := 91%N :: a :: b :: 93%N :: rest in
  exists ws cleaned,
    rest = ws ++ cleaned /\
    forallb is_space ws = true /\
    match cleaned with c :: _ => is_space c = false | [] => True end /\
    parseLang text st = (cleaned, setDetectedLang [a; b] st) /\
    detectedLang (snd (parseLang text st)) = [a; b] /\
    (forall sessionId now,
        activeSessionId st = Some sessionId ->
        let st1 := onmessage sessionId now (input_delta text) st in
        let st2 := onmessage sessionId now (output_delta text) st in
        detectedLang st1 = [a; b] /\
        inputTranscript st1 = inputTranscript st ++ cleaned /\
        outputTranscript st1 = outputTranscript st /\
        detectedLang st2 = [a; b] /\
        outputTranscript st2 = outputTranscript st ++ cleaned /\
        inputTranscript st2 = inputTranscript st) /\
    parseLang (lit "[FR] Bonjour") st
    = (lit "Bonjour", setDetectedLang (lit "FR") st).
Proof.
  intros Ha Hb text.
  destruct (skip_spaces_split rest) as [ws [E Hws]].
  exists ws, (skip_spaces rest).
  pose proof (parseLang_tag a b rest st Ha Hb) as HP. fold text in HP.
  split; [exact E|]. split; [exact Hws|]. split; [apply skip_spaces_head|].
  split; [exact HP|]. split; [now rewrite HP|]. split; [|reflexivity].
  intros sessionId now Hact st1 st2.
  unfold st1, st2, onmessage, superseded. rewrite Hact, N.eqb_refl.
  cbn [negb]. unfold on_audio, on_transcripts.
  cbn [input_delta output_delta inputTranscription outputTranscription
       turnComplete audioBase64 on_interrupted interrupted].
  rewrite HP. now repeat split.
Qed.

Lemma parseLang_tagged_witness :
  exists ws cleaned,
    lit " Bonjour" = ws ++ cleaned /\
    forallb is_space ws = true /\
    match cleaned with c :: _ => is_space c = false | [] => True end /\
    parseLang (lit "[FR] Bonjour") live
    = (cleaned, setDetectedLang (lit "FR") live) /\
    detectedLang (snd (parseLang (lit "[FR] Bonjour") live)) = lit "FR" /\
    (forall sessionId now,
        activeSessionId live = Some sessionId ->
        let st1 := onmessage sessionId now (input_delta (lit "[FR] Bonjour")) live in
        let st2 := onmessage sessionId now (output_delta (lit "[FR] Bonjour")) live in
        detectedLang st1 = lit "FR" /\
        inputTranscript st1 = inputTranscript live ++ cleaned /\
        outputTranscript st1 = outputTranscript live /\
        detectedLang st2 = lit "FR" /\
        outputTranscript st2 = outputTranscript live ++ cleaned /\
        inputTranscript st2 = inputTranscript live) /\
    parseLang (lit "[FR] Bonjour") live
    = (lit "Bonjour", setDetectedLang (lit "FR") live).
Proof.
  exact (parseLang_tagged 70%N 82%N (lit " Bonjour") live eq_refl eq_refl).
Defined.

(** *** The playback cursor *)

Lemma parseLang_playback text st : same_playback st (snd (parseLang text st)).
Proof.
  unfold parseLang. destruct (match_tag text) as [[code rest]|];
    now repeat split.
Qed.

Lemma on_transcripts_playback msg st : same_playback st (on_transcripts msg st).
Proof.
  unfold on_transcripts, parseLang.
  destruct (inputTranscription msg) as [t1|];
    [destruct (match_tag t1) as [[? ?]|]|];
    (destruct (outputTranscription msg) as [t2|];
     [destruct (match_tag t2) as [[? ?]|]|]);
    destruct (turnComplete msg); now repeat split.
Qed.

Lemma started_emit_start s st :
  started (emit (SourceStart s) st) = started st ++ [s].
Proof.
  unfold started, started_in. cbn [emit trace flat_map].
  now rewrite rev_app_distr.
Qed.

Lemma superseded_active sessionId st :
  activeSessionId st = Some sessionId -> superseded sessionId st = false.
Proof. intro H. unfold superseded. now rewrite H, N.eqb_refl. Qed.

(** One playable chunk: it starts at the cursor, which is first raised to
    the clock and then moved past the chunk. *)
Lemma onmessage_plays sessionId now msg d st :
  activeSessionId st = Some sessionId ->
  interrupted msg = false -> chunk_duration msg = Some d ->
  let st' := onmessage sessionId now msg st in
  let s := {| src_id := created st; src_session := sessionId; src_duration := d;
              src_when := Qmax (nextStartTime st) now |} in
  started st' = started st ++ [s] /\
  sources st' = sources st ++ [s] /\
  nextStartTime st' = double (Qmax (nextStartTime st) now + d) /\
  created st' = S (created st) /\
  activeSessionId st' = Some sessionId /\
  status st' = speaking.
Proof.
  intros Hact Hint Hd st' s. subst st' s. unfold onmessage.
  rewrite (superseded_active _ _ Hact).
  destruct (on_transcripts_playback msg st) as [Htr [Hn [Hc [Ha [Hs _]]]]].
  set (st1 := on_transcripts msg st) in *.
  unfold chunk_duration in Hd. unfold on_audio, on_interrupted.
  rewrite Hint.
  destruct (audioBase64 msg) as [audio|]; [|discriminate].
  destruct (truthy audio); [|discriminate].
  destruct (chunk_buffer audio) as [buffer|]; [|discriminate].
  cbn [option_map] in Hd. injection Hd as <-.
  cbn. unfold started, started_in.
  rewrite Htr, Hn, Hc, Hs, Ha, Hact.
  now repeat split.
Qed.

Lemma deliver_plan sessionId chunks : forall st,
  activeSessionId st = Some sessionId ->
  Forall (fun c => plays (snd c)) chunks ->
  started (deliver sessionId chunks st)
  = started st ++ plan sessionId (created st) (nextStartTime st) chunks.
Proof.
  induction chunks as [|[now msg] rest IH]; intros st Hact Hall.
  - cbn. now rewrite app_nil_r.
  - inversion_clear Hall as [|? ? [Hint [d Hd]] Hrest]. cbn [snd] in Hint, Hd.
    destruct (onmessage_plays sessionId now msg d st Hact Hint Hd)
      as [Hst [_ [Hn [Hc [Ha _]]]]].
    cbn [deliver fold_left fst snd plan]. rewrite Hd.
    fold (deliver sessionId rest (onmessage sessionId now msg st)).
    rewrite (IH _ Ha Hrest), Hst, Hn, Hc, <- app_assoc. reflexivity.
Qed.

Lemma plan_length sessionId chunks : forall id next,
  Forall (fun c => plays (snd c)) chunks ->
  length (plan sessionId id next chunks) = length chunks.
Proof.
  induction chunks as [|[now msg] rest IH]; intros id next Hall; [reflexivity|].
  inversion_clear Hall as [|? ? [_ [d Hd]] Hrest]. cbn [snd] in Hd.
  cbn [plan]. rewrite Hd. cbn [length]. now rewrite IH.
Qed.

Lemma plan_duration sessionId chunks : forall id next k now msg s,
  Forall (fun c => plays (snd c)) chunks ->
  nth_error chunks k = Some (now, msg) ->
  nth_error (plan sessionId id next chunks) k = Some s ->
  chunk_duration msg = Some (src_duration s) /\
  src_session s = sessionId /\ src_id s = (id + k)%nat.
Proof.
  induction chunks as [|[now0 msg0] rest IH]; intros id next k now msg s Hall Hk Hs.
  - destruct k; discriminate.
  - inversion_clear Hall as [|? ? [_ [d Hd]] Hrest]. cbn [snd] in Hd.
    cbn [plan] in Hs. rewrite Hd in Hs. destruct k as [|k].
    + cbn in Hk, Hs. injection Hk as -> ->. injection Hs as <-. cbn.
      rewrite Nat.add_0_r. now repeat split.
    + cbn [nth_error] in Hk, Hs.
      destruct (IH _ _ _ _ _ _ Hrest Hk Hs) as [H1 [H2 H3]].
      repeat split; try assumption. rewrite H3. lia.
Qed.

(** Each chunk starts at the end of the one before it, raised to the clock
    at which its own handler runs. *)
Lemma plan_consecutive sessionId chunks : forall id next k now msg s s',
  Forall (fun c => plays (snd c)) chunks ->
  nth_error chunks (S k) = Some (now, msg) ->
  nth_error (plan sessionId id next chunks) k = Some s ->
  nth_error (plan sessionId id next chunks) (S k) = Some s' ->
  src_when s' = Qmax (double (src_when s + src_duration s)) now.
Proof.
  induction chunks as [|[now0 msg0] rest IH];
    intros id next k now msg s s' Hall Hk Hs Hs'.
  - destruct k; discriminate.
  - inversion_clear Hall as [|? ? [_ [d Hd]] Hrest]. cbn [snd] in Hd.
    cbn [plan] in Hs, Hs'. rewrite Hd in Hs, Hs'. destruct k as [|k].
    + cbn [nth_error] in Hk, Hs, Hs'. injection Hs as <-. cbn [src_when src_duration].
      destruct rest as [|[now1 msg1] rest]; [discriminate|].
      inversion_clear Hrest as [|? ? [_ [d1 Hd1]] _]. cbn [snd] in Hd1.
      cbn in Hk. injection Hk as -> ->.
      cbn [plan] in Hs'. rewrite Hd1 in Hs'. cbn in Hs'. now injection Hs' as <-.
    + cbn [nth_error] in Hk, Hs, Hs'. eapply IH; eassumption.
Qed.

Lemma Qmax_left (x y : Q) : y <= x -> Qmax x y = x.
Proof.
  intro H. unfold Qmax, GenericMinMax.gmax.
  destruct (Qcompare x y) eqn:E; try reflexivity.
  rewrite <- Qlt_alt in E. exfalso. exact (Qlt_not_le _ _ E H).
Qed.

(** The buffer of a chunk lasts a positive time, at least half of one
    frame at 24000 frames a second. *)
Lemma chunk_buffer_lasts audio buffer :
  chunk_buffer audio = Some buffer -> 1 # 48000 <= duration buffer.
Proof.
  unfold chunk_buffer. intro H.
  destruct (decodeBase64 audio) as [data|]; [|discriminate].
  unfold decodePCM in H. destruct (int16s_of_bytes data) as [samples|]; [|discriminate].
  rewrite Nat.div_1_r in H.
  destruct (createBuffer_supports 1 (length samples) 24000) eqn:E; [|discriminate].
  cbn [negb] in H. injection H as <-.
  unfold duration. cbn [frames sampleRate].
  assert (Hn : (1 <= length samples)%nat).
  { unfold createBuffer_supports in E. destruct (length samples); [discriminate|lia]. }
  set (x := Z.of_nat (length samples) # 24000).
  assert (Hx : 1 # 24000 <= x) by (unfold x, Qle; cbn; lia).
  assert (Hsmall : pow2 (-1022) <= 1 # 24000) by (vm_compute; discriminate).
  assert (Hp : pow2 (-1022) <= x) by (eapply Qle_trans; eassumption).
  assert (Ha : Qabs x == x).
  { apply Qabs_pos. apply Qle_trans with (1 # 24000); [discriminate|exact Hx]. }
  pose proof (double_error x) as He. rewrite Ha in He. specialize (He Hp).
  apply Qabs_Qle_condition in He. destruct He as [He _].
  assert (Hh : x * pow2 (-53) <= x * (1 # 2)).
  { apply Qmult_le_l; [|vm_compute; discriminate].
    apply Qlt_le_trans with (1 # 24000); [reflexivity|exact Hx]. }
  lra.
Qed.

Lemma chunk_duration_positive msg d : chunk_duration msg = Some d -> 1 # 48000 <= d.
Proof.
  unfold chunk_duration. intro H.
  destruct (audioBase64 msg) as [audio|]; [|discriminate].
  destruct (truthy audio); [|discriminate].
  destruct (chunk_buffer audio) as [buffer|] eqn:E; [|discriminate].
  injection H as <-. exact (chunk_buffer_lasts audio buffer E).
Qed.

(** The starts of a plan are not negative when the cursor is not. *)
Lemma plan_nonneg sessionId chunks : forall id next k s,
  0 <= next ->
  nth_error (plan sessionId id next chunks) k = Some s ->
  0 <= src_when s.
Proof.
  induction chunks as [|[now0 msg0] rest IH]; intros id next k s Hn Hs.
  - destruct k; discriminate.
  - cbn [plan] in Hs. destruct (chunk_duration msg0) as [d|] eqn:Hd.
    + assert (Hm : 0 <= Qmax next now0)
        by (eapply Qle_trans; [exact Hn|apply Q.le_max_l]).
      destruct k as [|k].
      * cbn in Hs. injection Hs as <-. exact Hm.
      * cbn [nth_error] in Hs. refine (IH _ _ _ _ _ Hs).
        apply double_nonneg. apply chunk_duration_positive in Hd. lra.
    + now apply (IH _ _ _ _ Hn Hs).
Qed.

(** C1, as the code has it: for any sequence of audio chunks of one
    session, handled at arbitrary output-clock times, the scheduler starts
    as many sources as there are chunks, each with its chunk's duration.
    The cursor after chunk k-1 is the sum of its start and its duration as
    a Number, rounded to binary64: chunk k never starts before that
    cursor, and starts exactly at it whenever its handler runs before the
    clock has passed it.  The cursor is within the sum times 2^-53 of the
    sum of the two. *)
Theorem playback_cursor sessionId st chunks :
  activeSessionId st = Some sessionId ->
  0 <= nextStartTime st ->
  Forall (fun c => plays (snd c)) chunks ->
  exists scheduled,
    started (deliver sessionId chunks st) = started st ++ scheduled /\
    length scheduled = length chunks /\
    (forall k now msg s,
        nth_error chunks k = Some (now, msg) ->
        nth_error scheduled k = Some s ->
        chunk_duration msg = Some (src_duration s)) /\
    (forall k now msg s s',
        nth_error chunks (S k) = Some (now, msg) ->
        nth_error scheduled k = Some s ->
        nth_error scheduled (S k) = Some s' ->
        let cursor := double (src_when s + src_duration s) in
        cursor <= src_when s' /\
        (now <= cursor -> src_when s' = cursor) /\
        Qabs (cursor - (src_when s + src_duration s))
        <= (src_when s + src_duration s) * pow2 (-53)).
Proof.
  intros Hact Hnext Hall.
  exists (plan sessionId (created st) (nextStartTime st) chunks).
  split; [now apply deliver_plan|].
  split; [now apply plan_length|].
  split.
  - intros k now msg s Hk Hs.
    now destruct (plan_duration sessionId chunks _ _ k now msg s Hall Hk Hs).
  - intros k now msg s s' Hk Hs Hs' cursor. subst cursor.
    rewrite (plan_consecutive sessionId chunks _ _ k now msg s s' Hall Hk Hs Hs').
    split; [apply Q.le_max_l|]. split; [apply Qmax_left|].
    pose proof (plan_nonneg sessionId chunks _ _ k s Hnext Hs) as Hw.
    assert (Hd : 1 # 48000 <= src_duration s).
    { assert (Hlt : (k < length chunks)%nat).
      { apply Nat.lt_succ_l. apply nth_error_Some. congruence. }
      destruct (nth_error chunks k) as [[now0 msg0]|] eqn:Hk0;
        [|apply nth_error_None in Hk0; lia].
      destruct (plan_duration sessionId chunks _ _ k now0 msg0 s Hall Hk0 Hs)
        as [Hd _].
      now apply chunk_duration_positive in Hd. }
    set (x := src_when s + src_duration s) in *.
    assert (Hx : 1 # 48000 <= x) by (unfold x; lra).
    assert (Ha : Qabs x == x) by (apply Qabs_pos; lra).
    pose proof (double_error x) as He. rewrite Ha in He. apply He.
    apply Qle_trans with (1 # 48000); [vm_compute; discriminate|exact Hx].
Qed.

Lemma silence_plays : plays silence.
Proof. split; [reflexivity|]. exists (double (2 # 24000)). reflexivity. Defined.

Lemma playback_cursor_witness :
  activeSessionId live = Some 1%N /\
  0 <= nextStartTime live /\
  Forall (fun c => plays (snd c)) three_chunks /\
  exists scheduled,
    started (deliver 1%N three_chunks live) = started live ++ scheduled /\
    length scheduled = length three_chunks /\
    (forall k now msg s,
        nth_error three_chunks k = Some (now, msg) ->
        nth_error scheduled k = Some s ->
        chunk_duration msg = Some (src_duration s)) /\
    (forall k now msg s s',
        nth_error three_chunks (S k) = Some (now, msg) ->
        nth_error scheduled k = Some s ->
        nth_error scheduled (S k) = Some s' ->
        let cursor := double (src_when s + src_duration s) in
        cursor <= src_when s' /\
        (now <= cursor -> src_when s' = cursor) /\
        Qabs (cursor - (src_when s + src_duration s))
        <= (src_when s + src_duration s) * pow2 (-53)).
Proof.
  assert (H : Forall (fun c => plays (snd c)) three_chunks)
    by (unfold three_chunks;
        repeat (apply Forall_cons; [exact silence_plays|]); apply Forall_nil).
  assert (H0 : 0 <= nextStartTime live) by discriminate.
  split; [reflexivity|]. split; [exact H0|]. split; [exact H|].
  exact (playback_cursor 1%N live three_chunks eq_refl H0 H).
Defined.

(** C1 as stated fails: seven chunks of one frame each arrive before the
    clock has moved.  Each lasts the Number nearest to 1/24000, and the
    cursor is a sum of Numbers: the fifth chunk starts before the start of
    the fourth plus its duration, and so does the sixth after the fifth. *)
Lemma playback_gapless_counterexample :
  activeSessionId live = Some 1%N /\
  Forall (fun c => plays (snd c)) seven_chunks /\
  exists s4 s5 s6,
    nth_error (started (deliver 1%N seven_chunks live)) 3 = Some s4 /\
    nth_error (started (deliver 1%N seven_chunks live)) 4 = Some s5 /\
    nth_error (started (deliver 1%N seven_chunks live)) 5 = Some s6 /\
    src_when s5 < src_when s4 + src_duration s4 /\
    src_when s6 < src_when s5 + src_duration s5.
Proof.
  split; [reflexivity|]. split.
  - unfold seven_chunks. cbn [repeat].
    repeat (apply Forall_cons;
            [split; [reflexivity|eexists; vm_compute; reflexivity]|]).
    apply Forall_nil.
  - eexists. eexists. eexists.
    split; [vm_compute; reflexivity|]. split; [vm_compute; reflexivity|].
    split; [vm_compute; reflexivity|]. split; vm_compute; reflexivity.
Qed.

(** *** Teardown *)

(** Two states with the same fields are the same state. *)
Lemma state_ext (a b : State) :
  status a = status b -> isConnected a = isConnected b ->
  inputLevel a = inputLevel b ->
  inputTranscript a = inputTranscript b -> outputTranscript a = outputTranscript b ->
  detectedLang a = detectedLang b -> inputContext a = inputContext b ->
  outputContext a = outputContext b -> sources a = sources b ->
  nextStartTime a = nextStartTime b -> activeSessionId a = activeSessionId b ->
  mediaStream a = mediaStream b -> frameInterval a = frameInterval b ->
  created a = created b -> trace a = trace b -> a = b.
Proof. destruct a, b; cbn; intros; subst; reflexivity. Qed.

Lemma stop_sources_fold l : forall st,
  fold_left (fun acc s => emit (SourceStop s) acc) l st
  = fold_left (fun acc e => emit e acc) (map SourceStop l) st.
Proof. induction l as [|s l IH]; intro st; [reflexivity|apply IH]. Qed.

Lemma emit_all l : forall st,
  let st' := fold_left (fun acc e => emit e acc) l st in
  st' = {| status := status st; isConnected := isConnected st;
           inputLevel := inputLevel st;
           inputTranscript := inputTranscript st;
           outputTranscript := outputTranscript st;
           detectedLang := detectedLang st; inputContext := inputContext st;
           outputContext := outputContext st; sources := sources st;
           nextStartTime := nextStartTime st; activeSessionId := activeSessionId st;
           mediaStream := mediaStream st; frameInterval := frameInterval st;
           created := created st; trace := rev l ++ trace st |}.
Proof.
  induction l as [|e l IH]; intro st; cbn [fold_left].
  - now destruct st.
  - cbv zeta in IH. rewrite IH. cbn. now rewrite <- app_assoc.
Qed.

Lemma stop_all_eq st :
  stop_all st
  = {| status := status st; isConnected := isConnected st;
       inputLevel := inputLevel st;
       inputTranscript := inputTranscript st;
       outputTranscript := outputTranscript st;
       detectedLang := detectedLang st; inputContext := inputContext st;
       outputContext := outputContext st; sources := sources st;
       nextStartTime := nextStartTime st; activeSessionId := activeSessionId st;
       mediaStream := mediaStream st; frameInterval := frameInterval st;
       created := created st;
       trace := rev (map SourceStop (sources st)) ++ trace st |}.
Proof. unfold stop_all. rewrite stop_sources_fold. apply emit_all. Qed.

(** The part of [cleanup] that runs at once. *)
Lemma cleanup_sync_eq st :
  cleanup_sync st
  = {| status := status st; isConnected := isConnected st;
       inputLevel := inputLevel st;
       inputTranscript := inputTranscript st;
       outputTranscript := outputTranscript st;
       detectedLang := detectedLang st; inputContext := inputContext st;
       outputContext := outputContext st; sources := [];
       nextStartTime := nextStartTime st; activeSessionId := None;
       mediaStream := None; frameInterval := frameInterval st;
       created := created st; trace := teardown_effects st ++ trace st |}.
Proof.
  unfold cleanup_sync, teardown_effects. rewrite stop_all_eq.
  destruct st as [? ? ? ? ? ? ? ? srcs ? ? [m|] [t|] ? tr]; cbn;
    rewrite <- ?app_assoc; reflexivity.
Qed.

Lemma closed_sync c st : closed c (cleanup_sync st) = closed c st.
Proof.
  rewrite cleanup_sync_eq. unfold closed. cbn [trace].
  rewrite existsb_app. unfold teardown_effects. rewrite !existsb_app.
  replace (existsb _ (rev (map SourceStop (sources st)))) with false.
  - now destruct (mediaStream st), (frameInterval st).
  - symmetry. rewrite <- map_rev. induction (rev (sources st)); [reflexivity|assumption].
Qed.

Lemma closed_close c st : closed c (emit (ContextClose c) st) = true.
Proof. unfold closed. cbn [emit trace existsb]. now rewrite Nat.eqb_refl. Qed.

Lemma closed_close_other c c' st :
  c' <> c -> closed c (emit (ContextClose c') st) = closed c st.
Proof.
  intro H. unfold closed. cbn [emit trace existsb].
  now rewrite (proj2 (Nat.eqb_neq c' c) H).
Qed.

(** A call of [cleanup] during which nothing else runs, where the contexts
    can be closed, returns. *)
Lemma cleanup_settle_open st :
  contexts_open st ->
  cleanup_settle st
  = ({| status := status st; isConnected := false;
        inputLevel := inputLevel st;
        inputTranscript := inputTranscript st;
        outputTranscript := outputTranscript st;
        detectedLang := detectedLang st; inputContext := None;
        outputContext := None; sources := [];
        nextStartTime := nextStartTime st; activeSessionId := None;
        mediaStream := None; frameInterval := frameInterval st;
        created := created st; trace := cleanup_effects st ++ trace st |}, true).
Proof.
  intros [Hi [Ho Hd]]. unfold cleanup_settle, cleanup_begin, cleanup_input.
  pose proof (closed_sync) as Hcs.
  assert (Ei : inputContext (cleanup_sync st) = inputContext st)
    by now rewrite cleanup_sync_eq.
  assert (Eo : outputContext (cleanup_sync st) = outputContext st)
    by now rewrite cleanup_sync_eq.
  rewrite Ei. destruct (inputContext st) as [i|] eqn:Hin.
  - rewrite Hcs, (Hi i eq_refl). unfold cleanup_output. cbn [emit outputContext].
    rewrite Eo. destruct (outputContext st) as [o|] eqn:Hout.
    + rewrite closed_close_other by (intro E; apply (Hd i o eq_refl eq_refl); congruence).
      rewrite Hcs, (Ho o eq_refl). rewrite cleanup_sync_eq.
      unfold cleanup_effects. rewrite Hin, Hout. reflexivity.
    + rewrite cleanup_sync_eq. unfold cleanup_effects. rewrite Hin, Hout.
      reflexivity.
  - unfold cleanup_output. rewrite Eo. destruct (outputContext st) as [o|] eqn:Hout.
    + rewrite Hcs, (Ho o eq_refl). rewrite cleanup_sync_eq.
      unfold cleanup_effects. rewrite Hin, Hout. reflexivity.
    + rewrite cleanup_sync_eq. unfold cleanup_effects. rewrite Hin, Hout.
      reflexivity.
Qed.

Lemma cleanup_eq st :
  contexts_open st ->
  cleanup st
  = {| status := status st; isConnected := false;
       inputLevel := inputLevel st;
       inputTranscript := inputTranscript st;
       outputTranscript := outputTranscript st;
       detectedLang := detectedLang st; inputContext := None;
       outputContext := None; sources := [];
       nextStartTime := nextStartTime st; activeSessionId := None;
       mediaStream := None; frameInterval := frameInterval st;
       created := created st; trace := cleanup_effects st ++ trace st |}.
Proof. intro H. unfold cleanup. now rewrite (cleanup_settle_open st H). Qed.

(** What holds after each part of [cleanup] and [connect] holds after the
    calls made of them. *)
Lemma teardown_parts (P : State -> Prop) :
  (forall s, P s -> P (cleanup_sync s)) ->
  (forall s c, P s -> P (emit (ContextClose c) s)) ->
  (forall s, P s -> P (cleanup_end s)) ->
  forall st, P st ->
    P (fst (cleanup_output st)) /\ P (fst (cleanup_input st)) /\
    P (fst (cleanup_begin st)) /\ P (fst (cleanup_settle st)).
Proof.
  intros Hs Hc He.
  assert (Hout : forall st, P st -> P (fst (cleanup_output st))).
  { intros st H. unfold cleanup_output. destruct (outputContext st); cbn [fst]; auto. }
  assert (Hin : forall st, P st -> P (fst (cleanup_input st))).
  { intros st H. unfold cleanup_input. destruct (inputContext st); cbn [fst]; auto. }
  assert (Hb : forall st, P st -> P (fst (cleanup_begin st))).
  { intros st H. unfold cleanup_begin. auto. }
  intros st H. split; [auto|]. split; [auto|]. split; [auto|].
  unfold cleanup_settle. specialize (Hb st H).
  destruct (cleanup_begin st) as [st1 p]. cbn [fst] in Hb.
  destruct p as [| |[|]]; cbn [fst]; auto.
  specialize (Hout st1 Hb). destruct (cleanup_output st1) as [st2 p2].
  cbn [fst] in Hout. destruct p2; cbn [fst]; auto.
Qed.

Lemma session_steps (P : State -> Prop) :
  (forall s, P s -> P (cleanup_sync s)) ->
  (forall s c, P s -> P (emit (ContextClose c) s)) ->
  (forall s, P s -> P (cleanup_end s)) ->
  (forall s sessionId constructed, P s -> P (connect_token sessionId constructed s)) ->
  (forall s, P s -> P (connect_failed s)) ->
  (forall s i o, P s -> P (connect_contexts i o s)) ->
  forall st e, session_event e = true -> P st -> P (step st e).
Proof.
  intros Hs Hc He Ht Hf Hx st e Hev H.
  destruct (teardown_parts P Hs Hc He st H) as [Hout [Hin [Hb Hse]]].
  destruct e; try discriminate Hev; cbn [step]; auto.
  unfold connect. destruct (cleanup_settle st) as [st1 [|]]; cbn [fst] in Hse; auto.
Qed.

(** C8 fails on the code when a call of [cleanup] comes while an earlier one
    waits for [close()].  Where no context is stored, [cleanup] returns at
    once with the session released, and a second call changes nothing (it
    only clears the frame timer once more); so does a call that follows a
    call that has run to its end.  But a call with contexts in place waits
    for [input.close()] with the contexts still stored and the connected
    flag as it was; a second call made then calls [close()] on the input
    context again, which is rejected, and throws; a [connect] that made
    this second call stops there and installs no session. *)
Theorem cleanup_overlaps :
  (forall st,
      inputContext st = None -> outputContext st = None ->
      let st1 := cleanup_end (cleanup_sync st) in
      cleanup_begin st = (st1, Returned) /\
      session_state st1 = (None, None, [], None, None, false) /\
      cleanup_begin st1
      = (match frameInterval st with
         | Some t => emit (ClearInterval t) st1
         | None => st1
         end, Returned)) /\
  (forall st,
      contexts_open st ->
      cleanup_settle st = (cleanup st, true) /\
      session_state (cleanup st) = (None, None, [], None, None, false) /\
      cleanup_settle (cleanup st)
      = (match frameInterval st with
         | Some t => emit (ClearInterval t) (cleanup st)
         | None => cleanup st
         end, true)) /\
  (forall st i,
      inputContext st = Some i -> closed i st = false ->
      let st1 := emit (ContextClose i) (cleanup_sync st) in
      cleanup_begin st = (st1, Waiting InputClose) /\
      inputContext st1 = Some i /\ outputContext st1 = outputContext st /\
      isConnected st1 = isConnected st /\
      cleanup_begin st1 = (emit (ContextClose i) (cleanup_sync st1), Thrown) /\
      cleanup_settle st1 = (emit (ContextClose i) (cleanup_sync st1), false) /\
      forall sessionId inputCtx outputCtx,
        connect sessionId inputCtx outputCtx st1
        = emit (ContextClose i) (cleanup_sync st1) /\
        activeSessionId (connect sessionId inputCtx outputCtx st1) = None) /\
  (inputContext playing = Some 1%nat /\ closed 1%nat playing = false /\
   isConnected playing = true /\
   snd (cleanup_begin playing) = Waiting InputClose /\
   snd (cleanup_begin (fst (cleanup_begin playing))) = Thrown /\
   trace overlapped
   = [ContextClose 2%nat; ContextClose 1%nat; ClearInterval 1%positive;
      ContextClose 1%nat] ++ trace (cleanup_sync playing) /\
   session_state overlapped = (None, None, [], None, None, false) /\
   activeSessionId
     (run [CleanupBegin; Connect 2%N 3%nat 4%nat; CleanupInputClosed;
           CleanupOutputClosed] playing) = None).
Proof.
  split; [|split; [|split]].
  - intros st Hi Ho st1. subst st1.
    assert (E1 : cleanup_begin st = (cleanup_end (cleanup_sync st), Returned)).
    { unfold cleanup_begin, cleanup_input, cleanup_output.
      rewrite cleanup_sync_eq. cbn [inputContext outputContext]. now rewrite Hi, Ho. }
    split; [exact E1|]. split.
    { rewrite cleanup_sync_eq. reflexivity. }
    unfold cleanup_begin, cleanup_input, cleanup_output.
    rewrite !cleanup_sync_eq. cbn. unfold teardown_effects. cbn.
    destruct (frameInterval st); reflexivity.
  - intros st Hopen. rewrite (cleanup_eq st Hopen).
    split; [apply (cleanup_settle_open st Hopen)|]. split; [reflexivity|].
    match goal with
    | |- cleanup_settle ?s = _ =>
        assert (Hopen' : contexts_open s) by (repeat split; cbn; intros; discriminate);
        rewrite (cleanup_settle_open s Hopen')
    end.
    unfold cleanup_effects, teardown_effects. cbn.
    destruct (frameInterval st); reflexivity.
  - intros st i Hi Hc st1. subst st1.
    assert (Ei : inputContext (cleanup_sync st) = Some i)
      by (rewrite cleanup_sync_eq; exact Hi).
    assert (E1 : cleanup_begin st
                 = (emit (ContextClose i) (cleanup_sync st), Waiting InputClose)).
    { unfold cleanup_begin, cleanup_input. now rewrite Ei, closed_sync, Hc. }
    set (st1 := emit (ContextClose i) (cleanup_sync st)) in *.
    assert (Ei1 : inputContext (cleanup_sync st1) = Some i)
      by (rewrite cleanup_sync_eq; exact Ei).
    assert (E2 : cleanup_begin st1
                 = (emit (ContextClose i) (cleanup_sync st1), Thrown)).
    { unfold cleanup_begin, cleanup_input. rewrite Ei1, closed_sync.
      unfold st1. now rewrite closed_close. }
    split; [exact E1|]. split; [exact Ei|].
    split; [unfold st1; now rewrite cleanup_sync_eq|].
    split; [unfold st1; now rewrite cleanup_sync_eq|].
    split; [exact E2|].
    assert (E3 : cleanup_settle st1
                 = (emit (ContextClose i) (cleanup_sync st1), false))
      by (unfold cleanup_settle; now rewrite E2).
    split; [exact E3|]. intros sessionId inputCtx outputCtx.
    unfold connect. rewrite E3. split; [reflexivity|].
    now rewrite cleanup_sync_eq.
  - split; [vm_compute; reflexivity|]. split; [vm_compute; reflexivity|].
    split; [vm_compute; reflexivity|]. split; [vm_compute; reflexivity|].
    split; [vm_compute; reflexivity|]. split; [vm_compute; reflexivity|].
    split; vm_compute; reflexivity.
Qed.

(** *** Every started source is accounted for *)

Lemma started_in_app l tr : started_in (l ++ tr) = started_in tr ++ started_in l.
Proof. unfold started_in. now rewrite flat_map_app, rev_app_distr. Qed.

Lemma started_in_stops l : started_in (rev (map SourceStop l)) = [].
Proof.
  unfold started_in. rewrite <- map_rev.
  induction (rev l) as [|s r IH]; [reflexivity|exact IH].
Qed.

Lemma started_in_teardown_effects st : started_in (teardown_effects st) = [].
Proof.
  unfold teardown_effects. rewrite !started_in_app, started_in_stops.
  destruct (mediaStream st), (frameInterval st); reflexivity.
Qed.

Lemma accounted_event e evs st : accounted evs st -> accounted (e :: evs) st.
Proof.
  intros [H1 [H2 H3]]. repeat split; try assumption.
  intros s Hs. destruct (H3 s Hs) as [H|[H|H]]; auto.
  right; right; now right.
Qed.

Lemma accounted_quiet evs st st' :
  accounted evs st ->
  started st' = started st -> sources st' = sources st ->
  created st' = created st ->
  (forall e, In e (trace st) -> In e (trace st')) ->
  accounted evs st'.
Proof.
  intros [H1 [H2 H3]] Hst Hso Hc Htr. unfold accounted.
  rewrite Hst, Hso, Hc. repeat split; try assumption.
  intros s Hs. destruct (H3 s Hs) as [H|[H|H]]; auto.
Qed.

Lemma accounted_flush evs st st' :
  accounted evs st ->
  started st' = started st -> created st' = created st ->
  (forall e, In e (trace st) -> In e (trace st')) ->
  (forall s, In s (sources st) -> In (SourceStop s) (trace st')) ->
  accounted evs st'.
Proof.
  intros [H1 [H2 H3]] Hst Hc Htr Hstop. unfold accounted.
  rewrite Hst, Hc. repeat split; try assumption.
  intros s Hs. destruct (H3 s Hs) as [H|[H|H]]; auto.
Qed.

Lemma accounted_start evs st st' s :
  accounted evs st ->
  src_id s = created st ->
  started st' = started st ++ [s] -> sources st' = sources st ++ [s] ->
  created st' = S (created st) ->
  (forall e, In e (trace st) -> In e (trace st')) ->
  accounted evs st'.
Proof.
  intros [H1 [H2 H3]] Hid Hst Hso Hc Htr. unfold accounted.
  rewrite Hst, Hso, Hc. repeat split.
  - intros x Hx. apply in_app_or in Hx. destruct Hx as [Hx|[<-|[]]].
    + specialize (H1 x Hx). lia.
    + lia.
  - intros x y Hx Hy E. apply in_app_or in Hx. apply in_app_or in Hy.
    destruct Hx as [Hx|[<-|[]]], Hy as [Hy|[<-|[]]].
    + now apply H2.
    + specialize (H1 x Hx). lia.
    + specialize (H1 y Hy). lia.
    + reflexivity.
  - intros x Hx. apply in_app_or in Hx. destruct Hx as [Hx|[<-|[]]].
    + destruct (H3 x Hx) as [H|[H|H]]; auto.
      left. apply in_or_app. now left.
    + left. apply in_or_app. right. now left.
Qed.

Lemma accounted_ended evs st s :
  accounted evs st -> In s (started st) ->
  accounted (OnEnded s :: evs) (onended s st).
Proof.
  intros [H1 [H2 H3]] Hs.
  assert (Hf : forall st0 : State,
             started (match sources st0 with
                      | [] => setStatus listening st0 | _ :: _ => st0 end)
             = started st0 /\
             created (match sources st0 with
                      | [] => setStatus listening st0 | _ :: _ => st0 end)
             = created st0 /\
             trace (match sources st0 with
                    | [] => setStatus listening st0 | _ :: _ => st0 end)
             = trace st0 /\
             sources (match sources st0 with
                      | [] => setStatus listening st0 | _ :: _ => st0 end)
             = sources st0).
  { intro st0. destruct (sources st0) eqn:E; cbn; rewrite ?E; now repeat split. }
  unfold onended, accounted.
  destruct (Hf (setSources
                  (filter (fun x => negb (src_id x =? src_id s)%nat) (sources st)) st))
    as [-> [-> [-> ->]]].
  cbn [setSources started trace created sources]. fold (started st).
  repeat split; try assumption.
  intros x Hx. destruct (Nat.eqb_spec (src_id x) (src_id s)) as [E|E].
  - right; right. left. f_equal. symmetry. now apply H2.
  - destruct (H3 x Hx) as [H|[H|H]]; auto.
    + left. apply filter_In. split; [assumption|].
      apply negb_true_iff. now apply Nat.eqb_neq.
    + right; right. now right.
Qed.

Lemma in_stops s l tr : In s l -> In (SourceStop s) (rev (map SourceStop l) ++ tr).
Proof.
  intro H. apply in_or_app. left. rewrite <- in_rev. now apply in_map.
Qed.

Lemma accounted_cleanup_sync evs st :
  accounted evs st -> accounted evs (cleanup_sync st).
Proof.
  intro H. apply (accounted_flush evs st); try assumption;
    rewrite cleanup_sync_eq; unfold started; cbn [trace created].
  - now rewrite started_in_app, started_in_teardown_effects, app_nil_r.
  - reflexivity.
  - intros e He. apply in_or_app. now right.
  - intros s Hs. apply in_or_app. left. unfold teardown_effects.
    now apply in_stops.
Qed.

(** The parts of [cleanup] and [connect] start no source and stop the ones
    they drop. *)
Lemma accounted_session evs st e :
  session_event e = true -> accounted evs st -> accounted evs (step st e).
Proof.
  apply (session_steps (accounted evs)).
  - apply accounted_cleanup_sync.
  - intros s c H. apply (accounted_quiet evs s); try assumption; try reflexivity.
    intros e' He. now right.
  - intros s H. apply (accounted_quiet evs s); try assumption; try reflexivity; auto.
  - intros s sessionId constructed H. unfold connect_token.
    destruct constructed;
      apply (accounted_quiet evs s); try assumption; try reflexivity; auto.
  - intros s H. apply (accounted_quiet evs s); try assumption; try reflexivity; auto.
  - intros s i o H. apply (accounted_quiet evs s); try assumption; try reflexivity; auto.
Qed.

Lemma on_interrupted_true msg st :
  interrupted msg = true ->
  on_interrupted msg st
  = setStatus listening (setNextStartTime 0 (setSources [] (stop_all st))).
Proof. intro H. unfold on_interrupted. now rewrite H. Qed.

Lemma accounted_on_interrupted evs msg st :
  accounted evs st -> accounted evs (on_interrupted msg st).
Proof.
  intro H. unfold on_interrupted. destruct (interrupted msg); [|assumption].
  apply (accounted_flush evs st); try assumption;
    rewrite stop_all_eq; unfold started; cbn [trace created setStatus setNextStartTime setSources].
  - now rewrite started_in_app, started_in_stops, app_nil_r.
  - reflexivity.
  - intros e He. apply in_or_app. now right.
  - intros s Hs. now apply in_stops.
Qed.

Lemma accounted_on_audio evs sessionId now msg st :
  accounted evs st -> accounted evs (on_audio sessionId now msg st).
Proof.
  intro H. unfold on_audio.
  destruct (audioBase64 msg) as [audio|]; [|now apply accounted_on_interrupted].
  destruct (truthy audio); [|now apply accounted_on_interrupted].
  destruct (chunk_buffer audio) as [buffer|].
  - apply accounted_on_interrupted.
    apply (accounted_start evs st _
             {| src_id := created st; src_session := sessionId;
                src_duration := duration buffer;
                src_when := Qmax (nextStartTime st) now |});
      try assumption; try reflexivity.
    intros e He. now right.
  - apply (accounted_quiet evs st); try assumption; try reflexivity. auto.
Qed.

Lemma accounted_onmessage evs sessionId now msg st :
  accounted evs st -> accounted evs (onmessage sessionId now msg st).
Proof.
  intro H. unfold onmessage. destruct (superseded sessionId st); [assumption|].
  apply accounted_on_audio.
  destruct (on_transcripts_playback msg st) as [Htr [_ [Hc [_ [Hs _]]]]].
  apply (accounted_quiet evs st); try assumption.
  - unfold started. now rewrite Htr.
  - intros e He. now rewrite Htr.
Qed.

Lemma reaches_accounted evs st : reaches evs st -> accounted evs st.
Proof.
  induction 1 as [|evs st e _ IH Hadm].
  - unfold accounted. cbn. repeat split; intros; contradiction.
  - destruct (session_event e) eqn:Hev.
    { apply accounted_event. now apply accounted_session. }
    destruct e; try discriminate Hev; cbn [step];
      lazymatch goal with
      | |- accounted (OnEnded _ :: _) _ => idtac
      | _ => apply accounted_event
      end.
    + (* connect_resume *)
      unfold connect_resume. destruct stream as [m|].
      * destruct (superseded sessionId st);
          apply (accounted_quiet evs st); try assumption; try reflexivity; auto.
        intros e He. now right.
      * apply (accounted_quiet evs st); try assumption; try reflexivity; auto.
    + (* onopen *)
      unfold onopen. destruct (superseded sessionId st); [assumption|].
      destruct mode; apply (accounted_quiet evs st);
        try assumption; try reflexivity; auto.
      intros e He. now right.
    + (* onaudioprocess *)
      unfold onaudioprocess. destruct (superseded sessionId st); [assumption|].
      destruct (encodeBase64 (pcm16 inputData));
        apply (accounted_quiet evs st); try assumption; try reflexivity; auto.
      intros e He. now right.
    + (* frame_tick *)
      unfold frame_tick. destruct (superseded sessionId st); [assumption|].
      unfold canvasRef. now destruct (video page).
    + (* frame_encoded *)
      unfold frame_encoded. destruct blob; [|assumption].
      apply (accounted_quiet evs st); try assumption; try reflexivity.
      intros e He. now right.
    + now apply accounted_onmessage.
    + (* onended *)
      exact (accounted_ended evs st source IH Hadm).
    + apply (accounted_quiet evs st); try assumption; try reflexivity; auto.
    + apply (accounted_quiet evs st); try assumption; try reflexivity; auto.
Qed.

(** *** Interruption *)

(** The audio part of an interrupting message that does not throw ends in
    the flush of some state that holds every source of the set. *)
Lemma on_audio_interrupted sessionId now msg st :
  interrupted msg = true -> audio_throws msg = false ->
  exists mid,
    on_audio sessionId now msg st
    = setStatus listening (setNextStartTime 0 (setSources [] (stop_all mid))) /\
    (forall s, In s (sources st) -> In s (sources mid)) /\
    activeSessionId mid = activeSessionId st.
Proof.
  intros Hint Hth. unfold on_audio, audio_throws in *.
  destruct (audioBase64 msg) as [audio|].
  - destruct (truthy audio).
    + destruct (chunk_buffer audio) as [buffer|]; [|discriminate].
      eexists. split; [apply (on_interrupted_true _ _ Hint)|].
      split; [|reflexivity]. intros s Hs. cbn. apply in_or_app. now left.
    + exists st. split; [apply (on_interrupted_true _ _ Hint)|]. now split.
  - exists st. split; [apply (on_interrupted_true _ _ Hint)|]. now split.
Qed.

Lemma reaches_live : reaches live_events live.
Proof.
  exact (@reaches_step _ _ (OnOpen 1%N vision 1%positive)
           (@reaches_step _ _ (ConnectResume 1%N (Some 1%nat))
              (@reaches_step _ _ (Connect 1%N 1%nat 2%nat) reaches_initial I) I) I).
Defined.

Lemma reaches_playing : reaches playing_events playing.
Proof. exact (@reaches_step _ _ (OnMessage 1%N 0 silence) reaches_live I). Defined.

(** C2, as the code has it: when a message with the interruption signal is
    handled for the active session, and its audio part (if any) decodes,
    [stop()] is called on every source of the Active Source Set, the set
    becomes empty, [nextStartTime] is reset to 0, the status becomes
    [listening], and every source started so far has been stopped or has
    ended; the next chunk then starts at the larger of 0 and the output
    clock of its own handler. *)
Theorem interruption_flushes evs st sessionId now msg :
  reaches evs st ->
  activeSessionId st = Some sessionId ->
  interrupted msg = true -> audio_throws msg = false ->
  let st' := onmessage sessionId now msg st in
  (forall s, In s (sources st) -> In (SourceStop s) (trace st')) /\
  sources st' = [] /\
  nextStartTime st' = 0 /\
  status st' = listening /\
  (forall s, In s (started st') ->
             In (SourceStop s) (trace st') \/ In (OnEnded s) evs) /\
  (forall now' msg' d,
      interrupted msg' = false -> chunk_duration msg' = Some d ->
      exists s,
        started (onmessage sessionId now' msg' st') = started st' ++ [s] /\
        src_when s = Qmax 0 now').
Proof.
  intros Hreach Hact Hint Hth st'.
  pose proof (accounted_onmessage evs sessionId now msg st
                (reaches_accounted evs st Hreach)) as [_ [_ Hacc]].
  fold st' in Hacc.
  destruct (on_transcripts_playback msg st) as [_ [_ [_ [Ha [Hs _]]]]].
  destruct (on_audio_interrupted sessionId now msg (on_transcripts msg st) Hint Hth)
    as [mid [E [Hin Hmid]]].
  assert (Est : st' = setStatus listening
                        (setNextStartTime 0 (setSources [] (stop_all mid)))).
  { unfold st', onmessage. now rewrite (superseded_active _ _ Hact). }
  clearbody st'. subst st'. rewrite stop_all_eq in *.
  cbn [setStatus setNextStartTime setSources sources nextStartTime status trace
       activeSessionId] in *.
  split; [intros s Hin'; apply in_stops, Hin; now rewrite Hs|].
  split; [reflexivity|]. split; [reflexivity|]. split; [reflexivity|].
  split.
  - intros s Hstart. destruct (Hacc s Hstart) as [[]|H]. exact H.
  - intros now' msg' d Hint' Hd.
    match goal with
    | |- context [onmessage _ _ _ ?s] =>
        assert (Hact' : activeSessionId s = Some sessionId)
          by (cbn; now rewrite Hmid, Ha);
        destruct (onmessage_plays sessionId now' msg' d s Hact' Hint' Hd) as [H _]
    end.
    eexists. split; [exact H|]. reflexivity.
Qed.

Lemma interruption_flushes_witness :
  let st' := onmessage 1%N (1 # 100) interruption playing in
  (forall s, In s (sources playing) -> In (SourceStop s) (trace st')) /\
  sources st' = [] /\
  nextStartTime st' = 0 /\
  status st' = listening /\
  (forall s, In s (started st') ->
             In (SourceStop s) (trace st') \/ In (OnEnded s) playing_events) /\
  (forall now' msg' d,
      interrupted msg' = false -> chunk_duration msg' = Some d ->
      exists s,
        started (onmessage 1%N now' msg' st') = started st' ++ [s] /\
        src_when s = Qmax 0 now').
Proof.
  exact (interruption_flushes playing_events playing 1%N (1 # 100) interruption
           reaches_playing eq_refl eq_refl eq_refl).
Defined.

(** C2 as stated fails: a session that plays a chunk is interrupted at
    output-clock time 1/100; the cursor is then 0 and not 1/100. *)
Lemma interruption_cursor_counterexample :
  let st' := onmessage 1%N (1 # 100) interruption playing in
  activeSessionId playing = Some 1%N /\
  sources playing <> [] /\
  interrupted interruption = true /\
  sources st' = [] /\ status st' = listening /\
  ~ nextStartTime st' == 1 # 100.
Proof.
  cbv zeta. repeat split; try discriminate.
Qed.

(** *** The session token *)

(** The callbacks that compare the token do nothing once it has changed. *)
Lemma guarded_callbacks_noop sessionId st :
  superseded sessionId st = true ->
  (forall mode timer, onopen sessionId mode timer st = st) /\
  (forall inputData, onaudioprocess sessionId inputData st = st) /\
  (forall page, frame_tick sessionId page st = st) /\
  (forall now msg, onmessage sessionId now msg st = st).
Proof.
  intro H. unfold onopen, onaudioprocess, frame_tick, onmessage.
  rewrite H. now repeat split.
Qed.

(** A [connect] during which nothing else runs, on contexts that can be
    closed, leaves one session: the token is the new one, and the stream and
    the contexts of the first were stopped and closed. *)
Lemma connect_supersedes sessionId inputCtx outputCtx st :
  contexts_open st ->
  let st' := connect sessionId inputCtx outputCtx st in
  activeSessionId st' = Some sessionId /\
  status st' = connecting /\
  mediaStream st' = None /\ sources st' = [] /\ isConnected st' = false /\
  inputContext st' = Some inputCtx /\ outputContext st' = Some outputCtx /\
  (forall old, old <> sessionId -> superseded old st' = true) /\
  (forall m, mediaStream st = Some m -> In (TrackStop m) (trace st')) /\
  (forall c, inputContext st = Some c -> In (ContextClose c) (trace st')) /\
  (forall c, outputContext st = Some c -> In (ContextClose c) (trace st')) /\
  (forall s, In s (sources st) -> In (SourceStop s) (trace st')) /\
  nextStartTime st' = nextStartTime st.
Proof.
  intro Hopen. unfold connect. rewrite (cleanup_settle_open st Hopen).
  cbn. repeat split.
  - intros old Hne. unfold superseded. cbn.
    apply negb_true_iff, N.eqb_neq. congruence.
  - intros m Hm. unfold cleanup_effects, teardown_effects.
    rewrite Hm, !in_app_iff. cbn. tauto.
  - intros c Hc. unfold cleanup_effects. rewrite Hc, !in_app_iff. cbn. tauto.
  - intros c Hc. unfold cleanup_effects. rewrite Hc, !in_app_iff. cbn. tauto.
  - intros s Hs. unfold cleanup_effects, teardown_effects. rewrite !in_app_iff.
    left; right; right; left. rewrite <- in_rev. now apply in_map.
Qed.

(** C3 fails on the code at [onerror], [onclose] and [source.onended],
    which do not compare the token; nor does the callback of [toBlob].
    After a second [connect] the token is the second one and the first
    session's stream and contexts are stopped and closed, and the first
    session's [onopen], [onaudioprocess], timer callback and [onmessage] do
    nothing; but its [onerror] sets the status to [error], its [onclose]
    clears [isConnected], and the [ended] event of its source moves a
    connecting session to [listening].  The callback of [toBlob] would send
    its frame too; as no canvas is mounted it is never made. *)
Theorem stale_callbacks_mutate :
  activeSessionId reconnected = Some 2%N /\
  status reconnected = listening /\ isConnected reconnected = true /\
  In (TrackStop 1%nat) (trace reconnected) /\
  In (ContextClose 1%nat) (trace reconnected) /\
  In (ContextClose 2%nat) (trace reconnected) /\
  step reconnected (OnOpen 1%N vision 9%positive) = reconnected /\
  step reconnected (OnAudioProcess 1%N [1 # 2]) = reconnected /\
  step reconnected (FrameTick 1%N ready_page) = reconnected /\
  step reconnected (OnMessage 1%N 0 silence) = reconnected /\
  status (step reconnected (OnError 1%N)) = error /\
  isConnected (step reconnected (OnClose 1%N)) = false /\
  trace (step reconnected (FrameEncoded 1%N (Some (lit "/9j/"))))
  = SendImage 1%N (lit "/9j/") (lit "image/jpeg") :: trace reconnected /\
  status (step playing (Connect 2%N 3%nat 4%nat)) = connecting /\
  status (step (step playing (Connect 2%N 3%nat 4%nat)) (OnEnded first_source))
  = listening.
Proof. repeat split; vm_compute; auto. Qed.

(** *** The error status *)

Lemma onmessage_text_only sessionId now msg st :
  text_only msg = true -> status (onmessage sessionId now msg st) = status st.
Proof.
  intro H. unfold onmessage. destruct (superseded sessionId st); [reflexivity|].
  destruct (on_transcripts_playback msg st) as [_ [_ [_ [_ [_ Hst]]]]].
  unfold text_only in H. apply andb_prop in H. destruct H as [Ha Hi].
  apply negb_true_iff in Hi. unfold on_audio, on_interrupted. rewrite Hi.
  destruct (audioBase64 msg) as [audio|]; [|exact Hst].
  apply negb_true_iff in Ha. now rewrite Ha.
Qed.

Lemma deliver_text_only sessionId msgs : forall st,
  Forall (fun c => text_only (snd c) = true) msgs ->
  status (deliver sessionId msgs st) = status st.
Proof.
  induction msgs as [|[now msg] rest IH]; intros st Hall; [reflexivity|].
  inversion_clear Hall as [|? ? Hm Hrest]. cbn [deliver fold_left fst snd].
  fold (deliver sessionId rest (onmessage sessionId now msg st)).
  rewrite (IH _ Hrest). now apply onmessage_text_only.
Qed.

(** Whatever the state and the session, a stream error sets the status to
    [error], and changes nothing else. *)
Lemma onerror_sets_error st sessionId :
  step st (OnError sessionId) = setStatus error st /\
  status (step st (OnError sessionId)) = error.
Proof. now split. Qed.

(** C5, as the code has it: a stream error sets the status to [error]; the
    status then stays [error] under transcript deltas and turn-complete
    markers and under a source-ended callback that leaves the source set
    non-empty.  An audio chunk of the active session sets it to [speaking],
    an interruption or a source-ended callback that empties the set to
    [listening], and [connect] to [connecting]: when its teardown has
    settled and it draws its token, and so at the end of a call during
    which nothing else runs, on contexts that can be closed. *)
Theorem error_until_next_status_event st :
  status st = error ->
  (forall sessionId, status (step st (OnError sessionId)) = error) /\
  (forall sessionId msgs,
      Forall (fun c => text_only (snd c) = true) msgs ->
      status (deliver sessionId msgs st) = error) /\
  (forall s,
      filter (fun x => negb (src_id x =? src_id s)%nat) (sources st) <> [] ->
      status (step st (OnEnded s)) = error) /\
  (forall sessionId now msg d,
      activeSessionId st = Some sessionId ->
      interrupted msg = false -> chunk_duration msg = Some d ->
      status (step st (OnMessage sessionId now msg)) = speaking) /\
  (forall sessionId now msg,
      activeSessionId st = Some sessionId ->
      interrupted msg = true -> audio_throws msg = false ->
      status (step st (OnMessage sessionId now msg)) = listening) /\
  (forall s,
      filter (fun x => negb (src_id x =? src_id s)%nat) (sources st) = [] ->
      status (step st (OnEnded s)) = listening) /\
  (forall sessionId,
      status (step st (ConnectToken sessionId true)) = connecting) /\
  (forall sessionId inputCtx outputCtx,
      contexts_open st ->
      status (step st (Connect sessionId inputCtx outputCtx)) = connecting).
Proof.
  intro Herr. split; [reflexivity|].
  split; [intros; now rewrite deliver_text_only|].
  split.
  { intros s Hne. cbn [step]. unfold onended. cbn [setSources sources].
    destruct (filter _ (sources st)); [now destruct Hne|exact Herr]. }
  split.
  { intros sessionId now msg d Hact Hint Hd. cbn [step].
    now destruct (onmessage_plays sessionId now msg d st Hact Hint Hd)
      as [_ [_ [_ [_ [_ H]]]]]. }
  split.
  { intros sessionId now msg Hact Hint Hth. cbn [step]. unfold onmessage.
    rewrite (superseded_active _ _ Hact).
    destruct (on_audio_interrupted sessionId now msg (on_transcripts msg st)
                Hint Hth) as [mid [E _]].
    now rewrite E. }
  split.
  { intros s He. cbn [step]. unfold onended. cbn [setSources sources].
    now rewrite He. }
  split; [reflexivity|].
  intros sessionId inputCtx outputCtx Hopen.
  now destruct (connect_supersedes sessionId inputCtx outputCtx st Hopen)
    as [_ [H _]].
Qed.

Lemma error_until_next_status_event_witness :
  status errored = error /\
  (forall sessionId, status (step errored (OnError sessionId)) = error) /\
  (forall sessionId msgs,
      Forall (fun c => text_only (snd c) = true) msgs ->
      status (deliver sessionId msgs errored) = error) /\
  (forall s,
      filter (fun x => negb (src_id x =? src_id s)%nat) (sources errored) <> [] ->
      status (step errored (OnEnded s)) = error) /\
  (forall sessionId now msg d,
      activeSessionId errored = Some sessionId ->
      interrupted msg = false -> chunk_duration msg = Some d ->
      status (step errored (OnMessage sessionId now msg)) = speaking) /\
  (forall sessionId now msg,
      activeSessionId errored = Some sessionId ->
      interrupted msg = true -> audio_throws msg = false ->
      status (step errored (OnMessage sessionId now msg)) = listening) /\
  (forall s,
      filter (fun x => negb (src_id x =? src_id s)%nat) (sources errored) = [] ->
      status (step errored (OnEnded s)) = listening) /\
  (forall sessionId,
      status (step errored (ConnectToken sessionId true)) = connecting) /\
  (forall sessionId inputCtx outputCtx,
      contexts_open errored ->
      status (step errored (Connect sessionId inputCtx outputCtx)) = connecting).
Proof.
  split; [reflexivity|].
  exact (error_until_next_status_event errored eq_refl).
Defined.

(** C5 as stated fails: after the error of a session that plays a chunk,
    an audio chunk sets the status to [speaking], an interruption and the
    end of the playing source set it to [listening]; no [connect] is
    involved. *)
Lemma error_left_counterexample :
  status errored = error /\ activeSessionId errored = Some 1%N /\
  status (step errored (OnMessage 1%N (1 # 100) silence)) = speaking /\
  status (step errored (OnMessage 1%N (1 # 100) interruption)) = listening /\
  In first_source (started errored) /\
  status (step errored (OnEnded first_source)) = listening.
Proof. repeat split; vm_compute; auto. Qed.

(** *** The video frame sampler *)

Lemma frameless_same st st' : trace st' = trace st -> frameless st -> frameless st'.
Proof. intros E H e He. rewrite E in He. now apply H. Qed.

Lemma frameless_emit e st :
  frame_effect e = false -> frameless st -> frameless (emit e st).
Proof. intros He H x [<-|Hx]; [exact He|now apply H]. Qed.

Lemma frameless_stops st st' :
  trace st' = rev (map SourceStop (sources st)) ++ trace st ->
  frameless st -> frameless st'.
Proof.
  intros E H e He. rewrite E in He. apply in_app_or in He.
  destruct He as [He|He]; [|now apply H].
  rewrite <- in_rev in He. apply in_map_iff in He. now destruct He as [s [<- _]].
Qed.

Lemma frameless_on_interrupted msg st :
  frameless st -> frameless (on_interrupted msg st).
Proof.
  intro H. unfold on_interrupted. destruct (interrupted msg); [|exact H].
  apply (frameless_stops st); [|exact H]. now rewrite stop_all_eq.
Qed.

Lemma frameless_step st e : admissible st e -> frameless st -> frameless (step st e).
Proof.
  intros Hadm H. destruct (session_event e) eqn:Hev.
  { revert H. apply (session_steps frameless); try exact Hev.
    - intros s Hs. rewrite cleanup_sync_eq. intros e' He. cbn [trace] in He.
      apply in_app_or in He. destruct He as [He|He]; [|now apply Hs].
      unfold teardown_effects in He. rewrite !in_app_iff in He.
      destruct He as [He|[He|He]].
      + rewrite <- in_rev in He. apply in_map_iff in He.
        now destruct He as [x [<- _]].
      + destruct (mediaStream s); [|destruct He]. now destruct He as [<-|[]].
      + destruct (frameInterval s); [|destruct He]. now destruct He as [<-|[]].
    - intros s c Hs. now apply frameless_emit.
    - intros s Hs. exact Hs.
    - intros s sessionId constructed Hs. unfold connect_token.
      now destruct constructed.
    - intros s Hs. exact Hs.
    - intros s i o Hs. exact Hs. }
  destruct e; try discriminate Hev; cbn [step].
  - unfold connect_resume. destruct stream as [m|]; [|exact H].
    destruct (superseded sessionId st); [now apply frameless_emit|exact H].
  - unfold onopen. destruct (superseded sessionId st); [exact H|].
    destruct mode; [exact H|]. now apply (frameless_emit _ (setStatus _ _)).
  - unfold onaudioprocess. destruct (superseded sessionId st); [exact H|].
    destruct (encodeBase64 (pcm16 inputData)); [|exact H].
    now apply (frameless_emit _ (setInputLevel _ _)).
  - unfold frame_tick, canvasRef. destruct (superseded sessionId st); [exact H|].
    now destruct (video page).
  - exfalso. cbn [admissible] in Hadm.
    destruct Hadm as [w [h [t [q Hin]]]]. now apply H in Hin.
  - unfold onmessage. destruct (superseded sessionId st); [exact H|].
    assert (H1 : frameless (on_transcripts msg st)).
    { apply (frameless_same st); [|exact H].
      now destruct (on_transcripts_playback msg st) as [-> _]. }
    unfold on_audio.
    destruct (audioBase64 msg) as [audio|]; [|now apply frameless_on_interrupted].
    destruct (truthy audio); [|now apply frameless_on_interrupted].
    destruct (chunk_buffer audio) as [buffer|]; [|exact H1].
    apply frameless_on_interrupted. intros x [<-|Hx]; [reflexivity|now apply H1].
  - unfold onended. cbn [setSources sources].
    destruct (filter _ (sources st)); exact H.
  - exact H.
  - exact H.
Qed.

Lemma reaches_frameless evs st : reaches evs st -> frameless st.
Proof.
  induction 1 as [|evs st e _ IH Hadm]; [intros e []|].
  now apply frameless_step.
Qed.

(** C7 fails on the code: the component mounts a video element and no
    canvas, so that [canvasRef.current] is null at every tick and the
    callback of the timer returns at its first line.  A vision session sets
    its timer of 500 ms, but whatever the page and the token, a tick
    changes nothing; in no state that the component reaches has an encoding
    been asked for or a frame been sent.  The callback of [toBlob], which
    is never made, compares no token: it would send its frame for a
    superseded session too. *)
Theorem frame_never_sent :
  (forall st sessionId page, step st (FrameTick sessionId page) = st) /\
  (forall evs st e, reaches evs st -> In e (trace st) -> frame_effect e = false) /\
  (forall st sessionId timer,
      activeSessionId st = Some sessionId ->
      step st (OnOpen sessionId vision timer)
      = setFrameInterval (Some timer)
          (emit (SetInterval timer 500)
             (setStatus listening (setIsConnected true st)))) /\
  (forall st sessionId data,
      trace (step st (FrameEncoded sessionId (Some data)))
      = SendImage sessionId data (lit "image/jpeg") :: trace st) /\
  activeSessionId live = Some 1%N /\
  frameInterval live = Some 1%positive /\
  In (SetInterval 1%positive 500) (trace live) /\
  trace (step live (FrameTick 1%N ready_page)) = trace live.
Proof.
  split.
  { intros st sessionId page. cbn [step]. unfold frame_tick, canvasRef.
    destruct (superseded sessionId st); [reflexivity|].
    now destruct (video page). }
  split.
  { intros evs st e Hr He. exact (reaches_frameless evs st Hr e He). }
  split.
  { intros st sessionId timer Hact. cbn [step]. unfold onopen.
    now rewrite (superseded_active _ _ Hact). }
  split; [reflexivity|].
  split; [reflexivity|]. split; [reflexivity|].
  split; [vm_compute; auto|reflexivity].
Qed.

(** *** The capture frames *)

Lemma pcm16_samples inputData :
  Forall (fun v => -1 <= v /\ v <= 1) inputData ->
  int16s_of_bytes (pcm16 inputData)
  = Some (map (fun v => toInt16 (fround (v * 32767))) inputData).
Proof.
  intro H. unfold pcm16. rewrite int16s_of_bytes_of_int16s, !map_map. f_equal.
  apply map_ext_in. intros v Hv. rewrite Forall_forall in H.
  destruct (H v Hv) as [Hlo Hhi].
  destruct (toInt16_scaled v Hlo Hhi) as [Hk _]. apply signed16_small. lia.
Qed.

(** C4, as the code has it: for a sample rate that [createBuffer] takes, a
    non-empty capture frame with samples in [-1, 1] is encoded to PCM16 (each sample times 32767, stored as
    binary32, truncated to an integer) and decoded by [decodePCM] (divided
    by 32768), directly or through its base64 form, to a buffer of as many
    samples, each less than two quantization steps (2/32768) from the
    original. *)
Theorem pcm16_roundtrip inputData rate :
  (8000 <= rate)%positive -> (rate <= 96000)%positive ->
  inputData <> [] ->
  Forall (fun v => -1 <= v /\ v <= 1) inputData ->
  exists buffer out,
    decodePCM (pcm16 inputData) rate 1 = Some buffer /\
    through_wire inputData rate = Some buffer /\
    channelData buffer = [out] /\
    length out = length inputData /\
    forall i v o,
      nth_error inputData i = Some v -> nth_error out i = Some o ->
      Qabs (o - v) < 2 # 32768.
Proof.
  intros Hlo Hhi Hne Hall.
  set (ks := map (fun v => toInt16 (fround (v * 32767))) inputData).
  assert (Hks : ks <> []) by (destruct inputData; [now destruct Hne|discriminate]).
  pose proof (decodePCM_mono (pcm16 inputData) ks rate Hlo Hhi
                (pcm16_samples _ Hall) Hks) as Hdec.
  eexists. exists (map (fun k => fround (k # 32768)) ks).
  split; [exact Hdec|]. split.
  { unfold through_wire. now rewrite encodeBase64_total, decodeBase64_encode_octets. }
  split; [reflexivity|]. split; [unfold ks; now rewrite !length_map|].
  intros i v o Hv Ho. unfold ks in Ho. rewrite !nth_error_map, Hv in Ho.
  cbn [option_map] in Ho. injection Ho as <-.
  rewrite Forall_forall in Hall.
  destruct (Hall v (nth_error_In _ _ Hv)) as [Hvlo Hvhi].
  destruct (toInt16_scaled v Hvlo Hvhi) as [Hk Hd].
  set (k := toInt16 (fround (v * 32767))) in *.
  assert (Ek : fround (k # 32768) == inject_Z k * (1 # 32768)).
  { rewrite fround_int16 by lia. unfold Qeq, Qmult, inject_Z. cbn. ring. }
  rewrite Ek. apply Qabs_Qlt_condition in Hd. apply Qabs_Qlt_condition.
  split; lra.
Qed.

Lemma pcm16_roundtrip_witness :
  (8000 <= 16000)%positive /\ (16000 <= 96000)%positive /\
  sample_frame <> [] /\
  Forall (fun v => -1 <= v /\ v <= 1) sample_frame /\
  exists buffer out,
    decodePCM (pcm16 sample_frame) 16000 1 = Some buffer /\
    through_wire sample_frame 16000 = Some buffer /\
    channelData buffer = [out] /\
    length out = length sample_frame /\
    forall i v o,
      nth_error sample_frame i = Some v -> nth_error out i = Some o ->
      Qabs (o - v) < 2 # 32768.
Proof.
  assert (Hne : sample_frame <> []) by discriminate.
  assert (Hall : Forall (fun v => -1 <= v /\ v <= 1) sample_frame)
    by (unfold sample_frame; repeat (apply Forall_cons; [split; discriminate|]);
        apply Forall_nil).
  assert (Hlo : (8000 <= 16000)%positive) by discriminate.
  assert (Hhi : (16000 <= 96000)%positive) by discriminate.
  split; [exact Hlo|]. split; [exact Hhi|].
  split; [exact Hne|]. split; [exact Hall|].
  exact (pcm16_roundtrip sample_frame 16000 Hlo Hhi Hne Hall).
Defined.

(** C4 as stated fails: the sample 49153/65536, a binary32 number in
    [-1, 1], comes back as 24575/32768, which is 3/65536 away: more than
    one quantization step. *)
Lemma pcm16_roundtrip_counterexample :
  let v := 49153 # 65536 in
  -1 <= v /\ v <= 1 /\ fround v == v /\
  exists buffer o,
    decodePCM (pcm16 [v]) 16000 1 = Some buffer /\
    through_wire [v] 16000 = Some buffer /\
    channelData buffer = [[o]] /\
    o == 24575 # 32768 /\
    ~ Qabs (o - v) <= 1 # 32768.
Proof.
  cbv zeta. split; [discriminate|]. split; [discriminate|].
  split; [reflexivity|].
  eexists. eexists. split; [vm_compute; reflexivity|].
  split; [vm_compute; reflexivity|]. split; [reflexivity|].
  split; [reflexivity|]. intro H. vm_compute in H. now apply H.
Qed.

End VoiceOverlayFacts.

(* ------------------------------------------------------------------ *)
(** ** Further properties of the session *)

Module SessionFacts.
Import JS Base64 TypedArray GeminiService VoiceOverlay VoiceOverlayAux SessionAux.
Import Base64Facts TypedArrayFacts NumberFacts VoiceOverlayFacts.
Local Open Scope Q_scope.

(** *** The token guard *)

Lemma stale_step st e : stale st e = true -> step st e = st.
Proof.
  unfold stale. destruct e; cbn [guarded step]; try discriminate; intro H;
    destruct (guarded_callbacks_noop sessionId st H) as [H1 [H2 [H3 H4]]];
    auto.
Qed.

(** X1: any sequence of [onopen], [onaudioprocess], timer and [onmessage]
    callbacks whose token is not the active one leaves every field of the
    state, and the trace of effects, as it was. *)
Theorem stale_callbacks_ignored events st :
  Forall (fun e => stale st e = true) events -> run events st = st.
Proof.
  induction 1 as [|e events He _ IH]; [reflexivity|].
  cbn [run fold_left]. rewrite (stale_step st e He). exact IH.
Qed.

Lemma stale_callbacks_ignored_witness :
  Forall (fun e => stale reconnected e = true)
         [OnOpen 1%N vision 9%positive; OnAudioProcess 1%N [1 # 2];
          FrameTick 1%N ready_page; OnMessage 1%N 0 silence;
          OnMessage 1%N 1 interruption] /\
  run [OnOpen 1%N vision 9%positive; OnAudioProcess 1%N [1 # 2];
       FrameTick 1%N ready_page; OnMessage 1%N 0 silence;
       OnMessage 1%N 1 interruption] reconnected = reconnected.
Proof.
  assert (H : Forall (fun e => stale reconnected e = true)
                [OnOpen 1%N vision 9%positive; OnAudioProcess 1%N [1 # 2];
                 FrameTick 1%N ready_page; OnMessage 1%N 0 silence;
                 OnMessage 1%N 1 interruption])
    by (repeat (apply Forall_cons; [reflexivity|]); apply Forall_nil).
  split; [exact H|]. exact (stale_callbacks_ignored _ reconnected H).
Defined.

(** *** Transcripts *)

Lemma on_interrupted_ui msg st :
  inputTranscript (on_interrupted msg st) = inputTranscript st /\
  outputTranscript (on_interrupted msg st) = outputTranscript st /\
  detectedLang (on_interrupted msg st) = detectedLang st.
Proof.
  unfold on_interrupted. destruct (interrupted msg); [|now repeat split].
  rewrite stop_all_eq. now repeat split.
Qed.

Lemma on_audio_ui sessionId now msg st :
  inputTranscript (on_audio sessionId now msg st) = inputTranscript st /\
  outputTranscript (on_audio sessionId now msg st) = outputTranscript st /\
  detectedLang (on_audio sessionId now msg st) = detectedLang st.
Proof.
  unfold on_audio.
  destruct (audioBase64 msg) as [audio|]; [|apply on_interrupted_ui].
  destruct (truthy audio); [|apply on_interrupted_ui].
  destruct (chunk_buffer audio) as [buffer|]; [|now repeat split].
  match goal with
  | |- context [on_interrupted msg ?s] =>
      destruct (on_interrupted_ui msg s) as [-> [-> ->]]
  end.
  now repeat split.
Qed.

(** X2: a message of the active session with the turn-complete marker leaves
    both transcripts empty, whatever they held and whatever else the message
    carries (deltas, audio, an interruption). *)
Theorem turn_complete_clears sessionId now msg st :
  activeSessionId st = Some sessionId -> turnComplete msg = true ->
  inputTranscript (onmessage sessionId now msg st) = [] /\
  outputTranscript (onmessage sessionId now msg st) = [].
Proof.
  intros Hact Htc. unfold onmessage. rewrite (superseded_active _ _ Hact).
  destruct (on_audio_ui sessionId now msg (on_transcripts msg st)) as [-> [-> _]].
  unfold on_transcripts. rewrite Htc. now split.
Qed.

Lemma turn_complete_clears_witness :
  activeSessionId playing = Some 1%N /\
  turnComplete closing_message = true /\
  inputTranscript (onmessage 1%N 0 closing_message playing) = [] /\
  outputTranscript (onmessage 1%N 0 closing_message playing) = [].
Proof.
  split; [reflexivity|]. split; [reflexivity|].
  exact (turn_complete_clears 1%N 0 closing_message playing eq_refl eq_refl).
Defined.

Lemma on_transcripts_append msg st :
  turnComplete msg = false ->
  exists a b,
    inputTranscript (on_transcripts msg st) = inputTranscript st ++ a /\
    outputTranscript (on_transcripts msg st) = outputTranscript st ++ b.
Proof.
  intro Htc. unfold on_transcripts, parseLang. rewrite Htc.
  destruct (inputTranscription msg) as [t1|];
    [destruct (match_tag t1) as [[? ?]|]|];
    (destruct (outputTranscription msg) as [t2|];
     [destruct (match_tag t2) as [[? ?]|]|]);
    cbn; eexists; eexists; split;
      first [reflexivity | symmetry; apply app_nil_r].
Qed.

Lemma onmessage_append sessionId now msg st :
  turnComplete msg = false ->
  exists a b,
    inputTranscript (onmessage sessionId now msg st) = inputTranscript st ++ a /\
    outputTranscript (onmessage sessionId now msg st) = outputTranscript st ++ b.
Proof.
  intro Htc. unfold onmessage. destruct (superseded sessionId st).
  - exists [], []. now rewrite !app_nil_r.
  - destruct (on_audio_ui sessionId now msg (on_transcripts msg st)) as [-> [-> _]].
    now apply on_transcripts_append.
Qed.

(** X3: between turn-complete markers the transcripts only grow: after any
    sequence of messages without the marker, each transcript is what it was,
    followed by what was appended. *)
Theorem transcripts_append_only sessionId msgs : forall st,
  Forall (fun c => turnComplete (snd c) = false) msgs ->
  exists a b,
    inputTranscript (deliver sessionId msgs st) = inputTranscript st ++ a /\
    outputTranscript (deliver sessionId msgs st) = outputTranscript st ++ b.
Proof.
  induction msgs as [|[now msg] rest IH]; intros st Hall.
  - exists [], []. cbn. now rewrite !app_nil_r.
  - inversion_clear Hall as [|? ? Hm Hrest]. cbn [snd] in Hm.
    cbn [deliver fold_left fst snd].
    fold (deliver sessionId rest (onmessage sessionId now msg st)).
    destruct (IH (onmessage sessionId now msg st) Hrest) as [a [b [Ha Hb]]].
    destruct (onmessage_append sessionId now msg st Hm) as [a0 [b0 [Ha0 Hb0]]].
    exists (a0 ++ a), (b0 ++ b).
    rewrite Ha, Hb, Ha0, Hb0, !app_assoc. now split.
Qed.

Lemma transcripts_append_only_witness :
  Forall (fun c => turnComplete (snd c) = false)
         [(0, input_delta (lit "[EN] hello")); (0, silence);
          (1, output_delta (lit "hi"))] /\
  exists a b,
    inputTranscript
      (deliver 1%N [(0, input_delta (lit "[EN] hello")); (0, silence);
                    (1, output_delta (lit "hi"))] live)
    = inputTranscript live ++ a /\
    outputTranscript
      (deliver 1%N [(0, input_delta (lit "[EN] hello")); (0, silence);
                    (1, output_delta (lit "hi"))] live)
    = outputTranscript live ++ b.
Proof.
  assert (H : Forall (fun c => turnComplete (snd c) = false)
                [(0, input_delta (lit "[EN] hello")); (0, silence);
                 (1, output_delta (lit "hi"))])
    by (repeat (apply Forall_cons; [reflexivity|]); apply Forall_nil).
  split; [exact H|]. exact (transcripts_append_only 1%N _ live H).
Defined.

(** *** Audio that does not decode *)

(** X4: when the audio of a message of the active session cannot be decoded
    ([atob] rejects it, its byte count is odd, or it holds no sample), the
    status is [speaking] and the cursor is raised to the output clock, but no
    source is created or started and the set is as before; an interruption
    flag in the same message is not acted upon. *)
Theorem undecodable_audio sessionId now msg st :
  activeSessionId st = Some sessionId -> audio_throws msg = true ->
  let st' := onmessage sessionId now msg st in
  status st' = speaking /\
  nextStartTime st' = Qmax (nextStartTime st) now /\
  sources st' = sources st /\ trace st' = trace st /\ created st' = created st.
Proof.
  intros Hact Hth st'. subst st'. unfold onmessage.
  rewrite (superseded_active _ _ Hact).
  destruct (on_transcripts_playback msg st) as [Htr [Hn [Hc [_ [Hs _]]]]].
  unfold audio_throws in Hth. unfold on_audio.
  destruct (audioBase64 msg) as [audio|]; [|discriminate].
  destruct (truthy audio); [|discriminate].
  destruct (chunk_buffer audio); [discriminate|].
  cbn. now rewrite Htr, Hn, Hc, Hs.
Qed.

Lemma undecodable_audio_witness :
  activeSessionId playing = Some 1%N /\
  audio_throws
    {| inputTranscription := None; outputTranscription := None;
       turnComplete := false; audioBase64 := Some (lit "AAAA");
       interrupted := true |} = true /\
  let st' := onmessage 1%N 1
               {| inputTranscription := None; outputTranscription := None;
                  turnComplete := false; audioBase64 := Some (lit "AAAA");
                  interrupted := true |} playing in
  status st' = speaking /\
  nextStartTime st' = Qmax (nextStartTime playing) 1 /\
  sources st' = sources playing /\ trace st' = trace playing /\
  created st' = created playing.
Proof.
  split; [reflexivity|]. split; [reflexivity|].
  exact (undecodable_audio 1%N 1
           {| inputTranscription := None; outputTranscription := None;
              turnComplete := false; audioBase64 := Some (lit "AAAA");
              interrupted := true |} playing eq_refl eq_refl).
Defined.

(** *** connect *)


(** However far a call of [cleanup] has come, the token is withdrawn, no
    stream is held and the set is empty. *)
Lemma cleanup_withdraws st :
  (activeSessionId (fst (cleanup_begin st)) = None /\
   mediaStream (fst (cleanup_begin st)) = None /\
   sources (fst (cleanup_begin st)) = []) /\
  (activeSessionId (cleanup st) = None /\
   mediaStream (cleanup st) = None /\ sources (cleanup st) = []).
Proof.
  set (P := fun s => activeSessionId s = None /\ mediaStream s = None /\
                     sources s = []).
  assert (Hparts : forall s, P s ->
            P (fst (cleanup_output s)) /\ P (fst (cleanup_input s)) /\
            P (fst (cleanup_begin s)) /\ P (fst (cleanup_settle s))).
  { apply (teardown_parts P).
    - intros s _. unfold P. rewrite cleanup_sync_eq. now repeat split.
    - intros s c H. exact H.
    - intros s H. exact H. }
  assert (Hsync : P (cleanup_sync st))
    by (unfold P; rewrite cleanup_sync_eq; now repeat split).
  assert (Hb : P (fst (cleanup_begin st)))
    by (unfold cleanup_begin; exact (proj1 (proj2 (Hparts _ Hsync)))).
  split; [exact Hb|].
  change (P (cleanup st)). unfold cleanup, cleanup_settle.
  destruct (cleanup_begin st) as [st1 p]. cbn [fst] in Hb.
  destruct p as [| |[|]]; cbn [fst]; try exact Hb.
  destruct (Hparts st1 Hb) as [Hout _].
  destruct (cleanup_output st1) as [st2 p2]. cbn [fst] in Hout.
  destruct p2; cbn [fst]; exact Hout.
Qed.

Lemma superseded_idle sessionId st :
  activeSessionId st = None -> superseded sessionId st = true.
Proof. intro H. unfold superseded. now rewrite H. Qed.



(** X6: a microphone or camera stream that [getUserMedia] grants after the
    session was torn down, by [cleanup] (as soon as it has begun) or by a
    later [connect] with another token, is stopped at once and not kept:
    [mediaStreamRef] stays empty, and the token is the one of the later
    [connect] where that has gone through. *)
Theorem late_stream_released sessionId m st :
  (let st' := connect_resume sessionId (Some m) (cleanup st) in
   st' = emit (TrackStop m) (cleanup st) /\ mediaStream st' = None) /\
  (let st' := connect_resume sessionId (Some m) (step st CleanupBegin) in
   st' = emit (TrackStop m) (step st CleanupBegin) /\ mediaStream st' = None) /\
  (forall other inputCtx outputCtx,
      other <> sessionId ->
      let st' := connect_resume sessionId (Some m)
                   (connect other inputCtx outputCtx st) in
      st' = emit (TrackStop m) (connect other inputCtx outputCtx st) /\
      mediaStream st' = None /\
      (contexts_open st -> activeSessionId st' = Some other)).
Proof.
  assert (Hstop : forall s, superseded sessionId s = true -> mediaStream s = None ->
            connect_resume sessionId (Some m) s = emit (TrackStop m) s /\
            mediaStream (connect_resume sessionId (Some m) s) = None).
  { intros s Hsup Hm. unfold connect_resume. rewrite Hsup. now split. }
  destruct (cleanup_withdraws st) as [[Hb1 [Hb2 _]] [Hc1 [Hc2 _]]].
  split; [apply Hstop; [now apply superseded_idle|exact Hc2]|].
  split; [apply Hstop; [now apply superseded_idle|exact Hb2]|].
  intros other inputCtx outputCtx Hne. cbv zeta.
  set (st1 := connect other inputCtx outputCtx st).
  assert (H1 : superseded sessionId st1 = true /\ mediaStream st1 = None).
  { unfold st1, connect. fold (cleanup st) in Hc1.
    unfold cleanup in Hc1, Hc2.
    destruct (cleanup_settle st) as [s [|]]; cbn [fst] in Hc1, Hc2.
    - split; [|exact Hc2]. unfold superseded. cbn.
      apply negb_true_iff, N.eqb_neq. congruence.
    - split; [now apply superseded_idle|exact Hc2]. }
  destruct H1 as [Hsup Hm]. destruct (Hstop st1 Hsup Hm) as [E Hm'].
  split; [exact E|]. split; [exact Hm'|].
  intro Hopen. rewrite E. cbn [emit activeSessionId].
  now destruct (connect_supersedes other inputCtx outputCtx st Hopen) as [H _].
Qed.

(** *** Capture frames *)

Lemma length_bytes_of_int16s l : length (bytes_of_int16s l) = (2 * length l)%nat.
Proof.
  induction l as [|k l IH]; [reflexivity|].
  unfold bytes_of_int16s in *. cbn [flat_map int16_bytes app length].
  rewrite IH. lia.
Qed.

(** X7: for every frame that [onaudioprocess] handles for the active session
    (samples in range or not), the input level is set to the root of the
    mean of the squares of the samples, computed in binary64 (not a number
    for an empty frame), and one chunk tagged audio/pcm;rate=16000 is sent
    to that session; its base64 data decodes to the PCM16 bytes of the frame,
    two for each sample; nothing else of the state changes. *)
Theorem onaudioprocess_sends sessionId inputData st :
  activeSessionId st = Some sessionId ->
  exists data,
    onaudioprocess sessionId inputData st
    = emit (SendAudio sessionId data (lit "audio/pcm;rate=16000"))
        (setInputLevel (rms inputData) st) /\
    inputLevel (onaudioprocess sessionId inputData st)
    = sqrt (divide (fold_left (fun sum v => add sum (square v)) inputData (Finite 0))
              (length inputData)) /\
    (inputData = [] -> inputLevel (onaudioprocess sessionId inputData st) = NaN) /\
    decodeBase64 data = Some (pcm16 inputData) /\
    length (pcm16 inputData) = (2 * length inputData)%nat.
Proof.
  intro Hact. unfold onaudioprocess. rewrite (superseded_active _ _ Hact).
  rewrite encodeBase64_total. eexists. split; [reflexivity|].
  split; [reflexivity|]. split; [now intros ->|].
  split; [apply decodeBase64_encode_octets|].
  unfold pcm16. now rewrite length_bytes_of_int16s, !length_map.
Qed.

Lemma onaudioprocess_sends_witness :
  activeSessionId live = Some 1%N /\
  exists data,
    onaudioprocess 1%N loud_frame live
    = emit (SendAudio 1%N data (lit "audio/pcm;rate=16000"))
        (setInputLevel (rms loud_frame) live) /\
    inputLevel (onaudioprocess 1%N loud_frame live)
    = sqrt (divide (fold_left (fun sum v => add sum (square v)) loud_frame (Finite 0))
              (length loud_frame)) /\
    (loud_frame = [] -> inputLevel (onaudioprocess 1%N loud_frame live) = NaN) /\
    decodeBase64 data = Some (pcm16 loud_frame) /\
    length (pcm16 loud_frame) = (2 * length loud_frame)%nat.
Proof.
  split; [reflexivity|].
  exact (onaudioprocess_sends 1%N loud_frame live eq_refl).
Defined.

(** *** Invariants of the reachable states *)

Lemma reaches_invariant (P : State -> Prop) :
  P initial ->
  (forall evs st e, reaches evs st -> P st -> admissible st e -> P (step st e)) ->
  forall evs st, reaches evs st -> P st.
Proof.
  intros H0 Hstep evs st H. induction H as [|evs st e Hr IH Hadm]; [exact H0|].
  now apply (Hstep evs).
Qed.

(** What [onmessage] leaves alone. *)
Lemma on_interrupted_session msg st :
  let st' := on_interrupted msg st in
  activeSessionId st' = activeSessionId st /\ mediaStream st' = mediaStream st /\
  inputContext st' = inputContext st /\ outputContext st' = outputContext st /\
  isConnected st' = isConnected st /\ frameInterval st' = frameInterval st.
Proof.
  cbv zeta. unfold on_interrupted. destruct (interrupted msg); [|now repeat split].
  rewrite stop_all_eq. now repeat split.
Qed.

Lemma on_audio_session sessionId now msg st :
  let st' := on_audio sessionId now msg st in
  activeSessionId st' = activeSessionId st /\ mediaStream st' = mediaStream st /\
  inputContext st' = inputContext st /\ outputContext st' = outputContext st /\
  isConnected st' = isConnected st /\ frameInterval st' = frameInterval st.
Proof.
  cbv zeta. unfold on_audio.
  destruct (audioBase64 msg) as [audio|]; [|apply on_interrupted_session].
  destruct (truthy audio); [|apply on_interrupted_session].
  destruct (chunk_buffer audio) as [buffer|]; [|now repeat split].
  match goal with
  | |- context [on_interrupted msg ?s] =>
      destruct (on_interrupted_session msg s) as [-> [-> [-> [-> [-> ->]]]]]
  end.
  now repeat split.
Qed.

Lemma on_transcripts_session msg st :
  let st' := on_transcripts msg st in
  activeSessionId st' = activeSessionId st /\ mediaStream st' = mediaStream st /\
  inputContext st' = inputContext st /\ outputContext st' = outputContext st /\
  isConnected st' = isConnected st /\ frameInterval st' = frameInterval st.
Proof.
  cbv zeta. unfold on_transcripts, parseLang.
  destruct (inputTranscription msg) as [t1|];
    [destruct (match_tag t1) as [[? ?]|]|];
    (destruct (outputTranscription msg) as [t2|];
     [destruct (match_tag t2) as [[? ?]|]|]);
    destruct (turnComplete msg); now repeat split.
Qed.

Lemma onmessage_session sessionId now msg st :
  let st' := onmessage sessionId now msg st in
  activeSessionId st' = activeSessionId st /\ mediaStream st' = mediaStream st /\
  inputContext st' = inputContext st /\ outputContext st' = outputContext st /\
  isConnected st' = isConnected st /\ frameInterval st' = frameInterval st.
Proof.
  cbv zeta. unfold onmessage.
  destruct (superseded sessionId st); [now repeat split|].
  destruct (on_audio_session sessionId now msg (on_transcripts msg st))
    as [-> [-> [-> [-> [-> ->]]]]].
  apply on_transcripts_session.
Qed.

Lemma onmessage_sources_idle sessionId now msg st :
  activeSessionId st = None ->
  sources (onmessage sessionId now msg st) = sources st.
Proof.
  intro H. unfold onmessage, superseded. now rewrite H.
Qed.

Lemma released_same st st' :
  activeSessionId st' = activeSessionId st -> mediaStream st' = mediaStream st ->
  sources st' = sources st -> released st -> released st'.
Proof. unfold released. now intros -> -> ->. Qed.

Lemma released_step st e : released st -> released (step st e).
Proof.
  intro H. destruct (session_event e) eqn:Hev.
  { revert H. apply (session_steps released); try exact Hev.
    - intros s _ _. rewrite cleanup_sync_eq. now split.
    - intros s c Hs. exact Hs.
    - intros s Hs. exact Hs.
    - intros s sessionId constructed _. unfold connect_token, released.
      destruct constructed; discriminate.
    - intros s Hs. exact Hs.
    - intros s i o Hs. exact Hs. }
  destruct e; try discriminate Hev; cbn [step].
  - (* connect_resume *)
    unfold connect_resume. destruct stream as [m|]; [|exact H].
    destruct (superseded sessionId st) eqn:E; [exact H|].
    unfold superseded in E. destruct (activeSessionId st) eqn:Ha; [|discriminate].
    unfold released. cbn. rewrite Ha. discriminate.
  - (* onopen *)
    unfold onopen. destruct (superseded sessionId st); [exact H|].
    destruct mode; exact H.
  - (* onaudioprocess *)
    unfold onaudioprocess. destruct (superseded sessionId st); [exact H|].
    destruct (encodeBase64 (pcm16 inputData)); exact H.
  - (* frame_tick *)
    unfold frame_tick, canvasRef. destruct (superseded sessionId st); [exact H|].
    now destruct (video page).
  - (* frame_encoded *)
    unfold frame_encoded. destruct blob; exact H.
  - (* onmessage *)
    destruct (onmessage_session sessionId now msg st) as [Ha [Hm _]].
    unfold released. rewrite Ha, Hm. intro Hn.
    rewrite (onmessage_sources_idle sessionId now msg st Hn). auto.
  - (* onended *)
    unfold onended, released. cbn [setSources sources].
    destruct (filter _ (sources st)) eqn:E; cbn; rewrite ?E.
    + intro Hn. destruct (H Hn) as [? ?]. auto.
    + intro Hn. destruct (H Hn) as [_ Hs]. rewrite Hs in E. discriminate.
  - exact H.
  - exact H.
Qed.

(** X8: in every state that the component reaches, whatever the order in
    which the parts of [cleanup] and [connect] and the callbacks come,
    without a session token there is no media stream and the source set is
    empty.  (The two audio contexts and the connected flag outlive the
    token while [cleanup] waits for [close()].) *)
Theorem idle_holds_nothing evs st : reaches evs st -> released st.
Proof.
  apply (reaches_invariant released).
  - intros _. now split.
  - intros _ st0 e _ H _. now apply released_step.
Qed.

(** The contexts can outlive the token: when the overlay is closed while
    [connect] waits for [resume()], the contexts are stored with no token
    set, and were not closed. *)
Lemma contexts_outlive_token :
  reaches [ConnectContexts 1%N 1%nat 2%nat; CleanupBegin; ConnectToken 1%N true;
           CleanupBegin] abandoned /\
  activeSessionId abandoned = None /\
  inputContext abandoned = Some 1%nat /\ outputContext abandoned = Some 2%nat /\
  closed 1%nat abandoned = false /\ closed 2%nat abandoned = false.
Proof.
  split; [|repeat split].
  exact (@reaches_step _ _ (ConnectContexts 1%N 1%nat 2%nat)
          (@reaches_step _ _ CleanupBegin
            (@reaches_step _ _ (ConnectToken 1%N true)
              (@reaches_step _ _ CleanupBegin reaches_initial I) I) I) I).
Qed.

Lemma idle_holds_nothing_witness :
  reaches (CleanupBegin :: playing_events) (step playing CleanupBegin) /\
  released (step playing CleanupBegin).
Proof.
  assert (H : reaches (CleanupBegin :: playing_events) (step playing CleanupBegin))
    by exact (@reaches_step _ _ CleanupBegin reaches_playing I).
  split; [exact H|]. exact (idle_holds_nothing _ _ H).
Defined.

Lemma match_tag_code text code rest :
  match_tag text = Some (code, rest) ->
  exists a b, is_upper a = true /\ is_upper b = true /\ code = [a; b].
Proof.
  unfold match_tag. destruct text as [|o [|a [|b [|c r]]]]; try discriminate.
  destruct (N.eqb o 91); [|discriminate]; cbn [andb].
  destruct (is_upper a) eqn:Ha; [|discriminate]; cbn [andb].
  destruct (is_upper b) eqn:Hb; [|discriminate]; cbn [andb].
  destruct (N.eqb c 93); [|discriminate].
  intro H. injection H as <- _. now exists a, b.
Qed.

Lemma parseLang_language text st :
  language_code (detectedLang st) ->
  language_code (detectedLang (snd (parseLang text st))).
Proof.
  intro H. unfold parseLang.
  destruct (match_tag text) as [[code rest]|] eqn:E; [|exact H].
  right. exact (match_tag_code text code rest E).
Qed.

Lemma on_transcripts_language msg st :
  language_code (detectedLang st) ->
  language_code (detectedLang (on_transcripts msg st)).
Proof.
  intro H. unfold on_transcripts.
  destruct (inputTranscription msg) as [t1|].
  - pose proof (parseLang_language t1 st H) as H1.
    destruct (parseLang t1 st) as [c1 st1]. cbn [snd] in H1.
    destruct (outputTranscription msg) as [t2|].
    + pose proof (parseLang_language t2
                    (setInputTranscript (fun t => t ++ c1) st1) H1) as H2.
      destruct (parseLang t2 (setInputTranscript (fun t => t ++ c1) st1))
        as [c2 st2]. cbn [snd] in H2.
      destruct (turnComplete msg); exact H2.
    + destruct (turnComplete msg); exact H1.
  - destruct (outputTranscription msg) as [t2|].
    + pose proof (parseLang_language t2 st H) as H2.
      destruct (parseLang t2 st) as [c2 st2]. cbn [snd] in H2.
      destruct (turnComplete msg); exact H2.
    + destruct (turnComplete msg); exact H.
Qed.

Lemma step_language st e :
  language_code (detectedLang st) -> language_code (detectedLang (step st e)).
Proof.
  intro H. destruct (session_event e) eqn:Hev.
  { revert H.
    apply (session_steps (fun s => language_code (detectedLang s)));
      try exact Hev.
    - intros s Hs. now rewrite cleanup_sync_eq.
    - intros s c Hs. exact Hs.
    - intros s Hs. exact Hs.
    - intros s sessionId constructed Hs. unfold connect_token.
      now destruct constructed.
    - intros s Hs. exact Hs.
    - intros s i o Hs. exact Hs. }
  destruct e; try discriminate Hev; cbn [step].
  - unfold connect_resume. destruct stream; [|exact H].
    destruct (superseded sessionId st); exact H.
  - unfold onopen. destruct (superseded sessionId st); [exact H|].
    destruct mode; exact H.
  - unfold onaudioprocess. destruct (superseded sessionId st); [exact H|].
    destruct (encodeBase64 (pcm16 inputData)); exact H.
  - unfold frame_tick, canvasRef. destruct (superseded sessionId st); [exact H|].
    now destruct (video page).
  - unfold frame_encoded. destruct blob; exact H.
  - unfold onmessage. destruct (superseded sessionId st); [exact H|].
    destruct (on_audio_ui sessionId now msg (on_transcripts msg st)) as [_ [_ ->]].
    now apply on_transcripts_language.
  - unfold onended. cbn [setSources sources].
    destruct (filter _ (sources st)); exact H.
  - exact H.
  - exact H.
Qed.

(** No part of a teardown or of a reconnect changes the detected
    language. *)
Lemma session_event_language st e :
  session_event e = true -> detectedLang (step st e) = detectedLang st.
Proof.
  intro Hev.
  apply (session_steps (fun s => detectedLang s = detectedLang st));
    try exact Hev; try reflexivity.
  - intros s Hs. now rewrite cleanup_sync_eq.
  - intros s c Hs. exact Hs.
  - intros s Hs. exact Hs.
  - intros s sessionId constructed Hs. unfold connect_token.
    now destruct constructed.
  - intros s Hs. exact Hs.
  - intros s i o Hs. exact Hs.
Qed.

(** X9: in every state that the component reaches, the detected language is
    the initial "AUTO" or two letters of A-Z; no teardown or reconnect resets
    it. *)
Theorem detected_language_shape evs st :
  reaches evs st -> language_code (detectedLang st).
Proof.
  apply (reaches_invariant (fun st => language_code (detectedLang st))).
  - now left.
  - intros _ st0 e _ H _. now apply step_language.
Qed.

Lemma detected_language_shape_witness :
  reaches (OnMessage 1%N 0 closing_message :: playing_events)
          (step playing (OnMessage 1%N 0 closing_message)) /\
  language_code (detectedLang (step playing (OnMessage 1%N 0 closing_message))).
Proof.
  assert (H : reaches (OnMessage 1%N 0 closing_message :: playing_events)
                (step playing (OnMessage 1%N 0 closing_message)))
    by exact (@reaches_step _ _ (OnMessage 1%N 0 closing_message) reaches_playing I).
  split; [exact H|]. exact (detected_language_shape _ _ H).
Defined.

(** *** The sources on the output clock *)

Lemma decodePCM_frames data rate numChannels buffer :
  decodePCM data rate numChannels = Some buffer -> (1 <= frames buffer)%nat.
Proof.
  unfold decodePCM. destruct (int16s_of_bytes data) as [l|]; [|discriminate].
  destruct (createBuffer_supports numChannels (length l / numChannels) rate) eqn:E;
    [|discriminate].
  cbn [negb]. intro H. injection H as <-. cbn [frames].
  unfold createBuffer_supports in E. apply andb_prop in E. destruct E as [E _].
  apply andb_prop in E. destruct E as [_ E]. now apply Nat.leb_le in E.
Qed.

Lemma chunk_buffer_duration audio buffer :
  chunk_buffer audio = Some buffer -> 0 < duration buffer.
Proof.
  intro H. apply chunk_buffer_lasts in H.
  apply Qlt_le_trans with (1 # 48000); [reflexivity|exact H].
Qed.

Lemma StronglySorted_snoc (A : Type) (R : A -> A -> Prop) l x :
  StronglySorted R l -> Forall (fun y => R y x) l -> StronglySorted R (l ++ [x]).
Proof.
  induction 1 as [|a l Hs IH Ha]; intro Hx; cbn [app].
  - constructor; constructor.
  - inversion_clear Hx as [|? ? Hax Hlx]. constructor; [now apply IH|].
    apply Forall_app. split; [exact Ha|]. now constructor.
Qed.

Lemma StronglySorted_filter (A : Type) (R : A -> A -> Prop) f l :
  StronglySorted R l -> StronglySorted R (filter f l).
Proof.
  induction 1 as [|a l Hs IH Ha]; cbn [filter]; [constructor|].
  destruct (f a); [|exact IH]. constructor; [exact IH|].
  rewrite Forall_forall in *. intros x Hx. apply filter_In in Hx. now apply Ha.
Qed.

Lemma Forall_filter_keep (A : Type) (P : A -> Prop) f l :
  Forall P l -> Forall P (filter f l).
Proof.
  rewrite !Forall_forall. intros H x Hx. apply filter_In in Hx. now apply H.
Qed.

Lemma sequenced_same st st' :
  nextStartTime st' = nextStartTime st -> sources st' = sources st ->
  sequenced st -> sequenced st'.
Proof. unfold sequenced. now intros -> ->. Qed.

Lemma sequenced_flushed st' :
  nextStartTime st' = 0 -> sources st' = [] -> sequenced st'.
Proof.
  unfold sequenced. intros -> ->. split; [discriminate|].
  split; [reflexivity|]. split; constructor.
Qed.

Lemma sequenced_emptied st st' :
  nextStartTime st' = nextStartTime st -> sources st' = [] ->
  sequenced st -> sequenced st'.
Proof.
  unfold sequenced. intros -> -> [H [Hr _]]. split; [exact H|].
  split; [exact Hr|]. split; constructor.
Qed.

Lemma sequenced_on_interrupted msg st :
  sequenced st -> sequenced (on_interrupted msg st).
Proof.
  intro H. unfold on_interrupted. destruct (interrupted msg); [|exact H].
  apply sequenced_flushed; reflexivity.
Qed.

(** The cursor raised to a reading of the clock is a binary64 number. *)
Lemma double_max a b :
  double a == a -> double b == b -> double (Qmax a b) == Qmax a b.
Proof.
  intros Ha Hb. destruct (Q.max_spec a b) as [[_ E]|[_ E]];
    rewrite (double_comp _ _ E), E; assumption.
Qed.

(** The end of a source as the cursor has it is short of its exact end by
    the rounding error at most. *)
Lemma rounded_end w d :
  0 <= w -> 1 # 48000 <= d -> w + d - double (w + d) <= (w + d) * pow2 (-53).
Proof.
  intros Hw Hd.
  assert (Hsmall : pow2 (-1022) <= 1 # 48000) by (vm_compute; discriminate).
  assert (Hx : pow2 (-1022) <= w + d) by lra.
  assert (Ha : Qabs (w + d) == w + d) by (apply Qabs_pos; lra).
  pose proof (double_error (w + d)) as He. rewrite Ha in He. specialize (He Hx).
  apply Qabs_Qle_condition in He. destruct He as [He _]. lra.
Qed.

Lemma sequenced_on_audio sessionId now msg st :
  double now == now ->
  sequenced st -> sequenced (on_audio sessionId now msg st).
Proof.
  intros Hnow [H0 [Hr [Hs Hb]]]. unfold on_audio.
  destruct (audioBase64 msg) as [audio|];
    [|now apply sequenced_on_interrupted].
  destruct (truthy audio); [|now apply sequenced_on_interrupted].
  pose proof (Q.le_max_l (nextStartTime st) now) as Hmax.
  pose proof (double_max _ _ Hr Hnow) as Hrm.
  set (w := Qmax (nextStartTime st) now) in *.
  assert (Hw : 0 <= w) by lra.
  destruct (chunk_buffer audio) as [buffer|] eqn:E.
  - apply sequenced_on_interrupted.
    pose proof (chunk_buffer_lasts audio buffer E) as Hd.
    set (d := duration buffer) in *.
    assert (Hd0 : 0 <= d) by lra.
    pose proof (double_ge w d Hrm Hw Hd0) as Hge.
    unfold sequenced.
    cbn [nextStartTime sources setStatus setNextStartTime setCreated emit
         setSources src_when src_duration].
    fold w. fold d.
    split; [apply double_nonneg; lra|].
    split; [apply double_idem; lra|]. split.
    + apply StronglySorted_snoc; [exact Hs|].
      rewrite Forall_forall in *. intros x Hx.
      destruct (Hb x Hx) as [Hx0 [Hxd Hx']].
      unfold follows. cbn [src_when src_duration]. split; [lra|].
      pose proof (rounded_end _ _ Hx0 Hxd). lra.
    + apply Forall_app. split.
      * rewrite Forall_forall in *. intros x Hx. destruct (Hb x Hx) as [? [? ?]].
        repeat split; try assumption. lra.
      * constructor; [|constructor]. cbn [src_when src_duration].
        repeat split; try assumption. lra.
  - unfold sequenced. cbn [nextStartTime sources setStatus setNextStartTime].
    fold w. split; [exact Hw|]. split; [exact Hrm|].
    split; [exact Hs|].
    rewrite Forall_forall in *. intros x Hx. destruct (Hb x Hx) as [? [? ?]].
    repeat split; try assumption. fold w. lra.
Qed.

Lemma sequenced_step st e :
  clock_reading e -> sequenced st -> sequenced (step st e).
Proof.
  intros Hclock H. destruct (session_event e) eqn:Hev.
  { revert H. apply (session_steps sequenced); try exact Hev.
    - intros s Hs. apply (sequenced_emptied s); try assumption;
        now rewrite cleanup_sync_eq.
    - intros s c Hs. exact Hs.
    - intros s Hs. exact Hs.
    - intros s sessionId constructed Hs. unfold connect_token.
      now destruct constructed.
    - intros s Hs. exact Hs.
    - intros s i o Hs. exact Hs. }
  destruct e; try discriminate Hev; cbn [step].
  - unfold connect_resume. destruct stream; [|exact H].
    destruct (superseded sessionId st); exact H.
  - unfold onopen. destruct (superseded sessionId st); [exact H|].
    destruct mode; exact H.
  - unfold onaudioprocess. destruct (superseded sessionId st); [exact H|].
    destruct (encodeBase64 (pcm16 inputData)); exact H.
  - unfold frame_tick, canvasRef. destruct (superseded sessionId st); [exact H|].
    now destruct (video page).
  - unfold frame_encoded. destruct blob; exact H.
  - unfold onmessage. destruct (superseded sessionId st); [exact H|].
    apply sequenced_on_audio; [exact Hclock|].
    destruct (on_transcripts_playback msg st) as [_ [Hn [_ [_ [Hs _]]]]].
    now apply (sequenced_same st).
  - destruct H as [H0 [Hr [Hs Hb]]]. unfold onended.
    assert (Hf : sequenced
                   (setSources
                      (filter (fun s => negb (src_id s =? src_id source)%nat)
                              (sources st)) st)).
    { unfold sequenced. cbn. split; [exact H0|]. split; [exact Hr|].
      split; [now apply StronglySorted_filter|now apply Forall_filter_keep]. }
    cbn [setSources sources] in *.
    destruct (filter _ (sources st)); exact Hf.
  - exact H.
  - exact H.
Qed.

(** X10: in every state that the component reaches with binary64 readings
    of the output clock, whatever the messages, interruptions, failures and
    reconnects before, the sources of the Active Source Set lie one after
    the other as the cursor computes their ends: each starts at or after the
    binary64 sum of the start and the duration of every earlier one, and so
    before the exact end of an earlier one by the rounding error of that
    sum at most (a factor of 2^-53); none starts before time 0, each lasts
    1/48000 s or more, and all end, in this sense, at or before the cursor,
    which is a binary64 number and never negative. *)
Theorem sources_never_overlap evs st :
  reaches evs st -> Forall clock_reading evs -> sequenced st.
Proof.
  induction 1 as [|evs st e Hr IH Hadm]; intro Hall.
  - unfold sequenced. cbn. split; [discriminate|]. split; [reflexivity|].
    split; constructor.
  - inversion_clear Hall as [|? ? He Hrest].
    apply sequenced_step; [exact He|now apply IH].
Qed.

Lemma sources_never_overlap_witness :
  reaches replaying_events (step playing (OnMessage 1%N (1 # 1024) silence)) /\
  Forall clock_reading replaying_events /\
  sequenced (step playing (OnMessage 1%N (1 # 1024) silence)).
Proof.
  assert (H : reaches replaying_events
                (step playing (OnMessage 1%N (1 # 1024) silence)))
    by exact (@reaches_step _ _ (OnMessage 1%N (1 # 1024) silence)
                reaches_playing I).
  assert (Hc : Forall clock_reading replaying_events)
    by (repeat (apply Forall_cons; [vm_compute; auto|]); apply Forall_nil).
  split; [exact H|]. split; [exact Hc|].
  exact (sources_never_overlap _ _ H Hc).
Defined.

(** *** The handles of the set *)

Lemma handles_quiet st st' :
  sources st' = sources st -> created st' = created st ->
  started st' = started st ->
  (forall s, In (SourceStop s) (trace st') -> In (SourceStop s) (trace st)) ->
  handles_live st /\ stops_created st ->
  handles_live st' /\ stops_created st'.
Proof.
  intros Hso Hc Hst Htr [[Hnd Hl] Hb]. unfold handles_live, stops_created.
  rewrite Hso, Hc, Hst. split; [split; [exact Hnd|]|].
  - intros s Hs. destruct (Hl s Hs) as [H1 H2]. split; [exact H1|].
    intro H. apply H2. now apply Htr.
  - intros s Hs. apply Hb. now apply Htr.
Qed.

Lemma handles_flush st st' :
  sources st' = [] -> created st' = created st ->
  (forall s, In (SourceStop s) (trace st') ->
             In (SourceStop s) (trace st) \/ In s (sources st)) ->
  (forall s, In s (started st) -> (src_id s < created st)%nat) ->
  handles_live st /\ stops_created st ->
  handles_live st' /\ stops_created st'.
Proof.
  intros Hso Hc Htr Hacc [[Hnd Hl] Hb]. unfold handles_live, stops_created.
  rewrite Hso, Hc. split; [split; [constructor|intros s []]|].
  intros s Hs. destruct (Htr s Hs) as [H|H]; [now apply Hb|].
  apply Hacc. now apply Hl.
Qed.

Lemma in_stop_rev_map s l tr :
  In (SourceStop s) (rev (map SourceStop l) ++ tr) ->
  In (SourceStop s) tr \/ In s l.
Proof.
  intro H. apply in_app_or in H. destruct H as [H|H]; [|now left].
  right. rewrite <- in_rev in H. apply in_map_iff in H.
  destruct H as [x [E Hx]]. now injection E as ->.
Qed.

Lemma handles_start st st' s :
  src_id s = created st ->
  started st' = started st ++ [s] -> sources st' = sources st ++ [s] ->
  created st' = S (created st) ->
  (forall x, In (SourceStop x) (trace st') -> In (SourceStop x) (trace st)) ->
  (forall x, In x (started st) -> (src_id x < created st)%nat) ->
  handles_live st /\ stops_created st ->
  handles_live st' /\ stops_created st'.
Proof.
  intros Hid Hst Hso Hc Htr Hacc [[Hnd Hl] Hb]. unfold handles_live, stops_created.
  rewrite Hst, Hso, Hc. split; [split|].
  - rewrite map_app. cbn [map]. apply NoDup_app; [exact Hnd|repeat constructor; intros []|].
    intros i Hi [<-|[]]. apply in_map_iff in Hi. destruct Hi as [x [E Hx]].
    destruct (Hl x Hx) as [Hx' _]. specialize (Hacc x Hx'). lia.
  - intros x Hx. apply in_app_or in Hx. destruct Hx as [Hx|[<-|[]]].
    + destruct (Hl x Hx) as [H1 H2]. split; [apply in_or_app; now left|].
      intro H. apply H2. now apply Htr.
    + split; [apply in_or_app; right; now left|].
      intro H. apply Htr in H. specialize (Hb _ H). lia.
  - intros x Hx. apply Htr in Hx. specialize (Hb _ Hx). lia.
Qed.

Lemma handles_on_interrupted evs msg st :
  accounted evs st ->
  handles_live st /\ stops_created st ->
  handles_live (on_interrupted msg st) /\ stops_created (on_interrupted msg st).
Proof.
  intros [Hacc _] H. unfold on_interrupted. destruct (interrupted msg); [|exact H].
  apply (handles_flush st); try assumption; rewrite stop_all_eq; try reflexivity.
  cbn [setStatus setNextStartTime setSources trace]. intros s Hs.
  now apply in_stop_rev_map.
Qed.

Lemma handles_on_audio evs sessionId now msg st :
  accounted evs st ->
  handles_live st /\ stops_created st ->
  handles_live (on_audio sessionId now msg st) /\
  stops_created (on_audio sessionId now msg st).
Proof.
  intros Hacc H. unfold on_audio.
  destruct (audioBase64 msg) as [audio|];
    [|now apply (handles_on_interrupted evs)].
  destruct (truthy audio); [|now apply (handles_on_interrupted evs)].
  destruct (chunk_buffer audio) as [buffer|].
  - set (s0 := {| src_id := created st; src_session := sessionId;
                  src_duration := duration buffer;
                  src_when := Qmax (nextStartTime st) now |}).
    apply (handles_on_interrupted evs).
    + apply (accounted_start evs st _ s0); try assumption; try reflexivity.
      intros e He. now right.
    + apply (handles_start st _ s0); try assumption; try reflexivity.
      * intros x [Hx|Hx]; [discriminate|exact Hx].
      * now destruct Hacc.
  - apply (handles_quiet st); try assumption; try reflexivity. auto.
Qed.

Lemma handles_emit e st :
  (forall s, e <> SourceStop s) -> (forall s, e <> SourceStart s) ->
  handles_live st /\ stops_created st ->
  handles_live (emit e st) /\ stops_created (emit e st).
Proof.
  intros Hstop Hstart H. apply (handles_quiet st); try assumption; try reflexivity.
  - unfold started, started_in. cbn [emit trace flat_map].
    destruct e; try reflexivity. now destruct (Hstart s).
  - intros s [Hs|Hs]; [now destruct (Hstop s)|exact Hs].
Qed.

Lemma in_stop_teardown s st :
  In (SourceStop s) (teardown_effects st ++ trace st) ->
  In (SourceStop s) (trace st) \/ In s (sources st).
Proof.
  unfold teardown_effects. rewrite <- !app_assoc. intro H.
  apply in_stop_rev_map in H. destruct H as [H|H]; [|now right].
  apply in_app_or in H. destruct H as [H|H].
  { destruct (mediaStream st); [destruct H as [H|[]]; discriminate|destruct H]. }
  apply in_app_or in H. destruct H as [H|H]; [|now left].
  destruct (frameInterval st); [destruct H as [H|[]]; discriminate|destruct H].
Qed.

(** The parts of [cleanup] and [connect] stop the handles that they remove
    from the set, and no others. *)
Lemma handles_session evs st e :
  session_event e = true ->
  accounted evs st /\ handles_live st /\ stops_created st ->
  accounted evs (step st e) /\ handles_live (step st e) /\ stops_created (step st e).
Proof.
  apply (session_steps
           (fun s => accounted evs s /\ handles_live s /\ stops_created s)).
  - intros s [Hacc H]. split; [now apply accounted_cleanup_sync|].
    apply (handles_flush s); try assumption; try (now destruct Hacc);
      rewrite cleanup_sync_eq; try reflexivity.
    cbn [trace]. intros x Hx. now apply in_stop_teardown.
  - intros s c [Hacc H]. split.
    + apply (accounted_quiet evs s); try assumption; try reflexivity.
      intros e' He. now right.
    + apply handles_emit; try assumption; intros; discriminate.
  - intros s [Hacc H]. split.
    + apply (accounted_quiet evs s); try assumption; try reflexivity; auto.
    + apply (handles_quiet s); try assumption; try reflexivity. auto.
  - intros s sessionId constructed [Hacc H]. unfold connect_token.
    destruct constructed; (split;
      [apply (accounted_quiet evs s); try assumption; try reflexivity; auto
      |apply (handles_quiet s); try assumption; try reflexivity; auto]).
  - intros s [Hacc H]. split.
    + apply (accounted_quiet evs s); try assumption; try reflexivity; auto.
    + apply (handles_quiet s); try assumption; try reflexivity. auto.
  - intros s i o [Hacc H]. split.
    + apply (accounted_quiet evs s); try assumption; try reflexivity; auto.
    + apply (handles_quiet s); try assumption; try reflexivity. auto.
Qed.

Lemma NoDup_map_filter (A B : Type) (f : A -> B) g l :
  NoDup (map f l) -> NoDup (map f (filter g l)).
Proof.
  induction l as [|a l IH]; cbn [map filter]; intro H; [constructor|].
  inversion_clear H as [|? ? Hn Hd]. destruct (g a); [|now apply IH].
  cbn [map]. constructor; [|now apply IH].
  intro Hin. apply Hn. apply in_map_iff in Hin. destruct Hin as [x [E Hx]].
  apply filter_In in Hx. apply in_map_iff. exists x. now split.
Qed.

Lemma handles_step evs st e :
  accounted evs st ->
  handles_live st /\ stops_created st ->
  handles_live (step st e) /\ stops_created (step st e).
Proof.
  intros Hacc H. destruct (session_event e) eqn:Hev.
  { now destruct (handles_session evs st e Hev (conj Hacc H)) as [_ H']. }
  destruct e; try discriminate Hev; cbn [step].
  - unfold connect_resume. destruct stream as [m|].
    + destruct (superseded sessionId st).
      * apply handles_emit; try assumption; intros; discriminate.
      * apply (handles_quiet st); try assumption; try reflexivity. auto.
    + apply (handles_quiet st); try assumption; try reflexivity. auto.
  - unfold onopen. destruct (superseded sessionId st); [exact H|].
    destruct mode.
    + apply (handles_quiet st); try assumption; try reflexivity. auto.
    + apply (handles_quiet st); try assumption; try reflexivity.
      intros s [Hs|Hs]; [discriminate|exact Hs].
  - unfold onaudioprocess. destruct (superseded sessionId st); [exact H|].
    destruct (encodeBase64 (pcm16 inputData)).
    + apply (handles_quiet st); try assumption; try reflexivity.
      intros s [Hs|Hs]; [discriminate|exact Hs].
    + apply (handles_quiet st); try assumption; try reflexivity. auto.
  - unfold frame_tick, canvasRef. destruct (superseded sessionId st); [exact H|].
    now destruct (video page).
  - unfold frame_encoded. destruct blob; [|exact H].
    apply handles_emit; try assumption; intros; discriminate.
  - unfold onmessage. destruct (superseded sessionId st); [exact H|].
    destruct (on_transcripts_playback msg st) as [Htr [_ [Hc [_ [Hs _]]]]].
    apply (handles_on_audio evs).
    + apply (accounted_quiet evs st); try assumption.
      * unfold started. now rewrite Htr.
      * intros e He. now rewrite Htr.
    + apply (handles_quiet st); try assumption.
      * unfold started. now rewrite Htr.
      * intros s. now rewrite Htr.
  - destruct H as [[Hnd Hl] Hb]. unfold onended.
    assert (Hf : let st1 := setSources
                   (filter (fun s => negb (src_id s =? src_id source)%nat)
                           (sources st)) st in
                 handles_live st1 /\ stops_created st1).
    { cbv zeta. unfold handles_live, stops_created. cbn.
      split; [split|exact Hb].
      - now apply NoDup_map_filter.
      - intros s Hs. apply filter_In in Hs. apply Hl. apply Hs. }
    cbv zeta in Hf. cbn [setSources sources] in *.
    destruct (filter _ (sources st)); exact Hf.
  - apply (handles_quiet st); try assumption; try reflexivity. auto.
  - apply (handles_quiet st); try assumption; try reflexivity. auto.
Qed.

(** X11: in every state that the component reaches, each handle of the
    Active Source Set is in the set once, is a source that was started, and
    has not been stopped: [stop()] is only ever called on the handles that
    are then removed from the set. *)
Theorem active_handles_live evs st : reaches evs st -> handles_live st.
Proof.
  intro H.
  assert (Hboth : handles_live st /\ stops_created st); [|now destruct Hboth].
  induction H as [|evs st e Hr IH Hadm].
  - split; [split; [constructor|intros s []]|intros s []].
  - apply (handles_step evs); [now apply reaches_accounted|exact IH].
Qed.

Lemma active_handles_live_witness :
  reaches (OnMessage 1%N (1 # 100000) silence :: playing_events)
          (step playing (OnMessage 1%N (1 # 100000) silence)) /\
  handles_live (step playing (OnMessage 1%N (1 # 100000) silence)).
Proof.
  assert (H : reaches (OnMessage 1%N (1 # 100000) silence :: playing_events)
                (step playing (OnMessage 1%N (1 # 100000) silence)))
    by exact (@reaches_step _ _ (OnMessage 1%N (1 # 100000) silence)
                reaches_playing I).
  split; [exact H|]. exact (active_handles_live _ _ H).
Defined.

(** *** The end of playback *)

Lemma onended_sources s st :
  sources (onended s st)
  = filter (fun x => negb (src_id x =? src_id s)%nat) (sources st).
Proof.
  unfold onended. cbn [setSources sources].
  destruct (filter _ (sources st)); reflexivity.
Qed.

Lemma onended_status s st :
  (sources (onended s st) = [] -> status (onended s st) = listening) /\
  (sources (onended s st) <> [] -> status (onended s st) = status st).
Proof.
  unfold onended. cbn [setSources sources].
  destruct (filter _ (sources st)); cbn; split; intro H;
    try reflexivity; try discriminate. now destruct H.
Qed.

Lemma onended_rest s st :
  trace (onended s st) = trace st /\
  nextStartTime (onended s st) = nextStartTime st /\
  activeSessionId (onended s st) = activeSessionId st.
Proof.
  unfold onended. cbn [setSources sources].
  destruct (filter _ (sources st)); now repeat split.
Qed.

Lemma sources_all_ended ended : forall st,
  sources (all_ended ended st)
  = filter (fun x => negb (existsb (fun s => (src_id x =? src_id s)%nat) ended))
           (sources st).
Proof.
  induction ended as [|s ended IH]; intro st.
  - cbn. induction (sources st) as [|x l IHl]; [reflexivity|].
    cbn. now rewrite <- IHl.
  - cbn [all_ended fold_left]. fold (all_ended ended (onended s st)).
    rewrite IH, onended_sources.
    induction (sources st) as [|x l IHl]; [reflexivity|].
    cbn [filter existsb]. destruct (src_id x =? src_id s)%nat; cbn [negb orb].
    + exact IHl.
    + cbn [filter]. destruct (existsb _ ended); cbn [negb]; now rewrite IHl.
Qed.

Lemma all_ended_rest ended : forall st,
  trace (all_ended ended st) = trace st /\
  nextStartTime (all_ended ended st) = nextStartTime st /\
  activeSessionId (all_ended ended st) = activeSessionId st.
Proof.
  induction ended as [|s ended IH]; intro st; [now repeat split|].
  cbn [all_ended fold_left]. fold (all_ended ended (onended s st)).
  destruct (IH (onended s st)) as [-> [-> ->]]. apply onended_rest.
Qed.

(** X12: once the [ended] event has fired for every source of the Active
    Source Set, in whatever order and among the events of other sources, the
    set is empty and the status is [listening]; the events stop nothing and
    leave the cursor and the token alone. *)
Theorem all_ended_listening ended st :
  ended <> [] ->
  (forall s, In s (sources st) ->
             exists x, In x ended /\ src_id x = src_id s) ->
  let st' := all_ended ended st in
  sources st' = [] /\ status st' = listening /\
  trace st' = trace st /\ nextStartTime st' = nextStartTime st /\
  activeSessionId st' = activeSessionId st.
Proof.
  intros Hne Hall st'.
  assert (Hempty : sources st' = []).
  { unfold st'. rewrite sources_all_ended.
    induction (sources st) as [|x l IHl]; [reflexivity|].
    cbn [filter]. destruct (Hall x (or_introl eq_refl)) as [y [Hy E]].
    replace (existsb (fun s => (src_id x =? src_id s)%nat) ended) with true.
    - cbn [negb]. apply IHl. intros s Hs. apply Hall. now right.
    - symmetry. apply existsb_exists. exists y. split; [exact Hy|].
      apply Nat.eqb_eq. now symmetry. }
  split; [exact Hempty|]. split; [|apply all_ended_rest].
  destruct (exists_last Hne) as [front [s E]]. subst ended.
  unfold st', all_ended in *. rewrite fold_left_app in *. cbn [fold_left] in *.
  now apply onended_status.
Qed.

Lemma all_ended_listening_witness :
  let st := step playing (OnMessage 1%N (1 # 100000) silence) in
  let ended := rev (sources st) in
  ended <> [] /\
  (forall s, In s (sources st) ->
             exists x, In x ended /\ src_id x = src_id s) /\
  sources (all_ended ended st) = [] /\
  status (all_ended ended st) = listening /\
  trace (all_ended ended st) = trace st /\
  nextStartTime (all_ended ended st) = nextStartTime st /\
  activeSessionId (all_ended ended st) = activeSessionId st.
Proof.
  cbv zeta.
  set (st := step playing (OnMessage 1%N (1 # 100000) silence)).
  assert (Hne : rev (sources st) <> []) by discriminate.
  assert (Hall : forall s, In s (sources st) ->
                           exists x, In x (rev (sources st)) /\ src_id x = src_id s)
    by (intros s Hs; exists s; split; [now apply in_rev in Hs|reflexivity]).
  split; [exact Hne|]. split; [exact Hall|].
  exact (all_ended_listening (rev (sources st)) st Hne Hall).
Defined.

End SessionFacts.

(* ------------------------------------------------------------------ *)
(** ** Further properties of the codecs *)

Module CodecFacts.
Import JS Base64 TypedArray GeminiService VoiceOverlay VoiceOverlayAux CodecAux.
Import Base64Facts TypedArrayFacts VoiceOverlayFacts SessionFacts.
Local Open Scope Q_scope.

(** *** decodePCM *)

Lemma signed16_range u : (-32768 <= signed16 u <= 32767)%Z.
Proof.
  unfold signed16. destruct (Z.ltb_spec (u mod 65536) 32768); lia.
Qed.

Lemma int16s_of_bytes_spec data :
  match int16s_of_bytes data with
  | Some samples =>
      length data = (2 * length samples)%nat /\
      Forall (fun k => (-32768 <= k <= 32767)%Z) samples
  | None => Nat.odd (length data) = true
  end.
Proof.
  induction data as [|a|lo hi r IH] using list_ind2.
  - split; [reflexivity|constructor].
  - reflexivity.
  - cbn [int16s_of_bytes]. destruct (int16s_of_bytes r) as [l|]; cbn [option_map].
    + destruct IH as [Hl Hr]. split; [cbn [length]; lia|].
      constructor; [apply signed16_range|exact Hr].
    + cbn [length]. now rewrite Nat.odd_succ_succ.
Qed.

(** X13: for a channel count and a sample rate that every browser's
    [createBuffer] takes (at most 32 channels, a rate from 8000 to 96000),
    [decodePCM] throws exactly when the byte count is odd, when no channel
    is asked for, or when the data holds fewer 16-bit samples than channels
    (empty data included). *)
Theorem decodePCM_throws data rate numChannels :
  (numChannels <= 32)%nat -> (8000 <= rate)%positive -> (rate <= 96000)%positive ->
  decodePCM data rate numChannels = None <->
  Nat.odd (length data) = true \/ numChannels = 0%nat \/
  (length data / 2 < numChannels)%nat.
Proof.
  intros Hch Hlo Hhi.
  unfold decodePCM. pose proof (int16s_of_bytes_spec data) as H.
  destruct (int16s_of_bytes data) as [samples|].
  - destruct H as [Hl _].
    assert (Hodd : Nat.odd (length data) = false)
      by (rewrite Hl; apply Nat.odd_even).
    assert (Hhalf : (length data / 2 = length samples)%nat)
      by (rewrite Hl, Nat.mul_comm; now apply Nat.div_mul).
    rewrite Hodd, Hhalf. unfold createBuffer_supports.
    rewrite (proj2 (Nat.leb_le numChannels 32) Hch).
    rewrite (proj2 (Pos.leb_le 8000 rate) Hlo), (proj2 (Pos.leb_le rate 96000) Hhi).
    rewrite !andb_true_r.
    destruct (Nat.leb_spec 1 numChannels) as [Hn|Hn]; cbn [andb negb].
    + destruct (Nat.leb_spec 1 (length samples / numChannels)) as [E|E];
        cbn [negb].
      * split; [discriminate|]. intros [H|[H|H]]; [discriminate|lia|].
        exfalso. apply Nat.div_small in H. lia.
      * split; [|reflexivity]. intros _. right; right.
        apply Nat.div_small_iff; lia.
    + split; [|reflexivity]. intros _. right; left. lia.
  - split; [now left|reflexivity].
Qed.

Lemma decodePCM_throws_witness :
  (2 <= 32)%nat /\ (8000 <= 24000)%positive /\ (24000 <= 96000)%positive /\
  (decodePCM [x00; x01] 24000 2 = None <->
   Nat.odd (length [x00; x01]) = true \/ 2%nat = 0%nat \/
   (length [x00; x01] / 2 < 2)%nat).
Proof.
  assert (Hch : (2 <= 32)%nat) by lia.
  assert (Hlo : (8000 <= 24000)%positive) by discriminate.
  assert (Hhi : (24000 <= 96000)%positive) by discriminate.
  split; [exact Hch|]. split; [exact Hlo|]. split; [exact Hhi|].
  exact (decodePCM_throws [x00; x01] 24000 2 Hch Hlo Hhi).
Defined.

Lemma nth_in_range (l : list Z) i :
  Forall (fun k => (-32768 <= k <= 32767)%Z) l ->
  (-32768 <= nth i l 0%Z <= 32767)%Z.
Proof.
  intro H. destruct (nth_in_or_default i l 0%Z) as [Hin| ->]; [|lia].
  rewrite Forall_forall in H. now apply H.
Qed.

(** X14: a buffer that [decodePCM] returns has the channels asked for, each
    of [frames] samples, where [frames] is the number of 16-bit samples
    divided by the number of channels, rounded down, and at least 1; sample
    [i] of channel [c] is the integer at [i * numChannels + c] divided by
    32768, without rounding error, and lies in [-1, 1). *)
Theorem decodePCM_buffer data rate numChannels buffer :
  decodePCM data rate numChannels = Some buffer ->
  exists samples,
    int16s_of_bytes data = Some samples /\
    length data = (2 * length samples)%nat /\
    numberOfChannels buffer = numChannels /\ sampleRate buffer = rate /\
    frames buffer = (length samples / numChannels)%nat /\
    (1 <= frames buffer)%nat /\
    length (channelData buffer) = numChannels /\
    forall c ch,
      nth_error (channelData buffer) c = Some ch ->
      length ch = frames buffer /\
      forall i x,
        nth_error ch i = Some x ->
        x == nth (i * numChannels + c) samples 0%Z # 32768 /\
        -1 <= x /\ x < 1.
Proof.
  intro H. pose proof (decodePCM_frames _ _ _ _ H) as Hfr.
  unfold decodePCM in H. pose proof (int16s_of_bytes_spec data) as Hspec.
  destruct (int16s_of_bytes data) as [samples|]; [|discriminate].
  destruct Hspec as [Hlen Hrange].
  destruct (createBuffer_supports numChannels (length samples / numChannels) rate);
    [|discriminate].
  cbn [negb] in H. injection H as <-. exists samples. cbn [numberOfChannels sampleRate frames channelData] in *.
  repeat (split; [reflexivity || assumption|]).
  split; [now rewrite length_map, length_seq|].
  intros c ch Hc. rewrite nth_error_map, nth_error_seq in Hc.
  destruct (c <? numChannels)%nat; [|discriminate].
  cbn in Hc. injection Hc as <-.
  split; [now rewrite length_map, length_seq|].
  intros i x Hx. rewrite nth_error_map, nth_error_seq in Hx.
  destruct (i <? length samples / numChannels)%nat; [|discriminate].
  cbn in Hx. injection Hx as <-.
  pose proof (nth_in_range samples (i * numChannels + c) Hrange) as Hk.
  set (k := nth (i * numChannels + c) samples 0%Z) in *.
  assert (E : fround (k # 32768) == k # 32768) by (apply fround_int16; lia).
  split; [exact E|]. rewrite E. unfold Qle, Qlt. cbn. lia.
Qed.

Lemma decodePCM_buffer_witness :
  decodePCM stereo_bytes 24000 2 = Some stereo_buffer /\
  exists samples,
    int16s_of_bytes stereo_bytes = Some samples /\
    length stereo_bytes = (2 * length samples)%nat /\
    numberOfChannels stereo_buffer = 2%nat /\ sampleRate stereo_buffer = 24000%positive /\
    frames stereo_buffer = (length samples / 2)%nat /\
    (1 <= frames stereo_buffer)%nat /\
    length (channelData stereo_buffer) = 2%nat /\
    forall c ch,
      nth_error (channelData stereo_buffer) c = Some ch ->
      length ch = frames stereo_buffer /\
      forall i x,
        nth_error ch i = Some x ->
        x == nth (i * 2 + c) samples 0%Z # 32768 /\
        -1 <= x /\ x < 1.
Proof.
  split; [reflexivity|].
  exact (decodePCM_buffer stereo_bytes 24000 2 stereo_buffer eq_refl).
Defined.

(** *** Samples beyond [-1, 1] *)

Lemma ilog2_wide x : Qabs x < 8388608 -> (ilog2 x <= 22)%Z.
Proof.
  intro H. unfold ilog2. destruct (Qle_bool 1 (Qabs x)) eqn:E.
  - change 22%Z with (Z.log2 8388607). apply Z.log2_le_mono.
    pose proof (Qfloor_le (Qabs x)) as Hf.
    assert (Hlt : inject_Z (Qfloor (Qabs x)) < inject_Z 8388608)
      by (eapply Qle_lt_trans; eassumption).
    rewrite <- Zlt_Qlt in Hlt. lia.
  - pose proof (Z.log2_up_nonneg (Qceiling (/ Qabs x))). lia.
Qed.

Lemma fround_between_wide x :
  Qabs x < 8388608 ->
  inject_Z (Qfloor x) <= fround x /\ fround x <= inject_Z (Qceiling x).
Proof.
  intro H. destruct (Qeq_bool x 0) eqn:Hx.
  - unfold fround. rewrite Hx. apply Qeq_bool_eq in Hx.
    rewrite (Qfloor_comp _ _ Hx), (Qceiling_comp _ _ Hx). split; discriminate.
  - pose proof (ilog2_wide x H) as Hl. unfold fround. rewrite Hx.
    set (e := Z.max (ilog2 x - 23) (-149)).
    assert (He : (e <= -1)%Z) by (unfold e; lia).
    unfold pow2. replace (0 <=? e)%Z with false by (symmetry; apply Z.leb_gt; lia).
    apply scaled_round_between.
Qed.

(** The integer that a product below [2^23] is stored as lies between the
    integers around it, before it wraps. *)
Lemma toInt16_fround x :
  Qabs x < 8388608 ->
  exists t, (Qfloor x <= t <= Qceiling x)%Z /\ toInt16 (fround x) = signed16 t.
Proof.
  intro H. destruct (fround_between_wide x H) as [Hf Hc].
  set (y := fround x) in *. exists (truncate y).
  pose proof (truncate_between y) as Ht.
  assert (Hfy : (Qfloor x <= Qfloor y)%Z).
  { rewrite <- (Qfloor_Z (Qfloor x)). now apply Qfloor_resp_le. }
  assert (Hcy : (Qceiling y <= Qceiling x)%Z).
  { rewrite <- (Qceiling_Z (Qceiling x)). now apply Qceiling_resp_le. }
  split; [lia|].
  assert (Hfx : (-8388608 <= Qfloor x)%Z).
  { rewrite <- (Qfloor_Z (-8388608)). apply Qfloor_resp_le.
    apply Qabs_Qlt_condition in H. unfold inject_Z. lra. }
  assert (Hcx : (Qceiling x <= 8388608)%Z).
  { rewrite <- (Qceiling_Z 8388608). apply Qceiling_resp_le.
    apply Qabs_Qlt_condition in H. unfold inject_Z. lra. }
  unfold toInt16. replace (is_infinite y) with false; [reflexivity|].
  symmetry. unfold is_infinite.
  destruct (Qle_bool (pow2 128) (Qabs y)) eqn:E; [|reflexivity].
  apply Qle_bool_iff in E. exfalso.
  assert (Hy : Qabs y <= 8388608).
  { apply Qabs_Qle_condition. rewrite Zle_Qle in Hfx, Hcx.
    rewrite Zle_Qle in Hfy. 
    change (inject_Z (-8388608)) with (-8388608 # 1) in Hfx.
    change (inject_Z 8388608) with (8388608 # 1) in Hcx. split; lra. }
  assert (Hbig : 8388608 < pow2 128) by reflexivity. lra.
Qed.

(** X15: the conversion to PCM16 does not clamp.  For a sample [v] above 1
    whose product by 32767 is at least 32769 (up to a sample of 2), [v] wraps
    to a negative 16-bit integer and [-v] wraps to a positive one. *)
Theorem pcm16_wraps v :
  32769 # 32767 <= v -> v <= 2 ->
  (-32767 <= toInt16 (fround (v * 32767)) <= -2)%Z /\
  (2 <= toInt16 (fround (- v * 32767)) <= 32767)%Z.
Proof.
  intros Hlo Hhi. split.
  - assert (H : Qabs (v * 32767) < 8388608)
      by (apply Qabs_Qlt_condition; split; lra).
    destruct (toInt16_fround _ H) as [t [[Ht1 Ht2] ->]].
    assert (Hf : (32769 <= Qfloor (v * 32767))%Z).
    { rewrite <- (Qfloor_Z 32769). apply Qfloor_resp_le. unfold inject_Z. lra. }
    assert (Hc : (Qceiling (v * 32767) <= 65534)%Z).
    { rewrite <- (Qceiling_Z 65534). apply Qceiling_resp_le. unfold inject_Z. lra. }
    unfold signed16. destruct (Z.ltb_spec (t mod 65536) 32768); lia.
  - assert (H : Qabs (- v * 32767) < 8388608)
      by (apply Qabs_Qlt_condition; split; lra).
    destruct (toInt16_fround _ H) as [t [[Ht1 Ht2] ->]].
    assert (Hf : (-65534 <= Qfloor (- v * 32767))%Z).
    { rewrite <- (Qfloor_Z (-65534)). apply Qfloor_resp_le. unfold inject_Z. lra. }
    assert (Hc : (Qceiling (- v * 32767) <= -32769)%Z).
    { rewrite <- (Qceiling_Z (-32769)). apply Qceiling_resp_le. unfold inject_Z. lra. }
    unfold signed16. destruct (Z.ltb_spec (t mod 65536) 32768); lia.
Qed.

Lemma pcm16_wraps_witness :
  32769 # 32767 <= 3 # 2 /\ 3 # 2 <= 2 /\
  (-32767 <= toInt16 (fround ((3 # 2) * 32767)) <= -2)%Z /\
  (2 <= toInt16 (fround (- (3 # 2) * 32767)) <= 32767)%Z.
Proof.
  assert (H1 : 32769 # 32767 <= 3 # 2) by discriminate.
  assert (H2 : 3 # 2 <= 2) by discriminate.
  split; [exact H1|]. split; [exact H2|].
  exact (pcm16_wraps (3 # 2) H1 H2).
Defined.

End CodecFacts.

(* ------------------------------------------------------------------ *)
(** ** Properties of the chat functions *)

Module GeminiChatFacts.
Import JS JSText Types GeminiChat GeminiChatAux.
Import VoiceOverlayFacts.

(** *** The accumulated text *)

Lemma stream_loop_length stream : forall fullText sourcesMap,
  length (stream_loop fullText sourcesMap stream) = length stream.
Proof.
  induction stream as [|c r IH]; intros t m; [reflexivity|].
  cbn [stream_loop length]. now rewrite IH.
Qed.

Lemma stream_loop_text stream : forall fullText sourcesMap n y,
  nth_error (stream_loop fullText sourcesMap stream) n = Some y ->
  yield_text y = fullText ++ concat (map text_of (firstn (S n) stream)).
Proof.
  induction stream as [|c r IH]; intros t m n y H.
  - destruct n; discriminate.
  - cbn [stream_loop] in H. destruct n as [|n].
    + cbn in H. injection H as <-. cbn. now rewrite app_nil_r.
    + cbn [nth_error] in H. rewrite (IH _ _ _ _ H).
      change (firstn (S (S n)) (c :: r)) with (c :: firstn (S n) r).
      cbn [map concat]. now rewrite app_assoc.
Qed.

(** X16: [sendMessageStream] yields once for each chunk of the stream, and
    the text of the n-th yield is the concatenation of the texts of the
    chunks up to the n-th (a chunk without text counts as empty): every
    yield carries the whole answer so far. *)
Theorem stream_text_accumulates stream :
  length (sendMessageStream stream) = length stream /\
  forall n y,
    nth_error (sendMessageStream stream) n = Some y ->
    yield_text y = concat (map text_of (firstn (S n) stream)).
Proof.
  split; [apply stream_loop_length|].
  intros n y H. exact (stream_loop_text stream [] [] n y H).
Qed.

(** *** The sources *)

Lemma key_eqb_eq a b : key_eqb a b = true <-> a = b.
Proof.
  unfold key_eqb. destruct a as [x|], b as [y|];
    try (split; [discriminate|discriminate]); [|now split].
  destruct (list_eq_dec N.eq_dec x y) as [->|Hne]; split; try reflexivity;
    try discriminate. intro H. injection H as ->. now destruct Hne.
Qed.

Lemma map_set_keys k v m k' :
  In k' (map fst (map_set k v m)) <-> k' = k \/ In k' (map fst m).
Proof.
  induction m as [|[k0 v0] r IH]; cbn [map_set map fst In].
  - intuition congruence.
  - destruct (key_eqb k k0) eqn:E; cbn [map fst In].
    + apply key_eqb_eq in E. subst k0. intuition congruence.
    + rewrite IH. intuition congruence.
Qed.

Lemma map_set_entries k v m k' v' :
  In (k', v') (map_set k v m) -> (k', v') = (k, v) \/ In (k', v') m.
Proof.
  induction m as [|[k0 v0] r IH]; cbn [map_set In].
  - intros [H|[]]; auto.
  - destruct (key_eqb k k0); cbn [In]; intros [H|H]; auto.
    destruct (IH H); auto.
Qed.

Lemma map_set_NoDup k v m : NoDup (map fst m) -> NoDup (map fst (map_set k v m)).
Proof.
  induction m as [|[k0 v0] r IH]; cbn [map_set map fst]; intro H.
  - repeat constructor. intros [].
  - inversion_clear H as [|? ? Hn Hd].
    destruct (key_eqb k k0) eqn:E; cbn [map fst].
    + apply key_eqb_eq in E. subst k0. now constructor.
    + constructor; [|now apply IH]. rewrite map_set_keys. intros [H|H]; auto.
      subst k0. assert (key_eqb k k = true) by now apply key_eqb_eq. congruence.
Qed.

Lemma records_set m webs w :
  records m webs ->
  records (map_set (web_uri w) (source_of w) m) (webs ++ [w]).
Proof.
  intros [Hnd [Hent Hkeys]]. split; [now apply map_set_NoDup|]. split.
  - intros k v H. apply map_set_entries in H. destruct H as [H|H].
    + injection H as -> ->. split; [reflexivity|]. exists w.
      split; [apply in_or_app; right; now left|reflexivity].
    + destruct (Hent k v H) as [Hu [w0 [Hw0 Hv]]]. split; [exact Hu|].
      exists w0. split; [apply in_or_app; now left|exact Hv].
  - intros w0 H. apply map_set_keys. apply in_app_or in H.
    destruct H as [H|[<-|[]]]; [right; now apply Hkeys|now left].
Qed.

Lemma records_visit gcs : forall m webs,
  records m webs ->
  records (fold_left record_source gcs m)
          (webs ++ flat_map (fun gc => match web gc with
                                       | Some w => [w] | None => [] end) gcs).
Proof.
  induction gcs as [|gc r IH]; intros m webs H; cbn [fold_left flat_map].
  - now rewrite app_nil_r.
  - unfold record_source at 2. destruct (web gc) as [w|].
    + cbn [app]. change (w :: ?l) with ([w] ++ l). rewrite app_assoc.
      apply IH. now apply records_set.
    + now apply IH.
Qed.

Lemma stream_loop_sources stream : forall fullText sourcesMap webs n y,
  records sourcesMap webs ->
  nth_error (stream_loop fullText sourcesMap stream) n = Some y ->
  exists m,
    records m (webs ++ seen (firstn (S n) stream)) /\
    yield_sources y = match m with [] => None | _ => Some (map snd m) end.
Proof.
  induction stream as [|c r IH]; intros t m0 webs n y Hrec H.
  - destruct n; discriminate.
  - cbn [stream_loop] in H.
    pose proof (records_visit (visited c) m0 webs Hrec) as Hrec'.
    fold (webs_of c) in Hrec'. destruct n as [|n].
    + cbn in H. injection H as <-. cbn [yield_sources].
      exists (fold_left record_source (visited c) m0). split; [|reflexivity].
      unfold seen. cbn [firstn flat_map]. now rewrite app_nil_r.
    + cbn [nth_error] in H.
      destruct (IH _ _ _ _ _ Hrec' H) as [m [Hm Hy]]. exists m.
      split; [|exact Hy].
      change (firstn (S (S n)) (c :: r)) with (c :: firstn (S n) r).
      unfold seen in *. cbn [flat_map]. now rewrite app_assoc.
Qed.

(** X17: the sources of a yield of [sendMessageStream] are missing exactly
    when no web entry was seen in the chunks so far; otherwise they hold one
    source for each address seen so far and no address twice, each made of
    the address and a title that came with it. *)
Theorem stream_sources_distinct stream n y :
  nth_error (sendMessageStream stream) n = Some y ->
  match yield_sources y with
  | None => seen (firstn (S n) stream) = []
  | Some l =>
      l <> [] /\ NoDup (map uri l) /\
      (forall u, In u (map uri l) <->
                 In u (map web_uri (seen (firstn (S n) stream)))) /\
      (forall src, In src l ->
                   exists w, In w (seen (firstn (S n) stream)) /\ src = source_of w)
  end.
Proof.
  intro H.
  assert (H0 : records [] []).
  { split; [constructor|]. split; [intros k v []|intros w []]. }
  destruct (stream_loop_sources stream [] [] [] n y H0 H) as [m [[Hnd [Hent Hkeys]] Hy]].
  cbn [app] in *. rewrite Hy.
  assert (Huri : map uri (map snd m) = map fst m).
  { rewrite map_map. apply map_ext_in. intros [k v] Hin. now apply Hent. }
  destruct m as [|e m'].
  - destruct (seen (firstn (S n) stream)) as [|w ws]; [reflexivity|].
    destruct (Hkeys w (or_introl eq_refl)).
  - set (m := e :: m') in *. split; [discriminate|].
    rewrite Huri. split; [exact Hnd|]. split.
    + intro u. split.
      * intro Hu. apply in_map_iff in Hu. destruct Hu as [[k v] [E Hin]].
        cbn in E. subst u. destruct (Hent k v Hin) as [Hk [w [Hw Hv]]].
        apply in_map_iff. exists w. split; [|exact Hw].
        rewrite <- Hk, Hv. reflexivity.
      * intro Hu. apply in_map_iff in Hu. destruct Hu as [w [<- Hw]].
        now apply Hkeys.
    + intros src Hsrc. apply in_map_iff in Hsrc. destruct Hsrc as [[k v] [E Hin]].
      cbn in E. subst src. destruct (Hent k v Hin) as [_ Hw]. exact Hw.
Qed.

Lemma stream_sources_distinct_witness :
  nth_error (sendMessageStream sample_stream) 2 = Some sample_yield /\
  match yield_sources sample_yield with
  | None => seen (firstn 3 sample_stream) = []
  | Some l =>
      l <> [] /\ NoDup (map uri l) /\
      (forall u, In u (map uri l) <->
                 In u (map web_uri (seen (firstn 3 sample_stream)))) /\
      (forall src, In src l ->
                   exists w, In w (seen (firstn 3 sample_stream)) /\ src = source_of w)
  end.
Proof.
  split; [reflexivity|].
  exact (stream_sources_distinct sample_stream 2 sample_yield eq_refl).
Defined.

(** *** The request *)

(** X18: the request of [sendMessageStream] holds the history in its order,
    one entry for each message, and the current message as a last entry with
    the role user.  Each entry has the inline data of its attachments, in
    their order, and then its text as the one text part; a message of the
    user has the role user and every other message, a system message too,
    the role model. *)
Theorem contents_shape chatHistory currentMessage atts :
  length (contents chatHistory currentMessage atts) = S (length chatHistory) /\
  nth_error (contents chatHistory currentMessage atts) (length chatHistory)
  = Some {| content_role := lit "user"; parts := parts_of atts currentMessage |} /\
  (forall i msg,
      nth_error chatHistory i = Some msg ->
      exists c,
        nth_error (contents chatHistory currentMessage atts) i = Some c /\
        (content_role c = lit "user" <-> role msg = USER) /\
        (content_role c = lit "model" <-> role msg <> USER) /\
        parts c
        = map (fun a => InlineData (mimeType a) (data a))
              (match attachments msg with Some l => l | None => [] end)
          ++ [Text (text msg)]).
Proof.
  unfold contents. split; [rewrite length_app, length_map; cbn; lia|]. split.
  - rewrite nth_error_app2 by (rewrite length_map; lia).
    rewrite length_map, Nat.sub_diag. reflexivity.
  - intros i msg H. eexists. split.
    + rewrite nth_error_app1
        by (rewrite length_map; apply nth_error_Some; congruence).
      rewrite nth_error_map, H. reflexivity.
    + cbn [content_role parts]. split; [|split; [|reflexivity]];
        destruct (role msg); split; try discriminate; try reflexivity;
          intro Hc; try congruence; now destruct Hc.
Qed.

(** *** Titles and refined prompts *)

Lemma skip_spaces_snoc l c :
  is_space c = false -> skip_spaces (l ++ [c]) = skip_spaces l ++ [c].
Proof.
  intro Hc. induction l as [|x l IH]; cbn [app skip_spaces].
  - now rewrite Hc.
  - destruct (is_space x); [exact IH|reflexivity].
Qed.

Lemma skip_spaces_incl x s : In x (skip_spaces s) -> In x s.
Proof.
  induction s as [|c r IH]; cbn [skip_spaces]; [auto|].
  destruct (is_space c); [intro H; right; now apply IH|auto].
Qed.

Lemma trim_incl x s : In x (trim s) -> In x s.
Proof.
  unfold trim. intro H. apply in_rev in H. apply skip_spaces_incl in H.
  apply in_rev in H. now apply skip_spaces_incl.
Qed.

Lemma trim_last s :
  match rev (trim s) with c :: _ => is_space c = false | [] => True end.
Proof. unfold trim. rewrite rev_involutive. apply skip_spaces_head. Qed.

Lemma trim_head s :
  match trim s with c :: _ => is_space c = false | [] => True end.
Proof.
  unfold trim. pose proof (skip_spaces_head s) as H.
  destruct (skip_spaces s) as [|c r]; [exact I|].
  cbn [rev]. rewrite (skip_spaces_snoc _ c H), rev_app_distr. exact H.
Qed.

Lemma strip_marks_clean s : ~ In 34%N (strip_marks s) /\ ~ In 42%N (strip_marks s).
Proof.
  unfold strip_marks. split; intro H; apply filter_In in H; destruct H as [_ H];
    discriminate.
Qed.

(** X19: whatever [generateContent] answers, and when it rejects, the title
    that [generateSmartTitle] returns is not empty, holds no double quote and no
    asterisk, and neither begins nor ends with whitespace; the text that it
    sends is its fixed instruction followed by at most 500 code units of the
    conversation. *)
Theorem smart_title_clean response history :
  let t := generateSmartTitle response in
  t <> [] /\ ~ In 34%N t /\ ~ In 42%N t /\
  match t with c :: _ => is_space c = false | [] => True end /\
  match rev t with c :: _ => is_space c = false | [] => True end /\
  exists excerpt rest,
    title_request history
    = lit "Short, professional, 2-4 word title for this conversation log: "
      ++ excerpt /\
    join (lit " ") (map text history) = excerpt ++ rest /\
    (length excerpt <= 500)%nat.
Proof.
  cbv zeta.
  assert (Hin : forall x t, In x (trim (strip_marks t)) -> x <> 34%N /\ x <> 42%N).
  { intros x t H. apply trim_incl in H.
    destruct (strip_marks_clean t) as [H1 H2].
    split; intro Hx; subst x; auto. }
  split; [|split; [|split; [|split; [|split]]]].
  1-5: unfold generateSmartTitle; destruct response as [[t|]|];
    [destruct (truthy (trim (strip_marks t))) eqn:E| |].
  - intro H. rewrite H in E. discriminate.
  - discriminate.
  - discriminate.
  - discriminate.
  - intro H. now apply Hin in H.
  - cbn. intuition discriminate.
  - cbn. intuition discriminate.
  - cbn. intuition discriminate.
  - intro H. now apply Hin in H.
  - cbn. intuition discriminate.
  - cbn. intuition discriminate.
  - cbn. intuition discriminate.
  - apply trim_head.
  - reflexivity.
  - reflexivity.
  - reflexivity.
  - apply trim_last.
  - reflexivity.
  - reflexivity.
  - reflexivity.
  - exists (firstn 500 (join (lit " ") (map text history))),
           (skipn 500 (join (lit " ") (map text history))).
    split; [reflexivity|]. split; [symmetry; apply firstn_skipn|].
    apply firstn_le_length.
Qed.

(** X20: [refinePrompt] returns the prompt it was given, or else the answer
    of the model without its surrounding whitespace, and then the answer is
    not empty; it returns the prompt when [generateContent] rejects or the
    answer is missing or blank, so that a prompt that is not empty is never replaced
    by an empty one. *)
Theorem refinePrompt_fallback prompt response :
  let r := refinePrompt prompt response in
  (r = prompt \/
   (exists t, response = Some (Some t) /\ r = trim t) /\ r <> [] /\
   match r with c :: _ => is_space c = false | [] => True end /\
   match rev r with c :: _ => is_space c = false | [] => True end) /\
  (response = None -> r = prompt) /\
  (prompt <> [] -> r <> []).
Proof.
  cbv zeta. unfold refinePrompt. destruct response as [[t|]|].
  - destruct (truthy (trim t)) eqn:E.
    + assert (Hne : trim t <> []) by (intro H; rewrite H in E; discriminate).
      split; [right|split; [discriminate|auto]].
      split; [now exists t|]. split; [exact Hne|].
      split; [apply trim_head|apply trim_last].
    + split; [now left|]. split; [discriminate|auto].
  - split; [now left|]. split; [discriminate|auto].
  - split; [now left|]. split; auto.
Qed.

End GeminiChatFacts.
(* ------------------------------------------------------------------ *)
(** ** The application: sessions and the runs of handleSend *)

Module AppFacts.
Import JS JSText Types GeminiChat App AppAux.

(** *** The updaters *)

Lemma update_session_ids i f l :
  (forall s, session_id (f s) = session_id s) ->
  map session_id (update_session i f l) = map session_id l.
Proof.
  intro Hf. unfold update_session. rewrite map_map. apply map_ext.
  intro s. destruct (session_id s =? i)%N; auto.
Qed.

Lemma update_session_twice i f g l :
  (forall s, session_id (f s) = session_id s) ->
  update_session i g (update_session i f l)
  = update_session i (fun s => g (f s)) l.
Proof.
  intro Hf. unfold update_session. rewrite map_map. apply map_ext. intro s.
  destruct (session_id s =? i)%N eqn:E.
  - now rewrite Hf, E.
  - now rewrite E.
Qed.

Lemma update_session_ext i f g l :
  (forall s, In s l -> session_id s = i -> f s = g s) ->
  update_session i f l = update_session i g l.
Proof.
  intro H. unfold update_session. apply map_ext_in. intros s Hs.
  destruct (N.eqb_spec (session_id s) i); auto.
Qed.

Lemma update_session_Forall (P : ChatSession -> Prop) i f l :
  (forall s, In s l -> session_id s = i -> P s -> P (f s)) ->
  Forall P l -> Forall P (update_session i f l).
Proof.
  intros Hf H. unfold update_session. apply Forall_map.
  rewrite Forall_forall in *. intros s Hs.
  destruct (N.eqb_spec (session_id s) i); auto.
Qed.


Lemma update_session_nth i f l n :
  nth_error (update_session i f l) n
  = option_map (fun s => if (session_id s =? i)%N then f s else s)
               (nth_error l n).
Proof. unfold update_session. apply nth_error_map. Qed.

Lemma update_session_other i f l s :
  In s l -> session_id s <> i -> In s (update_session i f l).
Proof.
  intros Hs Hi. unfold update_session. apply in_map_iff. exists s.
  split; [|exact Hs]. destruct (N.eqb_spec (session_id s) i); congruence.
Qed.

Lemma find_update_session i f l :
  (forall s, session_id (f s) = session_id s) ->
  find (fun s => (session_id s =? i)%N) (update_session i f l)
  = option_map f (find (fun s => (session_id s =? i)%N) l).
Proof.
  intro Hf. induction l as [|s l IH]; [reflexivity|].
  cbn [update_session map find]. destruct (session_id s =? i)%N eqn:E.
  - now rewrite Hf, E.
  - rewrite E. exact IH.
Qed.

Lemma find_session_listed i l :
  In i (map session_id l) ->
  exists s, find (fun s => (session_id s =? i)%N) l = Some s /\
            session_id s = i /\ In s l.
Proof.
  intro H. apply in_map_iff in H. destruct H as [s0 [E Hs0]].
  destruct (find (fun s => (session_id s =? i)%N) l) as [s|] eqn:F.
  - exists s. apply find_some in F. destruct F as [Hs F].
    apply N.eqb_eq in F. auto.
  - exfalso. apply (find_none _ _ F) in Hs0. apply N.eqb_neq in Hs0. auto.
Qed.

(** The messages of a session with the function [g] at the identifier [j]. *)
Lemma patch_ids j g l :
  (forall m, id (g m) = id m) ->
  map id (map (fun m => if (id m =? j)%N then g m else m) l) = map id l.
Proof.
  intro Hg. rewrite map_map. apply map_ext. intro m.
  destruct (id m =? j)%N; auto.
Qed.

Lemma patch_absent j g l :
  ~ In j (map id l) -> map (fun m => if (id m =? j)%N then g m else m) l = l.
Proof.
  intro H. rewrite <- (map_id l) at 2. apply map_ext_in. intros m Hm.
  destruct (N.eqb_spec (id m) j) as [E|E]; [|reflexivity].
  exfalso. apply H. rewrite <- E. now apply in_map.
Qed.

Lemma with_messages_same s : with_messages (messages s) s = s.
Proof. now destruct s. Qed.

Lemma update_message_ids i j g l :
  map session_id (update_message i j g l) = map session_id l.
Proof. unfold update_message. now apply update_session_ids. Qed.

Lemma ids_session l s : In s l -> In (session_id s) (ids l).
Proof. intro H. unfold ids. apply in_or_app. left. now apply in_map. Qed.

Lemma ids_message l s j :
  In s l -> In j (map id (messages s)) -> In j (ids l).
Proof.
  intros Hs Hj. unfold ids. apply in_or_app. right.
  apply in_flat_map. now exists s.
Qed.

(** *** The sort of the sidebar *)

Lemma insert_session_perm s l : Permutation (insert_session s l) (s :: l).
Proof.
  induction l as [|x r IH]; cbn [insert_session]; [reflexivity|].
  destruct (updatedAt s <? updatedAt x)%N; [|reflexivity].
  rewrite IH. apply perm_swap.
Qed.

Lemma sort_sessions_perm l : Permutation (sort_sessions l) l.
Proof.
  induction l as [|s l IH]; cbn [sort_sessions fold_right]; [constructor|].
  rewrite insert_session_perm. now constructor.
Qed.

(** *** handleSend up to its first await *)

Lemma active_of text atts r st :
  activeSessionId (call_of text atts r st)
  = match currentSessionId st with Some i => i | None => session_uuid r end.
Proof. reflexivity. Qed.

Lemma handleSend_current text atts r st :
  currentSessionId (handleSend text atts r st)
  = Some (activeSessionId (call_of text atts r st)).
Proof.
  pose proof (active_of text atts r st) as Ha.
  unfold handleSend. cbv zeta.
  remember (call_of text atts r st) as c eqn:Hc.
  destruct (engine c); destruct (currentSessionId st) eqn:Ecur;
    cbn [currentSessionId start request setSessions setIsGenerating
         setCurrentSessionId setCloudStatus session_id];
    now rewrite Ha.
Qed.

Lemma handleSend_started text atts r st :
  started (handleSend text atts r st) = call_of text atts r st :: started st.
Proof.
  unfold handleSend. cbv zeta.
  remember (call_of text atts r st) as c eqn:Hc.
  destruct (engine c); destruct (currentSessionId st); reflexivity.
Qed.

Lemma handleSend_requests text atts r st :
  requests (handleSend text atts r st) = asked text atts r st :: requests st.
Proof.
  unfold handleSend, asked, before. cbv zeta.
  remember (call_of text atts r st) as c eqn:Hc.
  destruct (engine c); destruct (currentSessionId st); reflexivity.
Qed.

Lemma base_ids r st s :
  In s (match currentSessionId st with
        | Some _ => sessions st
        | None => newSession r :: sessions st
        end) ->
  forall j, In j (map id (messages s)) -> In j (ids (sessions st)).
Proof.
  intros Hs j Hj. destruct (currentSessionId st).
  - now apply (ids_message _ s).
  - destruct Hs as [<-|Hs]; [destruct Hj|now apply (ids_message _ s)].
Qed.

Lemma handleSend_sessions text atts r st :
  fresh r st ->
  sessions (handleSend text atts r st) = sent text atts r st.
Proof.
  intros [_ [_ [Hai [_ [_ Hua]]]]].
  assert (Hpatch : forall g s,
    In s (match currentSessionId st with
          | Some _ => sessions st
          | None => newSession r :: sessions st
          end) ->
    map (fun m => if (id m =? ai_uuid r)%N then g m else m)
        ((messages s ++ [userMsg text atts r])
           ++ [aiMsg Chat r])
    = messages s ++ [userMsg text atts r; g (aiMsg Chat r)]).
  { intros g s Hs. rewrite !map_app, patch_absent.
    - cbn [map id userMsg aiMsg]. rewrite N.eqb_refl.
      destruct (N.eqb_spec (user_uuid r) (ai_uuid r)); [contradiction|].
      now rewrite <- app_assoc.
    - intro H. apply Hai. now apply (base_ids r st s). }
  unfold handleSend, sent. cbv zeta.
  remember (call_of text atts r st) as c eqn:Hc.
  set (base := match currentSessionId st with
               | Some _ => sessions st
               | None => newSession r :: sessions st
               end) in *.
  assert (Hbase : sessions (match currentSessionId st with
                            | Some _ => setCloudStatus syncing st
                            | None =>
                                setCurrentSessionId
                                  (Some (session_id (newSession r)))
                                  (setSessions (cons (newSession r))
                                     (setCloudStatus syncing st))
                            end) = base).
  { subst base. now destruct (currentSessionId st). }
  assert (Hai' : aiMsgId c = ai_uuid r) by now subst c.
  destruct (engine c) eqn:E;
    cbn [sessions start request setSessions setIsGenerating];
    fold (newSession r); rewrite Hbase; unfold update_message;
    rewrite ?update_session_twice by reflexivity;
    apply update_session_ext; intros s Hs _; cbn [messages with_messages];
    rewrite ?Hai'; fold (userMsg text atts r); fold (aiMsg Chat r).
  - now rewrite (Hpatch _ s Hs).
  - now rewrite (Hpatch _ s Hs).
  - now rewrite <- app_assoc.
Qed.

(** *** handleSend after an await *)

Lemma finish_sessions c st : sessions (finish c st) = sessions st.
Proof. unfold finish. now destruct (wants_title c). Qed.

Lemma finish_current c st : currentSessionId (finish c st) = currentSessionId st.
Proof. unfold finish. now destruct (wants_title c). Qed.

Lemma finish_started c st : started (finish c st) = started st.
Proof. unfold finish. now destruct (wants_title c). Qed.

Lemma finish_requests c st :
  wants_title c = false -> requests (finish c st) = requests st.
Proof. intro H. unfold finish. now rewrite H. Qed.

Lemma update_message_same i j l : update_message i j (fun m => m) l = l.
Proof.
  unfold update_message, update_session. rewrite <- (map_id l) at 2.
  apply map_ext. intro s. destruct (session_id s =? i)%N; [|reflexivity].
  replace (map (fun m => if (id m =? j)%N then m else m) (messages s))
    with (messages s); [apply with_messages_same|].
  rewrite <- (map_id (messages s)) at 1. apply map_ext. intro m.
  now destruct (id m =? j)%N.
Qed.

(** What a run does to the sessions after an await is one update of its
    message. *)
Lemma reply_sessions st e c :
  reply_of e = Some c ->
  exists g, keeps g /\
    sessions (step st e)
    = update_message (activeSessionId c) (aiMsgId c) g (sessions st).
Proof.
  destruct e; cbn [reply_of]; intro H; inversion H; subst; cbn [step];
    unfold video_done, image_done, stream_yield, stream_done, failed;
    rewrite ?finish_sessions; cbn [sessions setSessions setIsGenerating setCloudStatus].
  - eexists. split; [|reflexivity]. intro m. now cbn.
  - eexists. split; [|reflexivity]. intro m. now cbn.
  - eexists. split; [|reflexivity]. intro m. now cbn.
  - exists (fun m => m). split; [now intro m|]. now rewrite update_message_same.
  - eexists. split; [|reflexivity]. intro m. now cbn.
Qed.

Lemma reply_current st e c :
  reply_of e = Some c ->
  currentSessionId (step st e) = currentSessionId st /\
  started (step st e) = started st.
Proof.
  destruct e; cbn [reply_of]; intro H; inversion H; subst; cbn [step];
    unfold video_done, image_done, stream_yield, stream_done, failed;
    rewrite ?finish_current, ?finish_started; now split.
Qed.

Lemma reply_requests st e c :
  reply_of e = Some c -> wants_title c = false ->
  requests (step st e) = requests st.
Proof.
  destruct e; cbn [reply_of]; intros H Hw; inversion H; subst; cbn [step];
    unfold video_done, image_done, stream_yield, stream_done, failed;
    rewrite ?finish_requests by exact Hw; reflexivity.
Qed.

Lemma reply_started st e c :
  reply_of e = Some c -> admissible st e -> In c (started st).
Proof.
  destruct e; cbn [reply_of admissible]; intros H Ha; inversion H; subst;
    tauto.
Qed.


Lemma update_message_changed i j g st st' n k :
  sessions st' = update_message i j g (sessions st) ->
  message_at st' n k <> message_at st n k ->
  exists s m,
    nth_error (sessions st) n = Some s /\ session_id s = i /\
    nth_error (messages s) k = Some m /\ id m = j.
Proof.
  intros H Hne. unfold message_at in Hne. rewrite H in Hne.
  unfold update_message in Hne. rewrite update_session_nth in Hne.
  destruct (nth_error (sessions st) n) as [s|]; [|now contradiction Hne].
  cbn [option_map] in Hne.
  destruct (N.eqb_spec (session_id s) i) as [E|E]; [|now contradiction Hne].
  cbn [with_messages messages] in Hne. rewrite nth_error_map in Hne.
  destruct (nth_error (messages s) k) as [m|] eqn:Hm; [|now contradiction Hne].
  cbn [option_map] in Hne.
  destruct (N.eqb_spec (id m) j) as [F|F]; [|now contradiction Hne].
  now exists s, m.
Qed.

(** *** Runs *)

Lemma reaches_run saved evs : forall st,
  reaches saved st -> admissible_run st evs -> reaches saved (run st evs).
Proof.
  induction evs as [|e evs IH]; intros st Hr Ha; [exact Hr|].
  destruct Ha as [Ha Hrest]. apply (IH (step st e)); [|exact Hrest].
  now apply reaches_step.
Qed.

Lemma app_invariant saved (P : State -> Prop) :
  P (mount saved) ->
  (forall st e, reaches saved st -> P st -> admissible st e -> P (step st e)) ->
  forall st, reaches saved st -> P st.
Proof.
  intros H0 Hstep st H. induction H as [|st e Hr IH Ha]; [exact H0|].
  now apply Hstep.
Qed.

Lemma first_reply_reaches : reaches None (run (mount None) first_reply).
Proof.
  apply reaches_run; [constructor|].
  cbn [first_reply admissible_run admissible]. repeat split; try exact I.
  1-6: cbn; intuition discriminate.
  all: cbn; auto.
Qed.

(** *** The current session is in the list *)

Lemma listed_mount saved : listed (mount saved).
Proof.
  unfold listed, mount. destruct saved as [[|s l]|]; cbn; intros i H;
    try discriminate.
  inversion H. now left.
Qed.

Lemma Permutation_ids l l' i :
  Permutation l l' -> In i (map session_id l') -> In i (map session_id l).
Proof.
  intros Hp H. apply (Permutation_in (l := map session_id l')); [|exact H].
  apply Permutation_map. now symmetry.
Qed.

Lemma sent_ids text atts r st :
  map session_id (sent text atts r st)
  = map session_id (match currentSessionId st with
                    | Some _ => sessions st
                    | None => newSession r :: sessions st
                    end).
Proof. unfold sent. now apply update_session_ids. Qed.

Lemma listed_step st e : admissible st e -> listed st -> listed (step st e).
Proof.
  intros Ha Hl.
  destruct (reply_of e) as [c|] eqn:Hc.
  { destruct (reply_sessions st e c Hc) as [g [_ Hs]].
    destruct (reply_current st e c Hc) as [Hcur _].
    unfold listed. rewrite Hcur, Hs, update_message_ids. exact Hl. }
  destruct e; try discriminate Hc; cbn [step admissible] in *; unfold listed in *.
  - (* Send *)
    rewrite handleSend_current, (handleSend_sessions _ _ _ _ Ha), sent_ids.
    rewrite active_of. intros i H. inversion H; subst i.
    destruct (currentSessionId st) as [i|]; [now apply Hl|now left].
  - (* TitleDone *)
    unfold title_done. cbn [sessions currentSessionId setSessions].
    now rewrite update_session_ids.
  - (* NewChat *)
    cbn. intros j H. inversion H. now left.
  - (* SelectChat *)
    cbn. intros j H. now inversion H; subst.
  - (* DeleteChat *)
    unfold onDeleteChat. intros j H.
    assert (Hj : currentSessionId st = Some j /\ j <> i).
    { destruct (currentSessionId st) as [k|] eqn:Ek.
      - destruct (N.eqb_spec k i); cbn in H; [discriminate H|].
        rewrite Ek in H. inversion H; subst. now split.
      - cbn in H. rewrite Ek in H. discriminate H. }
    destruct Hj as [Hj Hne].
    assert (Hs : In j (map session_id
                         (filter (fun s => negb (session_id s =? i)%N) (sessions st)))).
    { apply Hl in Hj. apply in_map_iff in Hj. destruct Hj as [s [E Hs]].
      apply in_map_iff. exists s. split; [exact E|]. apply filter_In.
      split; [exact Hs|]. apply negb_true_iff, N.eqb_neq. congruence. }
    destruct (currentSessionId st) as [k|]; [|exact Hs].
    now destruct (k =? i)%N.
  - (* RenderSidebar *)
    cbn. intros j H. apply Hl in H.
    apply (Permutation_ids (sort_sessions (sessions st)) (sessions st));
      [apply sort_sessions_perm|exact H].
  - cbn. exact Hl.
  - cbn. exact Hl.
  - cbn. exact Hl.
  - cbn. exact Hl.
  - cbn. exact Hl.
Qed.

Lemma reaches_listed saved st : reaches saved st -> listed st.
Proof.
  apply (app_invariant saved listed); [apply listed_mount|].
  intros st' e _ Hl Ha. now apply listed_step.
Qed.

(** X21: whatever the user does, the current session is one of the list:
    [currentSession] is found whenever [currentSessionId] is set, from the
    mount on and after sessions are made, chosen and deleted. *)
Theorem current_session_listed saved st i :
  reaches saved st -> currentSessionId st = Some i ->
  exists s, currentSession st = Some s /\ session_id s = i /\ In s (sessions st).
Proof.
  intros Hr Hi. apply reaches_listed in Hr. apply Hr in Hi as Hin.
  unfold currentSession. rewrite Hi. now apply find_session_listed.
Qed.

Lemma current_session_listed_witness :
  exists s, currentSession (run (mount None) first_reply) = Some s /\
            session_id s = 1%N /\ In s (sessions (run (mount None) first_reply)).
Proof.
  exact (current_session_listed None (run (mount None) first_reply) 1%N
           first_reply_reaches eq_refl).
Defined.

(** *** Titles *)

Lemma paired_not_one l s :
  paired l -> In s l -> (length (messages s) =? 1)%nat = false.
Proof.
  intros Hp Hs. unfold paired in Hp. rewrite Forall_forall in Hp.
  apply Hp in Hs. destruct (length (messages s)) as [|[|n]]; try reflexivity.
  discriminate Hs.
Qed.

Lemma call_of_no_title text atts r st :
  paired (sessions st) -> wants_title (call_of text atts r st) = false.
Proof.
  intro Hp. unfold call_of. cbn [wants_title]. unfold currentSession, find_session.
  destruct (currentSessionId st) as [i|]; [|reflexivity].
  destruct (find _ (sessions st)) as [s|] eqn:F; [|reflexivity].
  apply find_some in F. now apply (paired_not_one (sessions st)).
Qed.

(** The sessions and the runs ask for no title. *)
Lemma untitled_step saved st e :
  admissible st e ->
  paired (sessions st) /\ Forall (fun c => wants_title c = false) (started st) /\
  (forall history, ~ In (GenerateSmartTitle history) (requests st)) /\
  Forall (original saved) (sessions st) ->
  paired (sessions (step st e)) /\
  Forall (fun c => wants_title c = false) (started (step st e)) /\
  (forall history, ~ In (GenerateSmartTitle history) (requests (step st e))) /\
  Forall (original saved) (sessions (step st e)).
Proof.
  intros Ha [Hp [Hw [Hq Ho]]].
  destruct (reply_of e) as [c|] eqn:Hc.
  { destruct (reply_sessions st e c Hc) as [g [_ Hs]].
    destruct (reply_current st e c Hc) as [_ Hst].
    assert (Hwc : wants_title c = false).
    { rewrite Forall_forall in Hw. apply Hw. now apply (reply_started st e). }
    rewrite Hs, Hst, (reply_requests st e c Hc Hwc).
    repeat split; auto; unfold update_message.
    - apply update_session_Forall; [|exact Hp].
      intros s _ _ H. cbn [with_messages messages]. now rewrite length_map.
    - apply update_session_Forall; [|exact Ho]. intros s _ _ H. exact H. }
  destruct e; try discriminate Hc; cbn [step admissible] in *.
  - (* Send *)
    rewrite (handleSend_sessions _ _ _ _ Ha), handleSend_started,
      handleSend_requests.
    assert (Hbase : paired (match currentSessionId st with
                            | Some _ => sessions st
                            | None => newSession r :: sessions st
                            end) /\
                    Forall (original saved)
                           (match currentSessionId st with
                            | Some _ => sessions st
                            | None => newSession r :: sessions st
                            end)).
    { destruct (currentSessionId st); [now split|].
      split; constructor; auto. now left. }
    destruct Hbase as [Hbp Hbo]. repeat split.
    + unfold sent. apply update_session_Forall; [|exact Hbp].
      intros s _ _ H. cbn [messages]. rewrite length_app, Nat.add_comm. exact H.
    + constructor; [now apply call_of_no_title|exact Hw].
    + intros history [H|H]; [|now apply (Hq history)].
      unfold asked in H. now destruct (engine _).
    + unfold sent. apply update_session_Forall; [|exact Hbo].
      intros s _ _ H. exact H.
  - (* TitleDone *)
    exfalso. destruct Ha as [Hin Ht]. rewrite Forall_forall in Hw.
    apply Hw in Hin. congruence.
  - (* NewChat *)
    cbn. repeat split; auto; constructor; auto. now left.
  - (* SelectChat *)
    cbn. now repeat split.
  - (* DeleteChat *)
    unfold onDeleteChat.
    assert (H : paired (filter (fun s => negb (session_id s =? i)%N) (sessions st)) /\
                Forall (original saved)
                       (filter (fun s => negb (session_id s =? i)%N) (sessions st))).
    { split; now apply SessionFacts.Forall_filter_keep. }
    destruct (currentSessionId st) as [k|]; [destruct (k =? i)%N|];
      cbn; now repeat split.
  - (* RenderSidebar *)
    cbn. repeat split; auto.
    + unfold paired.
      now rewrite (sort_sessions_perm (sessions st)).
    + now rewrite (sort_sessions_perm (sessions st)).
  - cbn. now repeat split.
  - cbn. now repeat split.
  - cbn. now repeat split.
  - cbn. now repeat split.
  - cbn. now repeat split.
Qed.

Lemma untitled_mount saved :
  paired (stored saved) ->
  paired (sessions (mount saved)) /\
  Forall (fun c => wants_title c = false) (started (mount saved)) /\
  (forall history, ~ In (GenerateSmartTitle history) (requests (mount saved))) /\
  Forall (original saved) (sessions (mount saved)).
Proof.
  intro Hp.
  assert (Hs : sessions (mount saved) = stored saved /\
               started (mount saved) = [] /\ requests (mount saved) = []).
  { unfold mount. now destruct saved as [[|s l]|]. }
  destruct Hs as [-> [-> ->]]. repeat split; auto.
  apply Forall_forall. intros s Hs. right. now exists s.
Qed.

(** X22: when every session of the store holds an even number of messages,
    as in an empty store, [handleSend] never asks for a title: no run takes
    the branch of [generateSmartTitle], and every session keeps the title
    it was made with, or the one that it had in the store. *)
Theorem title_never_requested saved st :
  paired (stored saved) ->
  reaches saved st ->
  (forall history, ~ In (GenerateSmartTitle history) (requests st)) /\
  Forall (fun c => wants_title c = false) (started st) /\
  Forall (original saved) (sessions st).
Proof.
  intros Hp Hr.
  assert (H : paired (sessions st) /\
              Forall (fun c => wants_title c = false) (started st) /\
              (forall history, ~ In (GenerateSmartTitle history) (requests st)) /\
              Forall (original saved) (sessions st)).
  { revert st Hr. apply app_invariant; [now apply untitled_mount|].
    intros st e _ H Ha. now apply untitled_step. }
  tauto.
Qed.

Lemma title_never_requested_witness :
  let st := run (mount None) first_reply in
  (forall history, ~ In (GenerateSmartTitle history) (requests st)) /\
  Forall (fun c => wants_title c = false) (started st) /\
  Forall (original None) (sessions st).
Proof.
  exact (title_never_requested None (run (mount None) first_reply)
           (Forall_nil _) first_reply_reaches).
Defined.

(** *** Replies *)



(** *** Identifiers *)

Lemma unique_update i f l :
  (forall s, session_id (f s) = session_id s) ->
  (forall s, In s l -> NoDup (map id (messages s)) ->
             NoDup (map id (messages (f s)))) ->
  unique l -> unique (update_session i f l).
Proof.
  intros Hid Hf [Hn Hm]. split; [now rewrite update_session_ids|].
  apply update_session_Forall; [|exact Hm]. intros s Hs _. now apply Hf.
Qed.

Lemma unique_update_message i j g l :
  keeps g -> unique l -> unique (update_message i j g l).
Proof.
  intros Hg Hu. unfold update_message. apply unique_update; auto.
  intros s _ H. cbn [with_messages messages]. rewrite patch_ids; [exact H|].
  intro m. apply Hg.
Qed.

Lemma unique_perm l l' : Permutation l l' -> unique l -> unique l'.
Proof.
  intros Hp [Hn Hm]. split.
  - apply (Permutation_NoDup (l := map session_id l)); [|exact Hn].
    now apply Permutation_map.
  - now rewrite <- Hp.
Qed.

Lemma unique_cons s l :
  ~ In (session_id s) (ids l) -> messages s = [] -> unique l -> unique (s :: l).
Proof.
  intros Hs Hm [Hn Hf]. split.
  - cbn [map]. constructor; [|exact Hn]. intro H. apply Hs. unfold ids.
    apply in_or_app. now left.
  - constructor; [|exact Hf]. rewrite Hm. constructor.
Qed.

Lemma unique_step st e : admissible st e -> unique (sessions st) -> unique (sessions (step st e)).
Proof.
  intros Ha Hu.
  destruct (reply_of e) as [c|] eqn:Hc.
  { destruct (reply_sessions st e c Hc) as [g [Hg Hs]]. rewrite Hs.
    now apply unique_update_message. }
  destruct e; try discriminate Hc; cbn [step admissible] in *.
  - (* Send *)
    rewrite (handleSend_sessions _ _ _ _ Ha).
    destruct Ha as [Hs [Hum [Hai [_ [_ Hne]]]]].
    unfold sent. apply unique_update; [reflexivity| |].
    + intros s Hin Hnd. cbn [messages]. rewrite map_app. apply NoDup_app.
      * exact Hnd.
      * cbn [map userMsg aiMsg id]. constructor; [|constructor; [auto|constructor]].
        intros [H|[]]. now apply Hne.
      * intros a Ha [H|[H|[]]]; cbn [userMsg aiMsg id] in H; subst a.
        -- apply Hum. now apply (base_ids r st s).
        -- apply Hai. now apply (base_ids r st s).
    + destruct (currentSessionId st); [exact Hu|]. now apply unique_cons.
  - (* TitleDone *)
    unfold title_done. cbn [sessions setSessions].
    apply unique_update; auto.
  - (* NewChat *)
    cbn. now apply unique_cons.
  - (* SelectChat *)
    cbn. exact Hu.
  - (* DeleteChat *)
    assert (H : unique (filter (fun s => negb (session_id s =? i)%N) (sessions st))).
    { destruct Hu as [Hn Hm]. split.
      - now apply SessionFacts.NoDup_map_filter.
      - now apply SessionFacts.Forall_filter_keep. }
    unfold onDeleteChat.
    destruct (currentSessionId st) as [k|]; [destruct (k =? i)%N|]; exact H.
  - (* RenderSidebar *)
    cbn. apply (unique_perm (sessions st)); [|exact Hu].
    symmetry. apply sort_sessions_perm.
  - exact Hu.
  - exact Hu.
  - exact Hu.
  - exact Hu.
  - exact Hu.
Qed.

Lemma reaches_unique saved st :
  unique (stored saved) -> reaches saved st -> unique (sessions st).
Proof.
  intros Hu Hr. revert st Hr.
  apply (app_invariant saved (fun st => unique (sessions st))).
  - unfold mount. now destruct saved as [[|s l]|].
  - intros st e _ H Ha. now apply unique_step.
Qed.

(** X24: as long as [crypto.randomUUID] draws new identifiers, no two
    sessions of the list share an identifier and no two messages of a
    session do, if that was so in the store. *)
Theorem ids_unique saved st :
  unique (stored saved) -> reaches saved st ->
  NoDup (map session_id (sessions st)) /\
  forall s, In s (sessions st) -> NoDup (map id (messages s)).
Proof.
  intros Hu Hr. destruct (reaches_unique saved st Hu Hr) as [Hn Hm].
  split; [exact Hn|]. now apply Forall_forall.
Qed.

Lemma ids_unique_witness :
  let st := run (mount None) first_reply in
  NoDup (map session_id (sessions st)) /\
  forall s, In s (sessions st) -> NoDup (map id (messages s)).
Proof.
  exact (ids_unique None (run (mount None) first_reply)
           (conj (NoDup_nil _) (Forall_nil _)) first_reply_reaches).
Defined.

Lemma nth_error_unique (A : Type) (l : list A) i j x :
  NoDup l -> nth_error l i = Some x -> nth_error l j = Some x -> i = j.
Proof.
  intros Hn Hi Hj. apply (proj1 (NoDup_nth_error l) Hn).
  - apply nth_error_Some. congruence.
  - congruence.
Qed.

(** X25: a reply lands in one place: when the sessions read from the store
    have distinct identifiers and [randomUUID] draws new ones, of all the
    messages of all the sessions, what a run of [handleSend] writes after an
    await changes one at most. *)
Theorem reply_lands_once saved st e c n k n' k' :
  unique (stored saved) -> reaches saved st -> reply_of e = Some c ->
  message_at (step st e) n k <> message_at st n k ->
  message_at (step st e) n' k' <> message_at st n' k' ->
  n = n' /\ k = k'.
Proof.
  intros Hu Hr Hc H1 H2. destruct (reaches_unique saved st Hu Hr) as [Hn Hm].
  destruct (reply_sessions st e c Hc) as [g [_ Hs]].
  destruct (update_message_changed _ _ _ _ _ _ _ Hs H1) as [s [m [Hs1 [Es [Hm1 Em]]]]].
  destruct (update_message_changed _ _ _ _ _ _ _ Hs H2) as [s' [m' [Hs2 [Es' [Hm2 Em']]]]].
  assert (En : n = n').
  { apply (nth_error_unique _ (map session_id (sessions st)) n n' (activeSessionId c) Hn).
    - now rewrite nth_error_map, Hs1, <- Es.
    - now rewrite nth_error_map, Hs2, <- Es'. }
  subst n'. split; [reflexivity|].
  assert (s' = s) by congruence. subst s'.
  rewrite Forall_forall in Hm. apply nth_error_In in Hs1 as Hin.
  apply (nth_error_unique _ (map id (messages s)) k k' (aiMsgId c) (Hm s Hin)).
  - now rewrite nth_error_map, Hm1, <- Em.
  - now rewrite nth_error_map, Hm2, <- Em'.
Qed.

Lemma first_send_reaches :
  reaches None (run (mount None) [Send (lit "hello") [] first_draw]).
Proof.
  apply reaches_run; [constructor|].
  cbn [admissible_run admissible]. repeat split; cbn; intuition discriminate.
Qed.

Lemma reply_lands_once_witness :
  let st := run (mount None) [Send (lit "hello") [] first_draw] in
  let e := StreamYield first_call hello in
  message_at (step st e) 0 1 <> message_at st 0 1 /\ (0 = 0 /\ 1 = 1)%nat.
Proof.
  cbv zeta.
  assert (H : message_at
                (step (run (mount None) [Send (lit "hello") [] first_draw])
                      (StreamYield first_call hello)) 0 1
              <> message_at (run (mount None) [Send (lit "hello") [] first_draw]) 0 1)
    by (cbn; discriminate).
  split; [exact H|].
  exact (reply_lands_once None
           (run (mount None) [Send (lit "hello") [] first_draw])
           (StreamYield first_call hello) first_call 0 1 0 1
           (conj (NoDup_nil _) (Forall_nil _)) first_send_reaches eq_refl H H).
Defined.

(** *** What handleSend adds *)

(** X26: in a state that the application reaches, with identifiers drawn
    new, [handleSend] adds two messages to the end of the current session,
    which it makes at the head of the list when there is none: the message
    of the user, with the text and the attachments, and the message that
    the reply will fill.  The history that goes to the model with the text
    is the session as it was before, without these two, and the other
    sessions stay as they are. *)
Theorem send_appends_pair saved st text atts r :
  reaches saved st -> fresh r st ->
  let st' := handleSend text atts r st in
  let c := call_of text atts r st in
  exists s',
    currentSession st' = Some s' /\
    session_id s' = activeSessionId c /\
    (forall i, currentSessionId st = Some i -> activeSessionId c = i) /\
    (currentSessionId st = None ->
     hd_error (sessions st') = Some s' /\
     session_title s' = lit "Temporal Node") /\
    messages s' = before st ++ [userMsg text atts r; aiMsg (engine c) r] /\
    (engine c = Chat ->
     hd_error (requests st')
     = Some (SendMessageStream (before st) text (tone st) (isGrounding st)
               (isThinking st) atts)) /\
    (forall s, In s (sessions st) -> session_id s <> activeSessionId c ->
               In s (sessions st')).
Proof.
  intros Hr Hf. cbv zeta. apply reaches_listed in Hr.
  unfold currentSession at 1.
  rewrite handleSend_current, (handleSend_sessions _ _ _ _ Hf),
    handleSend_requests.
  unfold find_session, sent. rewrite find_update_session by reflexivity.
  rewrite active_of. unfold asked, before, currentSession, find_session.
  destruct (currentSessionId st) as [i|] eqn:Ecur.
  - destruct (find_session_listed i (sessions st) (Hr i Ecur)) as [s [F [E Hs]]].
    rewrite F. cbn [option_map]. eexists. split; [reflexivity|].
    cbn [session_id messages]. split; [exact E|].
    split; [now intros j H; inversion H|]. split; [discriminate|].
    split; [reflexivity|]. split.
    + intro He. now rewrite He.
    + intros s0 H0 Hne. now apply update_session_other.
  - cbn [find newSession session_id]. rewrite N.eqb_refl. cbn [option_map].
    eexists. split; [reflexivity|]. cbn [session_id messages session_title].
    split; [reflexivity|]. split; [discriminate|]. split.
    + intros _. cbn [update_session map hd_error session_id].
      now rewrite N.eqb_refl.
    + split; [reflexivity|]. split.
      * intro He. now rewrite He.
      * intros s0 H0 Hne. apply update_session_other; [now right|exact Hne].
Qed.

Lemma send_appends_pair_witness :
  let st := run (mount None) first_reply in
  let st' := handleSend (lit "draw a cat") [] second_draw st in
  let c := call_of (lit "draw a cat") [] second_draw st in
  exists s',
    currentSession st' = Some s' /\
    session_id s' = activeSessionId c /\
    (forall i, currentSessionId st = Some i -> activeSessionId c = i) /\
    (currentSessionId st = None ->
     hd_error (sessions st') = Some s' /\
     session_title s' = lit "Temporal Node") /\
    messages s'
    = before st ++ [userMsg (lit "draw a cat") [] second_draw;
                    aiMsg (engine c) second_draw] /\
    (engine c = Chat ->
     hd_error (requests st')
     = Some (SendMessageStream (before st) (lit "draw a cat") (tone st)
               (isGrounding st) (isThinking st) [])) /\
    (forall s, In s (sessions st) -> session_id s <> activeSessionId c ->
               In s (sessions st')).
Proof.
  refine (send_appends_pair None (run (mount None) first_reply)
            (lit "draw a cat") [] second_draw first_reply_reaches _).
  vm_compute. intuition discriminate.
Defined.

End AppFacts.
